(** * seo-assistant: response parsing, print export, reveal and speech control

    A shallow embedding of the message-rendering core of the chat client
    (parseMessageContent, markdownToHTML, useTypingEffect, the speech
    toggle of MessageBubble, and the citation de-duplication of
    generateText), with the properties of its specification stated and
    settled against it.

    JavaScript strings are sequences of UTF-16 code units; they are modelled
    as lists of code units, so that [length], [trim] and the regular
    expressions see exactly what the program sees. *)

From Stdlib Require Import String Ascii List NArith ZArith Arith Lia Bool.
Import ListNotations.

Set Implicit Arguments.

(* ===================================================================== *)
(** ** JavaScript strings *)
(* ===================================================================== *)

Definition char := N.
Definition jsstring := list char.

(** An ASCII literal of the source, as code units. *)
Definition str (s : string) : jsstring :=
  map N_of_ascii (list_ascii_of_string s).

Definition nl : char := 10%N.   (* \n *)
Definition cr : char := 13%N.   (* \r *)
Definition dq : char := 34%N.   (* the double quote *)

Definition ch (s : string) : char :=
  match s with
  | String a _ => N_of_ascii a
  | EmptyString => 0%N
  end.

(** WhiteSpace and LineTerminator of ECMAScript: what [\s] and [trim] use. *)
Definition is_space (c : char) : bool :=
  ((9 <=? c) && (c <=? 13) || (c =? 32) || (c =? 160) || (c =? 5760)
   || (8192 <=? c) && (c <=? 8202) || (c =? 8232) || (c =? 8233)
   || (c =? 8239) || (c =? 8287) || (c =? 12288) || (c =? 65279))%N.

Definition is_line_terminator (c : char) : bool :=
  ((c =? 10) || (c =? 13) || (c =? 8232) || (c =? 8233))%N.

Definition is_digit (c : char) : bool := ((48 <=? c) && (c <=? 57))%N.

(** [\w] *)
Definition is_word (c : char) : bool :=
  ((97 <=? c) && (c <=? 122) || (65 <=? c) && (c <=? 90)
   || is_digit c || (c =? 95))%N.

(** Canonicalize of a non-unicode, ignore-case pattern: the code unit's upper
    case when that is a single code unit, except that a non-ASCII unit never
    folds to an ASCII one.  Written out for ASCII and Latin-1, which covers
    every character that occurs in a pattern of this program; other units are
    left alone, and none of them folds to a pattern character. *)
Definition canonicalize (c : char) : char :=
  (if (97 <=? c) && (c <=? 122) then c - 32
   else if (224 <=? c) && (c <=? 254) && negb (c =? 247) then c - 32
   else if c =? 255 then 376
   else if c =? 181 then 924
   else c)%N.

Fixpoint drop_while (p : char -> bool) (s : jsstring) : jsstring :=
  match s with
  | c :: tl => if p c then drop_while p tl else s
  | [] => []
  end.

Definition trimStart (s : jsstring) : jsstring := drop_while is_space s.
Definition trimEnd (s : jsstring) : jsstring := rev (drop_while is_space (rev s)).

(** String.prototype.trim *)
Definition trim (s : jsstring) : jsstring := trimEnd (trimStart s).

Fixpoint starts_with (p s : jsstring) : bool :=
  match p, s with
  | [], _ => true
  | a :: p', b :: s' => (a =? b)%N && starts_with p' s'
  | _ :: _, [] => false
  end.

(** String.prototype.indexOf, [None] for -1. *)
Fixpoint indexOf (p s : jsstring) : option nat :=
  if starts_with p s then Some 0
  else match s with
       | [] => None
       | _ :: tl => option_map S (indexOf p tl)
       end.

(** String.prototype.replace with a string pattern: the first occurrence. *)
Definition replace_str (p rep s : jsstring) : jsstring :=
  match indexOf p s with
  | Some i => firstn i s ++ rep ++ skipn (i + length p) s
  | None => s
  end.

Definition push_head (c : char) (l : list jsstring) : list jsstring :=
  match l with
  | cur :: more => (c :: cur) :: more
  | [] => [[c]]
  end.

(** String.prototype.split with a one-unit separator. *)
Fixpoint split_char (sep : char) (s : jsstring) : list jsstring :=
  match s with
  | [] => [[]]
  | c :: tl =>
      if (c =? sep)%N then [] :: split_char sep tl
      else push_head c (split_char sep tl)
  end.

(** split('\n\n'): the separator is two line feeds, found left to right. *)
Fixpoint split_nlnl (s : jsstring) : list jsstring :=
  match s with
  | [] => [[]]
  | c :: tl =>
      match tl with
      | c' :: tl' =>
          if ((c =? nl) && (c' =? nl))%N then [] :: split_nlnl tl'
          else push_head c (split_nlnl tl)
      | [] => [[c]]
      end
  end.

(** Array.prototype.join *)
Fixpoint join (sep : jsstring) (l : list jsstring) : jsstring :=
  match l with
  | [] => []
  | [x] => x
  | x :: tl => x ++ sep ++ join sep tl
  end.

(** Number to string, for the non-negative integers the program prints. *)
Fixpoint dec_digits (fuel n : nat) (acc : jsstring) : jsstring :=
  match fuel with
  | 0 => acc
  | S fuel' =>
      let d := (48 + N.of_nat (n mod 10))%N in
      if n / 10 =? 0 then d :: acc else dec_digits fuel' (n / 10) (d :: acc)
  end.

Definition number_to_string (n : nat) : jsstring := dec_digits (S n) n [].

(* ===================================================================== *)
(** ** Regular expressions

    The patterns of the program are kept as syntax and run by a backtracking
    matcher that follows the ECMAScript semantics of the constructs the
    program uses: ordered alternation, greedy and lazy repetition (an
    iteration that consumes nothing is rejected), capture groups, the
    assertions ^, $, \b and (?=...), and the flags i and m.  Captures set
    inside a repetition are not cleared when the repetition iterates again;
    no pattern of the program reads such a capture.

    Each pattern below is quoted from the source above its definition; where
    the source has a star directly before a closing parenthesis, the quotation
    puts a blank between the two. *)
(* ===================================================================== *)

(** Character classes and atoms. *)
Inductive cset :=
| CLit (c : char)            (* a literal character *)
| CAny                       (* [\s\S] *)
| CDot                       (* .  *)
| CSpace                     (* \s *)
| CWord                      (* \w *)
| CDigit                     (* \d *)
| COneOf (l : list char)     (* [abc] *)
| CNoneOf (l : list char)    (* [^abc] *)
| CUnion (a b : cset).       (* [\s...] mixed classes *)

Inductive regex :=
| Eps
| Chr (cs : cset)
| Seq (a b : regex)
| Alt (a b : regex)                 (* a|b, a first *)
| Star (greedy : bool) (a : regex)  (* a* and a*? *)
| Group (i : nat) (a : regex)       (* the i-th capturing group *)
| Bol                               (* ^ *)
| Eol                               (* $ *)
| WordB                             (* \b *)
| Look (a : regex).                 (* (?=a) *)

Record flags := { ignoreCase : bool; multiline : bool }.

Definition no_flags := {| ignoreCase := false; multiline := false |}.
Definition flag_i := {| ignoreCase := true; multiline := false |}.
Definition flag_m := {| ignoreCase := false; multiline := true |}.
Definition flag_im := {| ignoreCase := true; multiline := true |}.

(** Derived forms. *)
Definition Plus (g : bool) (a : regex) : regex := Seq a (Star g a).  (* a+ *)
Definition Opt (a : regex) : regex := Alt a Eps.                     (* a? *)
Definition Cat (l : list regex) : regex := fold_right Seq Eps l.
Definition Lit (s : jsstring) : regex := Cat (map (fun c => Chr (CLit c)) s).
Definition lit (s : string) : regex := Lit (str s).
Definition any_lazy : regex := Star false (Chr CAny).     (* [\s\S]*? *)
Definition any_greedy : regex := Star true (Chr CAny).    (* [\s\S]* *)
Definition spaces : regex := Star true (Chr CSpace).      (* \s* *)

Definition eq_char (ic : bool) (a b : char) : bool :=
  if ic then (canonicalize a =? canonicalize b)%N else (a =? b)%N.

Fixpoint cs_match (ic : bool) (cs : cset) (c : char) : bool :=
  match cs with
  | CLit a => eq_char ic a c
  | CAny => true
  | CDot => negb (is_line_terminator c)
  | CSpace => is_space c
  | CWord => is_word c
  | CDigit => is_digit c
  | COneOf l => existsb (fun a => eq_char ic a c) l
  | CNoneOf l => negb (existsb (fun a => eq_char ic a c) l)
  | CUnion a b => cs_match ic a c || cs_match ic b c
  end.

(** The matcher's state: the unit just before the current position (for ^
    and \b), the input still to read, and the captures so far (latest
    first). *)
Record mstate := { prev : option char; rest : jsstring; caps : list (nat * jsstring) }.

Definition at_bol (fl : flags) (st : mstate) : bool :=
  match prev st with
  | None => true
  | Some c => multiline fl && is_line_terminator c
  end.

Definition at_eol (fl : flags) (st : mstate) : bool :=
  match rest st with
  | [] => true
  | c :: _ => multiline fl && is_line_terminator c
  end.

Definition word_before (st : mstate) : bool :=
  match prev st with Some c => is_word c | None => false end.
Definition word_after (st : mstate) : bool :=
  match rest st with c :: _ => is_word c | [] => false end.

Definition set_cap (i : nat) (v : jsstring) (st : mstate) : mstate :=
  {| prev := prev st; rest := rest st; caps := (i, v) :: caps st |}.

(** The repetition of a body matcher: [n] bounds the number of iterations
    and is always taken larger than the input left.  An iteration must
    consume input; a greedy repetition tries one more iteration before the
    continuation, a lazy one the continuation first. *)
Fixpoint star_loop (body : (mstate -> option mstate) -> mstate -> option mstate)
    (g : bool) (k : mstate -> option mstate) (n : nat) (st : mstate)
    {struct n} : option mstate :=
  match n with
  | 0 => k st
  | S n' =>
      if g then
        match body (fun st' =>
                 if length (rest st') <? length (rest st)
                 then star_loop body g k n' st' else None) st with
        | Some x => Some x
        | None => k st
        end
      else
        match k st with
        | Some x => Some x
        | None =>
            body (fun st' =>
              if length (rest st') <? length (rest st)
              then star_loop body g k n' st' else None) st
        end
  end.

(** [exec fl r k st]: match [r] at [st], then continue with [k]; the first
    success in the matcher's priority order. *)
Fixpoint exec (fl : flags) (r : regex) (k : mstate -> option mstate)
    (st : mstate) {struct r} : option mstate :=
  match r with
  | Eps => k st
  | Chr cs =>
      match rest st with
      | c :: tl =>
          if cs_match (ignoreCase fl) cs c
          then k {| prev := Some c; rest := tl; caps := caps st |}
          else None
      | [] => None
      end
  | Seq a b => exec fl a (exec fl b k) st
  | Alt a b =>
      match exec fl a k st with
      | Some x => Some x
      | None => exec fl b k st
      end
  | Star g a => star_loop (exec fl a) g k (S (length (rest st))) st
  | Group i a =>
      exec fl a (fun st' =>
        k (set_cap i (firstn (length (rest st) - length (rest st')) (rest st)) st')) st
  | Bol => if at_bol fl st then k st else None
  | Eol => if at_eol fl st then k st else None
  | WordB => if xorb (word_before st) (word_after st) then k st else None
  | Look a =>
      match exec fl a Some st with
      | Some st' => k {| prev := prev st; rest := rest st; caps := caps st' |}
      | None => None
      end
  end.

(** Whether the pattern matches a prefix of [s]. *)
Definition matches_prefix (fl : flags) (r : regex) (s : jsstring) : bool :=
  match exec fl r Some {| prev := None; rest := s; caps := [] |} with
  | Some _ => true
  | None => false
  end.

(** A match: where it starts, the matched text, the captures and the input
    left after it. *)
Record rmatch := { m_index : nat; m_text : jsstring;
                   m_caps : list (nat * jsstring); m_after : jsstring }.

Fixpoint lookup_cap (i : nat) (l : list (nat * jsstring)) : option jsstring :=
  match l with
  | [] => None
  | (j, v) :: tl => if i =? j then Some v else lookup_cap i tl
  end.

(** match[i]: absent when the group took no part in the match. *)
Definition group (m : rmatch) (i : nat) : option jsstring := lookup_cap i (m_caps m).

(** $i in a replacement string: the empty string for an absent group. *)
Definition group_text (m : rmatch) (i : nat) : jsstring :=
  match group m i with Some v => v | None => [] end.

Definition last_char (dflt : option char) (s : jsstring) : option char :=
  match rev s with c :: _ => Some c | [] => dflt end.

(** The leftmost match at or after the current position. *)
Fixpoint search (fl : flags) (r : regex) (pv : option char) (idx : nat)
    (s : jsstring) {struct s} : option rmatch :=
  match exec fl r Some {| prev := pv; rest := s; caps := [] |} with
  | Some st' =>
      Some {| m_index := idx;
              m_text := firstn (length s - length (rest st')) s;
              m_caps := caps st';
              m_after := rest st' |}
  | None =>
      match s with
      | [] => None
      | c :: tl => search fl r (Some c) (S idx) tl
      end
  end.

(** String.prototype.match with a non-global pattern (and RegExp exec). *)
Definition re_match (fl : flags) (r : regex) (s : jsstring) : option rmatch :=
  search fl r None 0 s.

(** RegExp.prototype.test *)
Definition re_test (fl : flags) (r : regex) (s : jsstring) : bool :=
  match re_match fl r s with Some _ => true | None => false end.

(** A global pattern cuts the input into the texts between matches and the
    matches themselves: after a match the search resumes where it ended, one
    unit further when the match was empty. *)
Inductive piece := Text (s : jsstring) | Match (m : rmatch).

Fixpoint pieces (fl : flags) (r : regex) (fuel : nat) (pv : option char)
    (s : jsstring) : list piece :=
  match fuel with
  | 0 => [Text s]
  | S fuel' =>
      match search fl r pv 0 s with
      | None => [Text s]
      | Some m =>
          let before := firstn (m_index m) s in
          match m_text m with
          | [] =>
              match m_after m with
              | [] => [Text before; Match m]
              | c :: tl =>
                  Text before :: Match m :: Text [c] :: pieces fl r fuel' (Some c) tl
              end
          | _ :: _ =>
              Text before :: Match m
                :: pieces fl r fuel' (last_char pv (before ++ m_text m)) (m_after m)
          end
      end
  end.

Definition all_pieces (fl : flags) (r : regex) (s : jsstring) : list piece :=
  pieces fl r (S (length s)) None s.

Definition render (f : rmatch -> jsstring) (p : piece) : jsstring :=
  match p with Text t => t | Match m => f m end.

(** String.prototype.replace with a global pattern; [f] is the replacement
    (a callback, or a replacement string with its $n and $& written out). *)
Definition replace_all (fl : flags) (r : regex) (f : rmatch -> jsstring)
    (s : jsstring) : jsstring :=
  concat (map (render f) (all_pieces fl r s)).

(** String.prototype.replace with a non-global pattern: the first match. *)
Definition replace_first (fl : flags) (r : regex) (f : rmatch -> jsstring)
    (s : jsstring) : jsstring :=
  match re_match fl r s with
  | Some m => firstn (m_index m) s ++ f m ++ m_after m
  | None => s
  end.

Definition matched_texts (l : list piece) : list jsstring :=
  flat_map (fun p => match p with Match m => [m_text m] | Text _ => [] end) l.

(** String.prototype.match with a global pattern: the matched texts, or
    null ([None]) when there is none. *)
Definition match_all (fl : flags) (r : regex) (s : jsstring) : option (list jsstring) :=
  match matched_texts (all_pieces fl r s) with
  | [] => None
  | l => Some l
  end.

Definition delete : rmatch -> jsstring := fun _ => [].

(** String.prototype.slice(start): a negative start counts from the end. *)
Definition slice (start : Z) (s : jsstring) : jsstring :=
  let len := Z.of_nat (length s) in
  let from := if (start <? 0)%Z then Z.max (len + start) 0 else Z.min start len in
  skipn (Z.to_nat from) s.

(** indexOf as the number JavaScript returns, -1 when absent. *)
Definition indexOf_num (p s : jsstring) : Z :=
  match indexOf p s with Some i => Z.of_nat i | None => (-1)%Z end.

(** What [if (x)] sees in a string that may be null or undefined. *)
Definition truthy (o : option jsstring) : bool :=
  match o with Some (_ :: _) => true | _ => false end.

Definition nonempty (s : jsstring) : bool :=
  match s with [] => false | _ :: _ => true end.

(* ===================================================================== *)
(** ** Section extractor: parseMessageContent *)
(* ===================================================================== *)

(** (Answer|Final\s*Answer|Response) *)
Definition answer_word : regex :=
  Alt (lit "Answer") (Alt (Cat [lit "Final"; spaces; lit "Answer"]) (lit "Response")).

(** #{2,3} *)
Definition hashes23 : regex := Cat [lit "#"; lit "#"; Opt (lit "#")].

(** [\r\n]+ *)
Definition newlines1 : regex := Plus true (Chr (COneOf [cr; nl])).

(** /<thinking>([\s\S]*?)<\/thinking>/gi *)
Definition re_thinking : regex :=
  Cat [lit "<thinking>"; Group 1 any_lazy; lit "</thinking>"].

(** /<\/?thinking>/gi *)
Definition re_thinking_tag : regex :=
  Cat [lit "<"; Opt (lit "/"); lit "thinking>"].

(** /<thinking>[\s\S]*?<\/thinking>/gi *)
Definition re_thinking_block : regex :=
  Cat [lit "<thinking>"; any_lazy; lit "</thinking>"].

(** /\[Reasoning\]([\s\S]*?)\[\/Reasoning\]/i *)
Definition re_bracket : regex :=
  Cat [lit "[Reasoning]"; Group 1 any_lazy; lit "[/Reasoning]"].

(** /\*\*Reasoning:\*\*\s*([\s\S]*?)\*\*(Answer|Final\s*Answer|Response):\*\*\s*([\s\S]* )/i *)
Definition re_bold : regex :=
  Cat [lit "**Reasoning:**"; spaces; Group 1 any_lazy;
       lit "**"; Group 2 answer_word; lit ":**"; spaces; Group 3 any_greedy].

(** /^Reasoning:\s*([\s\S]*?)\n(Answer|Final\s*Answer|Response):\s*([\s\S]* )/im *)
Definition re_plain : regex :=
  Cat [Bol; lit "Reasoning:"; spaces; Group 1 any_lazy;
       Chr (CLit nl); Group 2 answer_word; lit ":"; spaces; Group 3 any_greedy].

(** /^Thinking:\s*([\s\S]*?)\n(Answer|Final\s*Answer|Response):\s*([\s\S]* )/im *)
Definition re_thinking_answer : regex :=
  Cat [Bol; lit "Thinking:"; spaces; Group 1 any_lazy;
       Chr (CLit nl); Group 2 answer_word; lit ":"; spaces; Group 3 any_greedy].

(** /---\s*Reasoning\s*---\s*([\s\S]*?)---\s*(Answer|Final\s*Answer|Response)\s*---\s*([\s\S]* )/i *)
Definition re_dash : regex :=
  Cat [lit "---"; spaces; lit "Reasoning"; spaces; lit "---"; spaces;
       Group 1 any_lazy;
       lit "---"; spaces; Group 2 answer_word; spaces; lit "---"; spaces;
       Group 3 any_greedy].

(** /^#{2,3}\s*Reasoning\s*[\r\n]+([\s\S]*?)(?=\n#{2,3}\s*(Answer|Final\s*Answer|Response)\b)/im *)
Definition re_header : regex :=
  Cat [Bol; hashes23; spaces; lit "Reasoning"; spaces; newlines1;
       Group 1 any_lazy;
       Look (Cat [Chr (CLit nl); hashes23; spaces; Group 2 answer_word; WordB])].

(** /^#{2,3}\s*(Answer|Final\s*Answer|Response)\s*[\r\n]+([\s\S]* )/im *)
Definition re_answer_header : regex :=
  Cat [Bol; hashes23; spaces; Group 1 answer_word; spaces; newlines1;
       Group 2 any_greedy].

(** /^\*\*(Answer|Final\s*Answer|Response):\*\*\s*/i *)
Definition re_clean_bold : regex :=
  Cat [Bol; lit "**"; Group 1 answer_word; lit ":**"; spaces].

(** /^---\s*(Answer|Final\s*Answer|Response)\s*---\s*/i *)
Definition re_clean_dash : regex :=
  Cat [Bol; lit "---"; spaces; Group 1 answer_word; spaces; lit "---"; spaces].

(** /^#{2,3}\s*(Answer|Final\s*Answer|Response)\s*[\r\n]+/im *)
Definition re_clean_header : regex :=
  Cat [Bol; hashes23; spaces; Group 1 answer_word; spaces; newlines1].

(** /^(Answer|Final\s*Answer|Response):\s*/i *)
Definition re_clean_plain : regex :=
  Cat [Bol; Group 1 answer_word; lit ":"; spaces].

(** The lead-in of the promotional footer as the pattern spells it in the
    source file: the four code units U+00F0 U+0178 U+2019 U+00A1. *)
Definition promo_lead : jsstring := [240; 376; 8217; 161]%N.

(** The light-bulb emoji U+1F4A1, as the surrogate pair a JavaScript string
    holds for it. *)
Definition bulb_emoji : jsstring := [55357; 56481]%N.

(** <lead>\s*\*?\*?Need Professional SEO Help\?\*?\*?[\s\S]*?(?:Rabbit Rank|rabbitrank\.com)[\s\S]*?(?:success\.|$) *)
Definition promo_core (lead : jsstring) : list regex :=
  [Lit lead; spaces; Opt (lit "*"); Opt (lit "*");
   lit "Need Professional SEO Help?"; Opt (lit "*"); Opt (lit "*");
   any_lazy; Alt (lit "Rabbit Rank") (lit "rabbitrank.com");
   any_lazy; Alt (lit "success.") Eol].

(** /---\s*\n?\s*<lead>.../i and /<lead>.../i *)
Definition promoPatterns_with (lead : jsstring) : list regex :=
  [Cat ([lit "---"; spaces; Opt (Chr (CLit nl)); spaces] ++ promo_core lead);
   Cat (promo_core lead)].

Definition promoPatterns : list regex := promoPatterns_with promo_lead.

(** /^---\s*\n?\s*/ *)
Definition re_rule_prefix : regex :=
  Cat [Bol; lit "---"; spaces; Opt (Chr (CLit nl)); spaces].

Record ParsedContent := {
  reasoning : option jsstring;
  mainContent : jsstring;
  rabbitRankPromo : option jsstring
}.

(** The two variables the reasoning cascade updates. *)
Definition acc := (option jsstring * jsstring)%type.

Definition nlnl : jsstring := [nl; nl].

(** reasoning ? `${reasoning}\n\n${x}` : x *)
Definition append_reasoning (r : option jsstring) (x : jsstring) : jsstring :=
  if truthy r then match r with Some r' => r' ++ nlnl ++ x | None => x end else x.

(** x && x.length > 10 && y && y.length > 10 *)
Definition substantial (x y : option jsstring) : bool :=
  match x, y with
  | Some x', Some y' =>
      nonempty x' && (10 <? length x') && nonempty y' && (10 <? length y')
  | _, _ => false
  end.

(** <thinking> tags, possibly several. *)
Definition step_thinking (a : acc) : acc :=
  let '(reasoning, mainContent) := a in
  match match_all flag_i re_thinking mainContent with
  | Some thinkingMatches =>
      let allThinking :=
        join nlnl
          (filter nonempty
             (map (fun m => trim (replace_all flag_i re_thinking_tag delete m))
                  thinkingMatches)) in
      (if nonempty allThinking then Some allThinking else reasoning,
       trim (replace_all flag_i re_thinking_block delete mainContent))
  | None => a
  end.

(** [Reasoning]...[/Reasoning] *)
Definition step_bracket (a : acc) : acc :=
  let '(reasoning, mainContent) := a in
  match re_match flag_i re_bracket mainContent with
  | Some m =>
      let extracted := option_map trim (group m 1) in
      (match extracted with
       | Some ((_ :: _) as e) => Some (append_reasoning reasoning e)
       | _ => reasoning
       end,
       trim (replace_str (m_text m) [] mainContent))
  | None => a
  end.

(** **Reasoning:** ... **Answer:** *)
Definition step_bold (a : acc) : acc :=
  let '(reasoning, mainContent) := a in
  match re_match flag_i re_bold mainContent with
  | Some m =>
      let reasoningText := option_map trim (group m 1) in
      let answerText := option_map trim (group m 3) in
      if substantial reasoningText answerText then
        match reasoningText, answerText with
        | Some rt, Some at_ => (Some (append_reasoning reasoning rt), at_)
        | _, _ => a
        end
      else a
  | None => a
  end.

(** The splits tried only while no reasoning has been found: a pattern with
    the reasoning in group 1 and the answer in group 3. *)
Definition step_split (fl : flags) (r : regex) (a : acc) : acc :=
  let '(reasoning, mainContent) := a in
  if negb (truthy reasoning) then
    match re_match fl r mainContent with
    | Some m =>
        let reasoningText := option_map trim (group m 1) in
        let answerText := option_map trim (group m 3) in
        if substantial reasoningText answerText then
          match reasoningText, answerText with
          | Some rt, Some at_ => (Some rt, at_)
          | _, _ => a
          end
        else a
    | None => a
    end
  else a.

Definition step_plain : acc -> acc := step_split flag_im re_plain.
Definition step_thinking_answer : acc -> acc := step_split flag_im re_thinking_answer.
Definition step_dash : acc -> acc := step_split flag_i re_dash.

(** ## Reasoning ... ## Answer *)
Definition step_header (a : acc) : acc :=
  let '(reasoning, mainContent) := a in
  if negb (truthy reasoning) then
    match re_match flag_im re_header mainContent with
    | Some hm =>
        let reasoningText := option_map trim (group hm 1) in
        let afterReasoning :=
          slice (indexOf_num (m_text hm) mainContent + Z.of_nat (length (m_text hm)))
                mainContent in
        match re_match flag_im re_answer_header afterReasoning with
        | Some am =>
            let answerText := option_map trim (group am 2) in
            if substantial reasoningText answerText then
              match reasoningText, answerText with
              | Some rt, Some at_ => (Some rt, at_)
              | _, _ => a
              end
            else a
        | None => a
        end
    | None => a
    end
  else a.

(** The four clean-up replacements of leftover answer labels. *)
Definition cleanup (mainContent : jsstring) : jsstring :=
  let mainContent := trim (replace_first flag_i re_clean_bold delete mainContent) in
  let mainContent := trim (replace_first flag_i re_clean_dash delete mainContent) in
  let mainContent := trim (replace_first flag_im re_clean_header delete mainContent) in
  trim (replace_first flag_i re_clean_plain delete mainContent).

(** for (const pattern of promoPatterns) { ... break; } *)
Fixpoint step_promo (patterns : list regex) (mainContent : jsstring)
    : option jsstring * jsstring :=
  match patterns with
  | [] => (None, mainContent)
  | pattern :: more =>
      match re_match flag_i pattern mainContent with
      | Some m =>
          (Some (trim (replace_first no_flags re_rule_prefix delete (m_text m))),
           trim (replace_str (m_text m) [] mainContent))
      | None => step_promo more mainContent
      end
  end.

(** The final validation. *)
Definition final_validation (text : jsstring) (a : acc) : acc :=
  let '(reasoning, mainContent) := a in
  if negb (nonempty mainContent) || (length mainContent <? 5) then
    if truthy reasoning && (20 <? length (match reasoning with Some r => r | None => [] end))
    then a
    else (None, text)
  else a.

Definition extract_reasoning (text : jsstring) : acc :=
  step_header (step_dash (step_thinking_answer (step_plain
    (step_bold (step_bracket (step_thinking (None, text))))))).

Definition parseMessageContent_with (patterns : list regex) (text : jsstring)
    : ParsedContent :=
  let '(reasoning, mainContent) := extract_reasoning text in
  let mainContent := cleanup mainContent in
  let '(rabbitRankPromo, mainContent) := step_promo patterns mainContent in
  let '(reasoning, mainContent) := final_validation text (reasoning, mainContent) in
  {| reasoning := reasoning; mainContent := mainContent;
     rabbitRankPromo := rabbitRankPromo |}.

Definition parseMessageContent (text : jsstring) : ParsedContent :=
  parseMessageContent_with promoPatterns text.

(* ===================================================================== *)
(** ** Markdown to print HTML: markdownToHTML *)
(* ===================================================================== *)

Definition dot_plus : regex := Plus true (Chr CDot).        (* .+ *)
Definition dot_plus_lazy : regex := Plus false (Chr CDot).  (* .+? *)

(** /&/g *)
Definition re_amp : regex := lit "&".
(** /^### (.+)$/gm, /^## (.+)$/gm, /^# (.+)$/gm *)
Definition re_h (marks : string) : regex :=
  Cat [Bol; lit marks; lit " "; Group 1 dot_plus; Eol].
(** /\*\*\*(.+?)\*\*\*/g, /\*\*(.+?)\*\*/g, /\*(.+?)\*/g, and the same with _ *)
Definition re_emph (marks : string) : regex :=
  Cat [lit marks; Group 1 dot_plus_lazy; lit marks].
(** /`([^`]+)`/g *)
Definition re_code : regex :=
  Cat [lit "`"; Group 1 (Plus true (Chr (CNoneOf [ch "`"]))); lit "`"].
(** /```[\w]*\n([\s\S]*?)```/g *)
Definition re_fence : regex :=
  Cat [lit "```"; Star true (Chr CWord); Chr (CLit nl); Group 1 any_lazy; lit "```"].
(** /\[([^\]]+)\]\(([^)]+)\)/g *)
Definition re_link : regex :=
  Cat [lit "["; Group 1 (Plus true (Chr (CNoneOf [ch "]"]))); lit "](";
       Group 2 (Plus true (Chr (CNoneOf [ch ")"]))); lit ")"].
(** /^---+$/gm *)
Definition re_hr : regex := Cat [Bol; lit "--"; Plus true (Chr (CLit (ch "-"))); Eol].
(** The three characters that stand in the class after - and * in the
    source file: U+00E2 U+20AC U+00A2. *)
Definition bullet_units : list char := [226; 8364; 162]%N.
(** /^(\s* )[-*...] (.+)$/gm, the class holding - * and [bullet_units] *)
Definition re_ul_item : regex :=
  Cat [Bol; Group 1 spaces; Chr (COneOf ([ch "-"; ch "*"] ++ bullet_units));
       lit " "; Group 2 dot_plus; Eol].
(** /(<li[^>]*>.*?<\/li>\n?)+/g *)
Definition re_li_run : regex :=
  Plus true (Group 1 (Cat [lit "<li"; Star true (Chr (CNoneOf [ch ">"])); lit ">";
                           Star false (Chr CDot); lit "</li>"; Opt (Chr (CLit nl))])).
(** /^\d+\. (.+)$/gm *)
Definition re_ol_item : regex :=
  Cat [Bol; Plus true (Chr CDigit); lit ". "; Group 1 dot_plus; Eol].
(** /^> (.+)$/gm *)
Definition re_quote : regex := Cat [Bol; lit "> "; Group 1 dot_plus; Eol].
(** /(?:^|\n)((?:\|[^\n]+\|\n)+)/g *)
Definition re_table : regex :=
  Cat [Alt Bol (Chr (CLit nl));
       Group 1 (Plus true (Cat [lit "|"; Plus true (Chr (CNoneOf [nl])); lit "|";
                                Chr (CLit nl)]))].
(** /^\|[\s\-:|]+\|$/ *)
Definition separatorPattern : regex :=
  Cat [Bol; lit "|";
       Plus true (Chr (CUnion CSpace (COneOf [ch "-"; ch ":"; ch "|"])));
       lit "|"; Eol].
(** /\n/g *)
Definition re_nl : regex := Chr (CLit nl).

Definition tag (name : string) (body : jsstring) : jsstring :=
  str "<" ++ str name ++ str ">" ++ body ++ str "</" ++ str name ++ str ">".

Definition a_open : jsstring := str "<a href=" ++ [dq].
Definition a_mid : jsstring := [dq] ++ str " style=" ++ [dq] ++ str "color: #0891B2;" ++ [dq] ++ str ">".
Definition hr_html : jsstring := str "<hr style=" ++ [dq] ++ str "border: none; border-top: 2px solid #e2e8f0; margin: 20px 0;" ++ [dq] ++ str ">".
Definition li_open : jsstring := str "<li style=" ++ [dq] ++ str "margin-left: ".
Definition li_mid : jsstring := str "px; margin-bottom: 8px;" ++ [dq] ++ str ">".
Definition ul_open : jsstring := str "<ul style=" ++ [dq] ++ str "list-style-type: disc; padding-left: 20px; margin: 12px 0;" ++ [dq] ++ str ">".
Definition ol_li_open : jsstring := str "<li style=" ++ [dq] ++ str "margin-bottom: 8px;" ++ [dq] ++ str ">".
Definition quote_open : jsstring := str "<blockquote style=" ++ [dq] ++ str "border-left: 4px solid #00D9FF; padding-left: 16px; margin: 16px 0; background: #f0fdfa; padding: 12px 16px;" ++ [dq] ++ str ">".
Definition th_open : jsstring := str "<th style=" ++ [dq] ++ str "border: 1px solid #d1d5db; padding: 12px 16px; background: linear-gradient(135deg, #f8fafc, #f1f5f9); font-weight: 600; text-align: left; color: #0891B2;" ++ [dq] ++ str ">".
Definition td_open : jsstring := str "<td style=" ++ [dq] ++ str "border: 1px solid #e5e7eb; padding: 10px 16px; background: white;" ++ [dq] ++ str ">".
Definition table_open : jsstring :=
  [nl] ++ str "<table style=" ++ [dq] ++ str "border-collapse: collapse; width: 100%; margin: 24px 0; border-radius: 8px; overflow: hidden; box-shadow: 0 1px 3px rgba(0,0,0,0.1);" ++ [dq] ++ str ">" ++ [nl] ++ str "    <thead style=" ++ [dq] ++ str "background: #f8fafc;" ++ [dq] ++ str ">" ++ [nl] ++ str "        <tr>".
Definition table_mid : jsstring :=
  str "</tr>" ++ [nl] ++ str "    </thead>" ++ [nl] ++ str "    <tbody>" ++ [nl] ++ str "        ".
Definition table_close : jsstring :=
  [nl] ++ str "    </tbody>" ++ [nl] ++ str "</table>".
Definition p_open : jsstring := str "<p style=" ++ [dq] ++ str "margin: 12px 0; line-height: 1.7;" ++ [dq] ++ str ">".

(** Array.prototype.filter with the index: (cell, idx, arr) => ... *)
Fixpoint filteri_from {A} (f : A -> nat -> bool) (i : nat) (l : list A) : list A :=
  match l with
  | [] => []
  | x :: tl => if f x i then x :: filteri_from f (S i) tl else filteri_from f (S i) tl
  end.
Definition filteri {A} (f : A -> nat -> list A -> bool) (l : list A) : list A :=
  filteri_from (fun x i => f x i l) 0 l.

(** row.split('|').filter((cell, idx, arr) => idx > 0 && idx < arr.length - 1)
       .map(cell => cell.trim()) *)
Definition row_cells (row : jsstring) : list jsstring :=
  map trim
    (filteri (fun _ idx arr => (0 <? idx) && (Z.of_nat idx <? Z.of_nat (length arr) - 1)%Z)
       (split_char (ch "|") row)).

Definition headerHTML (headerCells : list jsstring) : jsstring :=
  join [] (map (fun cell => th_open ++ cell ++ str "</th>") headerCells).

Definition bodyHTML (bodyRows : list (list jsstring)) : jsstring :=
  join [] (map (fun cells =>
    str "<tr>" ++ join [] (map (fun cell => td_open ++ cell ++ str "</td>") cells)
      ++ str "</tr>") bodyRows).

Definition table_html (headerCells : list jsstring) (bodyRows : list (list jsstring))
    : jsstring :=
  table_open ++ headerHTML headerCells ++ table_mid ++ bodyHTML bodyRows ++ table_close.

(** The callback of the table replacement. *)
Definition table_callback (m : rmatch) : jsstring :=
  let tableContent := group_text m 1 in
  let lines := filter (fun line => nonempty (trim line))
                      (split_char nl (trim tableContent)) in
  if length lines <? 2 then m_text m
  else
    match lines with
    | header :: separator :: body =>
        if negb (re_test no_flags separatorPattern separator) then m_text m
        else table_html (row_cells header) (map row_cells body)
    | _ => m_text m
    end.

(** The callback of the unordered-list replacement. *)
Definition ul_callback (m : rmatch) : jsstring :=
  let indent := group_text m 1 in
  let content := group_text m 2 in
  let level := length indent / 2 in
  let marginLeft := level * 20 in
  li_open ++ number_to_string marginLeft ++ li_mid ++ content ++ str "</li>".

Definition block_level : list string :=
  ["<h"; "<ul"; "<ol"; "<pre"; "<table"; "<blockquote"; "<hr"]%string.

Definition wrap_block (block : jsstring) : jsstring :=
  if nonempty (trim block)
     && forallb (fun t => negb (starts_with (str t) block)) block_level
  then p_open ++ replace_all no_flags re_nl (fun _ => str "<br>") block ++ str "</p>"
  else block.

Definition md_escape (html : jsstring) : jsstring :=
  replace_all no_flags re_amp (fun _ => str "&amp;") html.

Definition md_headers (html : jsstring) : jsstring :=
  let html := replace_all flag_m (re_h "###") (fun m => tag "h3" (group_text m 1)) html in
  let html := replace_all flag_m (re_h "##") (fun m => tag "h2" (group_text m 1)) html in
  replace_all flag_m (re_h "#") (fun m => tag "h1" (group_text m 1)) html.

Definition strong_em (m : rmatch) : jsstring :=
  str "<strong><em>" ++ group_text m 1 ++ str "</em></strong>".

Definition md_emphasis (html : jsstring) : jsstring :=
  let html := replace_all no_flags (re_emph "***") strong_em html in
  let html := replace_all no_flags (re_emph "**") (fun m => tag "strong" (group_text m 1)) html in
  let html := replace_all no_flags (re_emph "*") (fun m => tag "em" (group_text m 1)) html in
  let html := replace_all no_flags (re_emph "___") strong_em html in
  let html := replace_all no_flags (re_emph "__") (fun m => tag "strong" (group_text m 1)) html in
  replace_all no_flags (re_emph "_") (fun m => tag "em" (group_text m 1)) html.

Definition md_code (html : jsstring) : jsstring :=
  let html := replace_all no_flags re_code (fun m => tag "code" (group_text m 1)) html in
  replace_all no_flags re_fence
    (fun m => str "<pre><code>" ++ group_text m 1 ++ str "</code></pre>") html.

Definition md_links (html : jsstring) : jsstring :=
  replace_all no_flags re_link
    (fun m => a_open ++ group_text m 2 ++ a_mid ++ group_text m 1 ++ str "</a>") html.

Definition md_rules (html : jsstring) : jsstring :=
  replace_all flag_m re_hr (fun _ => hr_html) html.

Definition md_lists (html : jsstring) : jsstring :=
  let html := replace_all flag_m re_ul_item ul_callback html in
  let html := replace_all no_flags re_li_run (fun m => ul_open ++ m_text m ++ str "</ul>") html in
  replace_all flag_m re_ol_item (fun m => ol_li_open ++ group_text m 1 ++ str "</li>") html.

Definition md_quotes (html : jsstring) : jsstring :=
  replace_all flag_m re_quote
    (fun m => quote_open ++ group_text m 1 ++ str "</blockquote>") html.

Definition md_tables (html : jsstring) : jsstring :=
  replace_all no_flags re_table table_callback html.

Definition md_paragraphs (html : jsstring) : jsstring :=
  join [nl] (map wrap_block (split_nlnl html)).

Definition markdownToHTML (markdown : jsstring) : jsstring :=
  let html := markdown in
  let html := md_escape html in
  let html := md_headers html in
  let html := md_emphasis html in
  let html := md_code html in
  let html := md_links html in
  let html := md_rules html in
  let html := md_lists html in
  let html := md_quotes html in
  let html := md_tables html in
  md_paragraphs html.

(* ===================================================================== *)
(** ** Citation de-duplication in generateText *)
(* ===================================================================== *)

Record Source := { title : jsstring; uri : jsstring }.

(** === on strings *)
Fixpoint str_eqb (a b : jsstring) : bool :=
  match a, b with
  | [], [] => true
  | x :: a', y :: b' => (x =? y)%N && str_eqb a' b'
  | _, _ => false
  end.

(** Array.prototype.findIndex, -1 when no element passes. *)
Fixpoint findIndex {A} (p : A -> bool) (l : list A) : Z :=
  match l with
  | [] => (-1)%Z
  | x :: tl =>
      if p x then 0%Z
      else let r := findIndex p tl in if (r <? 0)%Z then (-1)%Z else (r + 1)%Z
  end.

(** sources.filter((v, i, a) => a.findIndex(v2 => v2.uri === v.uri) === i) *)
Definition dedupe_sources (sources : list Source) : list Source :=
  filteri (fun v i a =>
             (findIndex (fun v2 => str_eqb (uri v2) (uri v)) a =? Z.of_nat i)%Z)
          sources.

(* ===================================================================== *)
(** ** Incremental reveal: useTypingEffect inside MessageBubble

    The hook's state is [displayedText] and [isComplete]; its effect owns an
    interval whose callback closes over the counter [index].

    The callback passes setDisplayedText an updater, a function that reads
    [index] when it runs.  React runs an updater when it renders the state
    the next time; when nothing is waiting in the queue it may instead run
    it during the call of setDisplayedText and keep the result.  The
    callback adds to [index] right after the call, so an updater that runs
    at the render reads the counter as later ticks have left it.  Which of
    the two happens is React's choice, and so is when it renders: both are
    part of the events below. *)
(* ===================================================================== *)

(** An update of displayedText that waits for the next render: the value
    React computed during the call, or the updater with the chunk size it
    holds; the updater reads [index] when it runs. *)
Inductive update :=
| Computed (value : jsstring)
| Updater (chunkSize : nat).

Record typing := {
  displayedText : jsstring;
  isComplete : bool;
  index : nat;          (* let index, of the running effect *)
  interval : bool;      (* the interval is set and not yet cleared *)
  queue : list update;  (* the updates of displayedText not yet rendered *)
  completing : bool     (* setIsComplete(true) is not yet rendered *)
}.

(** String.prototype.slice(a, b) with 0 <= a <= b. *)
Definition slice2 (a b : nat) (s : jsstring) : jsstring := firstn (b - a) (skipn a s).

(** The body of the effect: what running it does to the hook, once its
    own updates are rendered. *)
Definition typing_effect (text : jsstring) (enabled : bool) : typing :=
  if negb enabled then
    {| displayedText := text; isComplete := true; index := 0; interval := false;
       queue := []; completing := false |}
  else
    {| displayedText := []; isComplete := false; index := 0; interval := true;
       queue := []; completing := false |}.

(** One firing of the interval callback; [eager] tells whether React runs
    the updater during the call, which it can only do on an empty queue. *)
Definition tick (eager : bool) (text : jsstring) (t : typing) : typing :=
  if interval t then
    if index t <? length text then
      let chunkSize := Nat.min 3 (length text - index t) in
      let u :=
        if eager && match queue t with [] => true | _ :: _ => false end
        then Computed (displayedText t ++ slice2 (index t) (index t + chunkSize) text)
        else Updater chunkSize in
      {| displayedText := displayedText t;
         isComplete := isComplete t;
         index := index t + chunkSize;
         interval := true;
         queue := queue t ++ [u];
         completing := completing t |}
    else
      {| displayedText := displayedText t; isComplete := isComplete t;
         index := index t; interval := false;
         queue := queue t; completing := true |}
  else t.

(** prev => prev + text.slice(index, index + chunkSize), run with the
    counter at [index]; a computed value stands as it is. *)
Definition run_update (text : jsstring) (index : nat) (prev : jsstring) (u : update)
    : jsstring :=
  match u with
  | Computed value => value
  | Updater chunkSize => prev ++ slice2 index (index + chunkSize) text
  end.

(** React renders the state: it runs the queue in order. *)
Definition flush (text : jsstring) (t : typing) : typing :=
  {| displayedText := fold_left (run_update text (index t)) (queue t) (displayedText t);
     isComplete := isComplete t || completing t;
     index := index t;
     interval := interval t;
     queue := [];
     completing := false |}.

(** The part of a MessageBubble that drives the reveal: the hook, the
    hasAnimated flag, and the value of [enabled] the effect last ran with. *)
Record bubble := {
  hook : typing;
  hasAnimated : bool;
  dep_enabled : bool
}.

(** !isUser && !hasAnimated && mainContent.length < 3000 *)
Definition enabled_for (isUser hasAnimated : bool) (mainContent : jsstring) : bool :=
  negb isUser && negb hasAnimated && (length mainContent <? 3000).

(** Rendering the component, until the state is stable: the queue is run;
    the second effect sets hasAnimated once isComplete holds for an
    assistant message; the typing effect runs again (its clean-up clears
    the interval) exactly when [enabled] differs from the value it last ran
    with. *)
Definition rerender (isUser : bool) (mainContent : jsstring) (b : bubble) : bubble :=
  let h := flush mainContent (hook b) in
  let ha := hasAnimated b || (isComplete h && negb isUser) in
  let en := enabled_for isUser ha mainContent in
  if Bool.eqb en (dep_enabled b) then
    {| hook := h; hasAnimated := ha; dep_enabled := en |}
  else
    {| hook := typing_effect mainContent en; hasAnimated := ha; dep_enabled := en |}.

(** Mounting the component for a message. *)
Definition mount (isUser : bool) (mainContent : jsstring) : bubble :=
  let en := enabled_for isUser false mainContent in
  rerender isUser mainContent
    {| hook := typing_effect mainContent en; hasAnimated := false; dep_enabled := en |}.

(** The interval fires. *)
Definition on_tick (eager : bool) (mainContent : jsstring) (b : bubble) : bubble :=
  {| hook := tick eager mainContent (hook b); hasAnimated := hasAnimated b;
     dep_enabled := dep_enabled b |}.

(** const contentToShow = hasAnimated ? mainContent : displayedText *)
Definition contentToShow (mainContent : jsstring) (b : bubble) : jsstring :=
  if hasAnimated b then mainContent else displayedText (hook b).

(** What can happen to a mounted bubble: its interval fires, or React
    renders it. *)
Inductive reveal_event := Tick (eager : bool) | Render.

Definition reveal_step (isUser : bool) (mainContent : jsstring) (b : bubble)
    (e : reveal_event) : bubble :=
  match e with
  | Tick eager => on_tick eager mainContent b
  | Render => rerender isUser mainContent b
  end.

Definition reveal_run (isUser : bool) (mainContent : jsstring) (es : list reveal_event)
    : bubble :=
  fold_left (reveal_step isUser mainContent) es (mount isUser mainContent).

(* ===================================================================== *)
(** ** Speech playback: handleToggleSpeech and startPlayback

    The asynchronous handler is cut at its await: [Toggle] runs it up to the
    call of generateSpeech, [SynthResolved] and [SynthRejected] run the rest.
    What the handler does to its collaborators is recorded as actions.

    The state is that of the mounted bubble of a message.  The page keys the
    bubbles by message id and renders the messages its search filter lets
    through, so the bubble of a message is unmounted and mounted again when
    the filter hides the message and shows it again: [Remount].  A call of
    generateSpeech that is awaited at that moment stays with the bubble that
    made it; when it settles, the rest of the handler runs there. *)
(* ===================================================================== *)

Section Speech.

Variable url : Type.

Inductive action :=
| Synthesize (text : jsstring)   (* generateSpeech(mainContent) *)
| NewAudio (u : url)             (* new Audio(url), then audio.play() *)
| Pause                          (* audioRef.current.pause() *)
| Revoke (u : url)               (* URL.revokeObjectURL(audioUrl) *)
| Notify (msg : string).         (* onNotify?.(msg, 'error') *)

Record speech := {
  isSpeaking : bool;
  isPlaying : bool;
  audioUrl : option url;
  audioRef : option url;      (* audioRef.current: the element, by its url *)
  orphaned : nat              (* calls of generateSpeech still awaited by
                                 bubbles of the message that are gone *)
}.

Definition speech_init : speech :=
  {| isSpeaking := false; isPlaying := false; audioUrl := None; audioRef := None;
     orphaned := 0 |}.

Inductive speech_event :=
| Toggle                      (* handleToggleSpeech is called *)
| SynthResolved (u : url)     (* generateSpeech resolves *)
| SynthRejected               (* generateSpeech rejects *)
| PlayResolved                (* audio.play() resolves *)
| PlayRejected                (* audio.play() rejects *)
| Ended                       (* audio.onended *)
| AudioError                  (* audio.onerror *)
| Remount                     (* the bubble is unmounted and mounted again *)
| OrphanResolved (u : url)    (* generateSpeech resolves for a bubble that is gone *)
| OrphanRejected              (* generateSpeech rejects for a bubble that is gone *)
| OrphanAudioFailed.          (* play() rejects or onerror fires on an element of a
                                 bubble that is gone *)

Definition pause_current (s : speech) : list action :=
  match audioRef s with Some _ => [Pause] | None => [] end.

(** startPlayback(url) up to the call of audio.play() *)
Definition startPlayback (u : url) (s : speech) : speech * list action :=
  ({| isSpeaking := isSpeaking s; isPlaying := isPlaying s;
      audioUrl := audioUrl s; audioRef := Some u; orphaned := orphaned s |},
   pause_current s ++ [NewAudio u]).

(** The clean-up of the effect on [audioUrl], as it runs on unmount. *)
Definition unmount_actions (s : speech) : list action :=
  pause_current s ++ match audioUrl s with Some u => [Revoke u] | None => [] end.

Definition speech_step (mainContent : jsstring) (s : speech) (e : speech_event)
    : speech * list action :=
  match e with
  | Toggle =>
      if isSpeaking s then (s, [])
      else if isPlaying s then
        ({| isSpeaking := false; isPlaying := false;
            audioUrl := audioUrl s; audioRef := audioRef s; orphaned := orphaned s |},
         pause_current s)
      else
        match audioUrl s with
        | Some u => startPlayback u s
        | None =>
            ({| isSpeaking := true; isPlaying := isPlaying s;
                audioUrl := None; audioRef := audioRef s; orphaned := orphaned s |},
             [Synthesize mainContent])
        end
  | SynthResolved u =>
      if isSpeaking s then
        (* setAudioUrl(url); startPlayback(url); finally setIsSpeaking(false);
           then the clean-up of the effect on [audioUrl] runs, since audioUrl
           changed: it pauses and drops audioRef.current *)
        let '(s1, acts) := startPlayback u s in
        ({| isSpeaking := false; isPlaying := isPlaying s1;
            audioUrl := Some u; audioRef := None; orphaned := orphaned s |},
         acts ++ [Pause])
      else (s, [])
  | SynthRejected =>
      if isSpeaking s then
        ({| isSpeaking := false; isPlaying := isPlaying s;
            audioUrl := audioUrl s; audioRef := audioRef s; orphaned := orphaned s |},
         [Notify "Failed to generate audio"])
      else (s, [])
  | PlayResolved =>
      ({| isSpeaking := isSpeaking s; isPlaying := true;
          audioUrl := audioUrl s; audioRef := audioRef s; orphaned := orphaned s |}, [])
  | PlayRejected | AudioError =>
      ({| isSpeaking := isSpeaking s; isPlaying := false;
          audioUrl := audioUrl s; audioRef := audioRef s; orphaned := orphaned s |},
       [Notify "Audio playback failed"])
  | Ended =>
      ({| isSpeaking := isSpeaking s; isPlaying := false;
          audioUrl := audioUrl s; audioRef := audioRef s; orphaned := orphaned s |}, [])
  | Remount =>
      ({| isSpeaking := false; isPlaying := false; audioUrl := None; audioRef := None;
          orphaned := orphaned s + (if isSpeaking s then 1 else 0) |},
       unmount_actions s)
  | OrphanResolved u =>
      (* setAudioUrl and setIsSpeaking reach no state; startPlayback(url)
         finds the reference of the old bubble empty and plays *)
      match orphaned s with
      | S n =>
          ({| isSpeaking := isSpeaking s; isPlaying := isPlaying s;
              audioUrl := audioUrl s; audioRef := audioRef s; orphaned := n |},
           [NewAudio u])
      | 0 => (s, [])
      end
  | OrphanRejected =>
      match orphaned s with
      | S n =>
          ({| isSpeaking := isSpeaking s; isPlaying := isPlaying s;
              audioUrl := audioUrl s; audioRef := audioRef s; orphaned := n |},
           [Notify "Failed to generate audio"])
      | 0 => (s, [])
      end
  | OrphanAudioFailed => (s, [Notify "Audio playback failed"])
  end.

Fixpoint speech_run (mainContent : jsstring) (s : speech) (es : list speech_event)
    : speech * list action :=
  match es with
  | [] => (s, [])
  | e :: more =>
      let '(s1, a1) := speech_step mainContent s e in
      let '(s2, a2) := speech_run mainContent s1 more in
      (s2, a1 ++ a2)
  end.

Definition is_synthesize (a : action) : bool :=
  match a with Synthesize _ => true | _ => false end.

(** How many times the collaborator is invoked. *)
Definition synth_calls (acts : list action) : nat := length (filter is_synthesize acts).

End Speech.


(* ===================================================================== *)
(** ** Specification-side definitions used in the statements *)
(* ===================================================================== *)

(** De-duplication as the specification words it: walk the list, remember
    the uris seen so far, and keep a source when its uri is new. *)
Fixpoint first_seen (seen : list jsstring) (l : list Source) : list Source :=
  match l with
  | [] => []
  | x :: tl =>
      if existsb (str_eqb (uri x)) seen then first_seen (seen ++ [uri x]) tl
      else x :: first_seen (seen ++ [uri x]) tl
  end.

(** [subseq a b]: [a] is [b] with some elements left out, order kept. *)
Inductive subseq {A : Type} : list A -> list A -> Prop :=
| subseq_nil : subseq [] []
| subseq_skip x a b : subseq a b -> subseq a (x :: b)
| subseq_take x a b : subseq a b -> subseq (x :: a) (x :: b).

(** Number of occurrences of a code unit. *)
Fixpoint count (c : char) (s : jsstring) : nat :=
  match s with
  | [] => 0
  | x :: tl => (if (x =? c)%N then 1 else 0) + count c tl
  end.








(** Every tick is followed by a render, and React runs every updater during
    the call. *)
Fixpoint eager_schedule (n : nat) : list reveal_event :=
  match n with
  | 0 => []
  | S n' => Tick true :: Render :: eager_schedule n'
  end.

(** Every tick is followed by a render; React runs the first updater during
    the call and every later one at the render. *)
Definition deferred_schedule (n : nat) : list reveal_event :=
  match n with
  | 0 => []
  | S n' => Tick true :: Render :: concat (repeat [Tick false; Render] n')
  end.

(** The failed syntheses of a run: the rejections of generateSpeech that
    arrive while the mounted bubble awaits one. *)
Fixpoint failures {url : Type} (mainContent : jsstring) (s : speech url)
    (es : list (speech_event url)) : nat :=
  match es with
  | [] => 0
  | e :: more =>
      (match e with
       | SynthRejected _ => if isSpeaking s then 1 else 0
       | _ => 0
       end)
      + failures mainContent (fst (speech_step mainContent s e)) more
  end.

Definition is_remount {url : Type} (e : speech_event url) : bool :=
  match e with Remount _ => true | _ => false end.

(** How often the bubble is mounted again. *)
Definition remounts {url : Type} (es : list (speech_event url)) : nat :=
  length (filter is_remount es).

(** A toggle, repeated while the synthesis is awaited, then the handle
    arrives, and the user toggles some more. *)
Definition speech_example : list (speech_event nat) :=
  [Toggle nat; Toggle nat; SynthResolved 7; PlayRejected nat; Toggle nat;
   PlayResolved nat; Toggle nat; Toggle nat].

(** A synthesis that fails, and the toggle after it. *)
Definition speech_retry_example : list (speech_event nat) :=
  [Toggle nat; SynthRejected nat; Toggle nat].

(** A handle is stored, the search filter hides the message and shows it
    again, and the user toggles. *)
Definition speech_remount_example : list (speech_event nat) :=
  [Toggle nat; SynthResolved 7; Remount nat; Toggle nat].

(** While a synthesis is awaited no handle is stored yet. *)
Definition awaiting_ok {url : Type} (s : speech url) : Prop :=
  isSpeaking s = true -> audioUrl s = None.

(** A synthesis call is accounted for: awaited, or its handle stored. *)
Definition holds_call {url : Type} (s : speech url) : nat :=
  if isSpeaking s then 1 else match audioUrl s with Some _ => 1 | None => 0 end.

(** A pattern that does not look at the unit before the current position:
    no ^ and no \b. *)
Fixpoint prev_free (r : regex) : bool :=
  match r with
  | Bol | WordB => false
  | Seq a b | Alt a b => prev_free a && prev_free b
  | Star _ a | Group _ a | Look a => prev_free a
  | Eps | Chr _ | Eol => true
  end.

(** The state [j] units further, captures unchanged. *)
Fixpoint adv (j : nat) (st : mstate) : mstate :=
  match j with
  | 0 => st
  | S j' =>
      match rest st with
      | c :: tl => adv j' {| prev := Some c; rest := tl; caps := caps st |}
      | [] => st
      end
  end.

(** A continuation that fails wherever another one fails. *)
Definition fails_with (k k' : mstate -> option mstate) : Prop :=
  forall s s', rest s = rest s' -> k s = None -> k' s' = None.

(** The longest prefix whose units all satisfy [p]. *)
Fixpoint take_while (p : char -> bool) (s : jsstring) : jsstring :=
  match s with
  | c :: tl => if p c then c :: take_while p tl else []
  | [] => []
  end.

(** Whether [s] starts with the literal [l], as a pattern compares units. *)
Fixpoint lit_prefix (ic : bool) (l s : jsstring) : bool :=
  match l, s with
  | [], _ => true
  | a :: l', c :: s' => eq_char ic a c && lit_prefix ic l' s'
  | _ :: _, [] => false
  end.

(** The answer label inside the bold pattern:
    \*\*(Answer|Final\s*Answer|Response):\*\* *)
Definition answer_label : regex := Cat [lit "**"; Group 2 answer_word; lit ":**"].

(** The pattern matches at some position [i < n] of [s]. *)
Definition occurs_before (fl : flags) (r : regex) (n : nat) (s : jsstring) : bool :=
  existsb (fun i => matches_prefix fl r (skipn i s)) (seq 0 n).

(** No thinking-tag block and no bracket block in the text. *)
Definition no_tag_blocks (text : jsstring) : bool :=
  negb (re_test flag_i re_thinking text) && negb (re_test flag_i re_bracket text).

(** An answer text that the clean-up and the promotion extraction leave
    alone: no answer label at its start, no answer header line, no
    promotional footer. *)
Definition plain_answer (a : jsstring) : bool :=
  negb (re_test flag_i re_clean_bold a)
  && negb (re_test flag_i re_clean_dash a)
  && negb (re_test flag_im re_clean_header a)
  && negb (re_test flag_i re_clean_plain a)
  && forallb (fun p => negb (re_test flag_i p a)) promoPatterns.

(** None of the reasoning patterns of the cascade matches the text. *)
Definition no_reasoning_markers (text : jsstring) : bool :=
  negb (re_test flag_i re_thinking text)
  && negb (re_test flag_i re_bracket text)
  && negb (re_test flag_i re_bold text)
  && negb (re_test flag_im re_plain text)
  && negb (re_test flag_im re_thinking_answer text)
  && negb (re_test flag_i re_dash text)
  && negb (re_test flag_im re_header text).

(** A text with no marker at all: no reasoning pattern, no answer label
    that the clean-up would remove, no promotional footer. *)
Definition unmarked (text : jsstring) : bool :=
  no_reasoning_markers text && plain_answer text.

(** *** What a pattern can match: a relational reading of the matcher *)

(** Zero or more iterations of a step. *)
Inductive star_den (D : mstate -> mstate -> Prop) : mstate -> mstate -> Prop :=
| star_den_done st : star_den D st st
| star_den_more st mid st' : D st mid -> star_den D mid st' -> star_den D st st'.

(** [den fl r st st']: pattern [r] can take the matcher from [st] to [st']. *)
Fixpoint den (fl : flags) (r : regex) (st st' : mstate) : Prop :=
  match r with
  | Eps => st' = st
  | Chr cs =>
      exists c tl, rest st = c :: tl /\ cs_match (ignoreCase fl) cs c = true
                   /\ st' = {| prev := Some c; rest := tl; caps := caps st |}
  | Seq a b => exists mid, den fl a st mid /\ den fl b mid st'
  | Alt a b => den fl a st st' \/ den fl b st st'
  | Star _ a => star_den (den fl a) st st'
  | Group i a =>
      exists mid, den fl a st mid
        /\ st' = set_cap i (firstn (length (rest st) - length (rest mid)) (rest st)) mid
  | Bol => st' = st /\ at_bol fl st = true
  | Eol => st' = st /\ at_eol fl st = true
  | WordB => st' = st /\ xorb (word_before st) (word_after st) = true
  | Look a =>
      exists x, den fl a st x
        /\ st' = {| prev := prev st; rest := rest st; caps := caps x |}
  end.

(** A match the pattern can produce: reading from a state without captures,
    the pattern reads the matched text and leaves the captures of the
    match. *)
Definition good_match (fl : flags) (r : regex) (m : rmatch) : Prop :=
  exists st0 st',
    den fl r st0 st' /\ caps st0 = []
    /\ rest st0 = m_text m ++ m_after m
    /\ m_caps m = caps st' /\ m_after m = rest st'.

(** The indices of the capture groups of a pattern. *)
Fixpoint groups (r : regex) : list nat :=
  match r with
  | Seq a b | Alt a b => groups a ++ groups b
  | Star _ a | Look a => groups a
  | Group i a => i :: groups a
  | Eps | Chr _ | Bol | Eol | WordB => []
  end.

(** An upper bound of the number of units [c] a pattern can read, when
    there is one. *)
Fixpoint maxc (c : char) (ic : bool) (r : regex) : option nat :=
  match r with
  | Eps | Bol | Eol | WordB | Look _ => Some 0
  | Chr cs => Some (if cs_match ic cs c then 1 else 0)
  | Seq a b =>
      match maxc c ic a, maxc c ic b with
      | Some x, Some y => Some (x + y)
      | _, _ => None
      end
  | Alt a b =>
      match maxc c ic a, maxc c ic b with
      | Some x, Some y => Some (Nat.max x y)
      | _, _ => None
      end
  | Star _ a =>
      match maxc c ic a with
      | Some 0 => Some 0
      | _ => None
      end
  | Group _ a => maxc c ic a
  end.

(** The text of capture [i] in a state, empty when absent. *)
Definition cap_text (i : nat) (st : mstate) : jsstring :=
  match lookup_cap i (caps st) with Some v => v | None => [] end.

Fixpoint sum_caps (c : char) (tr : list nat) (st : mstate) : nat :=
  match tr with
  | [] => 0
  | i :: more => count c (cap_text i st) + sum_caps c more st
  end.

(** For a pattern that is a sequence of items: a bound of the units [c]
    read outside the groups to keep ([T]), and the kept groups found.  A
    kept group must stand at the top of the sequence and its index must not
    occur again after it. *)
Fixpoint flat_bound (c : char) (ic : bool) (T : list nat) (items : list regex)
    : option (nat * list nat) :=
  match items with
  | [] => Some (0, [])
  | it :: more =>
      match flat_bound c ic T more with
      | None => None
      | Some (b, tr) =>
          let plain :=
            match maxc c ic it with
            | Some b1 => Some (b1 + b, tr)
            | None => None
            end in
          match it with
          | Group i _ =>
              if existsb (Nat.eqb i) T && negb (existsb (Nat.eqb i) (groups (Cat more)))
              then Some (b, i :: tr)
              else plain
          | _ => plain
          end
      end
  end.

(** The state a match ends in, as far as its captures go. *)
Definition state_of (m : rmatch) : mstate :=
  {| prev := None; rest := m_after m; caps := m_caps m |}.

(** The two angle brackets. *)
Definition lt_char : char := ch "<".
Definition gt_char : char := ch ">".

(** A table row as the table pattern reads it, without its line feed: a
    pipe, units other than the line feed, a pipe. *)
Definition is_row (r : jsstring) : Prop :=
  exists body, r = ch "|" :: body ++ [ch "|"] /\ ~ In nl body.

(** \|[^\n]+\|\n, the row inside the table pattern. *)
Definition table_row : regex :=
  Cat [lit "|"; Plus true (Chr (CNoneOf [nl])); lit "|"; Chr (CLit nl)].

Definition with_nl (r : jsstring) : jsstring := r ++ [nl].

(** The text before and after the first occurrence of a unit. *)
Fixpoint break_at (c : char) (s : jsstring) : option (jsstring * jsstring) :=
  match s with
  | [] => None
  | x :: tl =>
      if (c =? x)%N then Some ([], tl)
      else match break_at c tl with
           | Some (pre, post) => Some (x :: pre, post)
           | None => None
           end
  end.

(** Escaping as the specification words it: every & becomes &amp;. *)
Definition escape_amp (x : char) : jsstring :=
  if (x =? ch "&")%N then str "&amp;" else [x].

(** *** Which characters a pattern needs *)

(** A character that ignore-case matching identifies with no other:
    ASCII, and not a letter. *)
Definition caseless (a : char) : bool :=
  ((a <? 65) || (90 <? a) && (a <? 97) || (122 <? a) && (a <? 128))%N.

(** The atom matches only units of [X] (a sufficient test: literals). *)
Definition cs_in (X : char -> bool) (ic : bool) (cs : cset) : bool :=
  match cs with
  | CLit a => (negb ic || caseless a) && X a
  | _ => false
  end.

(** Every match of the pattern reads a unit of [X]. *)
Fixpoint needs (X : char -> bool) (ic : bool) (r : regex) : bool :=
  match r with
  | Chr cs => cs_in X ic cs
  | Seq a b => needs X ic a || needs X ic b
  | Alt a b => needs X ic a && needs X ic b
  | Group _ a => needs X ic a
  | Eps | Star _ _ | Bol | Eol | WordB | Look _ => false
  end.

(** Every match of the pattern starts by reading a unit of [X]. *)
Fixpoint starts_in (X : char -> bool) (ic : bool) (r : regex) : bool :=
  match r with
  | Chr cs => cs_in X ic cs
  | Seq a _ => starts_in X ic a
  | Alt a b => starts_in X ic a && starts_in X ic b
  | Group _ a => starts_in X ic a
  | Eps | Star _ _ | Bol | Eol | WordB | Look _ => false
  end.

Definition is_char (a : string) (c : char) : bool := (c =? ch a)%N.

(** The characters one of which every answer label and the promotional
    footer hold: the bold labels need *, the plain labels :, the dashed labels
    -, the headers #, the footer ?. *)
Definition answer_marker_char (c : char) : bool :=
  is_char "*" c || is_char ":" c || is_char "-" c || is_char "#" c
  || is_char "?" c.

(** With the two that the tag blocks need, < and [, the characters one of
    which every pattern of the extractor needs. *)
Definition marker_char (c : char) : bool :=
  is_char "<" c || is_char "[" c || answer_marker_char c.

(* ===================================================================== *)
(** ** Concrete inputs used in the examples *)
(* ===================================================================== *)

Definition sources_example : list Source :=
  [ {| title := str "Guide"; uri := str "https://a.example/seo" |};
    {| title := str "Blog"; uri := str "https://b.example/post" |};
    {| title := str "Guide (mirror)"; uri := str "https://a.example/seo" |} ].



(** A well-formed bold pair, alone. *)
Definition bold_R : jsstring := str " Consider search intent. ".
Definition bold_A : jsstring := str " Focus on long-tail keywords.".
Definition bold_text (P R A : jsstring) : jsstring :=
  P ++ str "**Reasoning:**" ++ R ++ str "**Answer:**" ++ A.

(** The same pair after a thinking-tag block. *)
Definition thinking_P : jsstring := str "<thinking>Plan the reply.</thinking>".

(** An answer that itself begins with an answer label, and one that begins
    with two bold ones. *)
Definition labelled_A : jsstring := str " Response: focus on long-tail keywords.".
Definition doubled_A : jsstring := str " **Answer:** **Answer:** Focus on keywords.".

Definition plain_text : jsstring := str "Use schema markup for rich snippets.".

(** Texts without any reasoning marker that begin with an answer label. *)
Definition label_plain : jsstring := str "Answer: Use schema markup.".
Definition label_bold : jsstring := str "**Answer:** Use schema markup.".
Definition label_dash : jsstring := str "--- Answer ---" ++ [nl] ++ str "Use schema markup.".
Definition label_header : jsstring := str "## Answer" ++ [nl] ++ str "Use schema markup.".
Definition label_final : jsstring := str "final answer: Use schema markup.".
Definition label_twice : jsstring := str "Answer: Answer: hello world".
Definition padded_text : jsstring := str "  hello world  ".

(** The end-to-end scenario of the specification: a bold pair followed by
    the promotional footer, led in by the light-bulb emoji. *)
Definition scenario_footer (lead : jsstring) : jsstring :=
  lead ++ str " **Need Professional SEO Help?** consult Rabbit Rank (rabbitrank.com) for success.".
Definition scenario_text (lead : jsstring) : jsstring :=
  str "**Reasoning:** Consider search intent." ++ nlnl
  ++ str "**Answer:** Focus on long-tail keywords." ++ nlnl
  ++ str "---" ++ [nl] ++ scenario_footer lead.

(** A short reply followed by a footer the promotion pattern matches. *)
Definition fallback_text : jsstring :=
  str "OK." ++ nlnl ++ str "---" ++ [nl] ++ scenario_footer promo_lead.

(** A table of a header row, a separator row and one data row. *)
Definition table_rows : jsstring :=
  str "| a | b |" ++ [nl] ++ str "|---|---|" ++ [nl] ++ str "| 1 | 2 |".

(** Raw HTML markup and an ampersand in the text to export. *)
Definition markup_text : jsstring := str "<script>alert(1)</script> & more".

(* ===================================================================== *)
(** ** The WAV container around synthesized speech: pcmToWav (lib/gemini.ts)

    generateSpeech decodes the audio of the response into bytes and wraps
    them with pcmToWav.  An ArrayBuffer is a list of bytes; a write of the
    DataView or of the typed array outside the buffer raises a RangeError,
    here [None]. *)
(* ===================================================================== *)

Definition byte := N.
Definition buffer := list byte.

(** new ArrayBuffer(n): n zero bytes. *)
Definition new_buffer (n : nat) : buffer := repeat 0%N n.

(** Writing a run of bytes at an offset; RangeError when it does not fit. *)
Definition write_bytes (offset : nat) (bs : list byte) (b : buffer) : option buffer :=
  if offset + length bs <=? length b
  then Some (firstn offset b ++ bs ++ skipn (offset + length bs) b)
  else None.

(** The [k] low bytes of a number, least significant first: what a
    little-endian setUintN stores (the number taken modulo 2^(8k)). *)
Fixpoint le_bytes (k : nat) (v : N) : list byte :=
  match k with
  | 0 => []
  | S k' => (v mod 256)%N :: le_bytes k' (v / 256)%N
  end.

(** DataView.prototype.setUint8(offset, v) *)
Definition setUint8 (offset : nat) (v : N) (b : buffer) : option buffer :=
  write_bytes offset (le_bytes 1 v) b.

(** DataView.prototype.setUint16(offset, v, true) *)
Definition setUint16 (offset : nat) (v : N) (b : buffer) : option buffer :=
  write_bytes offset (le_bytes 2 v) b.

(** DataView.prototype.setUint32(offset, v, true) *)
Definition setUint32 (offset : nat) (v : N) (b : buffer) : option buffer :=
  write_bytes offset (le_bytes 4 v) b.

(** The closure writeString of pcmToWav:
    for (i = 0; i < string.length; i++) view.setUint8(offset + i, string.charCodeAt(i)) *)
Fixpoint writeString (offset : nat) (s : jsstring) (b : buffer) : option buffer :=
  match s with
  | [] => Some b
  | c :: tl =>
      match setUint8 offset c b with
      | Some b' => writeString (S offset) tl b'
      | None => None
      end
  end.

Definition then_write (o : option buffer) (f : buffer -> option buffer) : option buffer :=
  match o with Some b => f b | None => None end.

Notation "o >>= f" := (then_write o f) (at level 50, left associativity).

(** pcmToWav(pcmData, sampleRate = 24000); the sample rate is a
    non-negative integer, and the one call of the program passes the
    default. *)
Definition pcmToWav (pcmData : buffer) (sampleRate : N) : option buffer :=
  let byteLength := N.of_nat (length pcmData) in
  Some (new_buffer (44 + length pcmData))
    >>= writeString 0 (str "RIFF")
    >>= setUint32 4 (36 + byteLength)
    >>= writeString 8 (str "WAVE")
    >>= writeString 12 (str "fmt ")
    >>= setUint32 16 16
    >>= setUint16 20 1
    >>= setUint16 22 1
    >>= setUint32 24 sampleRate
    >>= setUint32 28 (sampleRate * 2)
    >>= setUint16 32 2
    >>= setUint16 34 16
    >>= writeString 36 (str "data")
    >>= setUint32 40 byteLength
    >>= write_bytes 44 pcmData.        (* wavView.set(pcmView, 44) *)

Definition default_sampleRate : N := 24000.

(** bytes[i] = binaryString.charCodeAt(i), into a Uint8Array *)
Definition binary_to_bytes (binaryString : jsstring) : buffer :=
  map (fun c => (c mod 256)%N) binaryString.

(* ===================================================================== *)
(** ** The request and the reply of generateText (lib/gemini.ts), with the
    data-source table of types/index.ts and the attachment built by
    handleFileSelect (components/chat/InputComposer.tsx)

    Values are typed as their TypeScript declarations type them: a data
    source is one of the seven members of SEODataSource, a grounding chunk
    has an optional web entry with a title and a uri. *)
(* ===================================================================== *)

Inductive SEODataSource :=
| ahrefs | moz | semrush | sej | kwfinder | googletrends | none.

Definition SEODataSource_eqb (a b : SEODataSource) : bool :=
  match a, b with
  | ahrefs, ahrefs | moz, moz | semrush, semrush | sej, sej
  | kwfinder, kwfinder | googletrends, googletrends | none, none => true
  | _, _ => false
  end.

Module Config.
Record t := {
  id : SEODataSource;
  label : jsstring;
  icon : jsstring;
  siteQuery : jsstring;
  description : jsstring;
  color : jsstring
}.
End Config.

Definition SEO_DATA_SOURCES : list Config.t :=
  [ {| Config.id := ahrefs; Config.label := str "Ahrefs Data";
       Config.icon := str "BarChart3"; Config.siteQuery := str "site:ahrefs.com";
       Config.description := str "Backlink analysis, keyword research";
       Config.color := str "#FF6B35" |};
    {| Config.id := moz; Config.label := str "MOZ Data";
       Config.icon := str "TrendingUp"; Config.siteQuery := str "site:moz.com";
       Config.description := str "Domain authority, SEO guides";
       Config.color := str "#4A90D9" |};
    {| Config.id := semrush; Config.label := str "Semrush Data";
       Config.icon := str "Target"; Config.siteQuery := str "site:semrush.com";
       Config.description := str "Competitive analysis, PPC data";
       Config.color := str "#FF642D" |};
    {| Config.id := sej; Config.label := str "SEJ Data";
       Config.icon := str "Newspaper";
       Config.siteQuery := str "site:searchenginejournal.com";
       Config.description := str "SEO news, algorithm updates";
       Config.color := str "#1A73E8" |};
    {| Config.id := kwfinder; Config.label := str "KW Finder Data";
       Config.icon := str "Search";
       Config.siteQuery := str "site:mangools.com OR site:kwfinder.com";
       Config.description := str "Keyword difficulty, SERP analysis";
       Config.color := str "#00C853" |};
    {| Config.id := googletrends; Config.label := str "Google Trends";
       Config.icon := str "LineChart"; Config.siteQuery := str "site:trends.google.com";
       Config.description := str "Trending topics, search interest";
       Config.color := str "#EA4335" |};
    {| Config.id := none; Config.label := str "No External Data";
       Config.icon := str "X"; Config.siteQuery := [];
       Config.description := str "Use AI knowledge only";
       Config.color := str "#71717A" |} ].

(** SEO_DATA_SOURCES.find(s => s.id === dataSource) *)
Definition find_source (dataSource : SEODataSource) : option Config.t :=
  find (fun s => SEODataSource_eqb (Config.id s) dataSource) SEO_DATA_SOURCES.

Module Attachment.
Record t := {
  name : jsstring;
  type : jsstring;
  data : jsstring;
  mimeType : jsstring;
  isInline : bool
}.
End Attachment.

(** A File as handleFileSelect reads it. *)
Module File.
Record t := { name : jsstring; type : jsstring }.
End File.

(** file.type.startsWith('image/') || file.type === 'application/pdf' *)
Definition inline_type (type : jsstring) : bool :=
  starts_with (str "image/") type || str_eqb type (str "application/pdf").

(** handleFileSelect: [contents] is what the reader it awaits resolves with
    (readFileAsDataURL for an inline type, readFileAsText otherwise), [None]
    when the reader rejects; then no attachment is set. *)
Definition handleFileSelect (file : File.t) (contents : option jsstring)
    : option Attachment.t :=
  match contents with
  | None => None
  | Some result =>
      if inline_type (File.type file) then
        Some {| Attachment.name := File.name file;
                Attachment.type := File.type file;
                Attachment.data := result;
                Attachment.mimeType := File.type file;
                Attachment.isInline := true |}
      else
        Some {| Attachment.name := File.name file;
                Attachment.type :=
                  if nonempty (File.type file) then File.type file
                  else str "text/plain";
                Attachment.data := result;
                Attachment.mimeType := str "text/plain";
                Attachment.isInline := false |}
  end.

(** `\n\n(System Note: Focus your search on ${sourceConfig.label}. Use Google
    Search with query modifier: ${sourceConfig.siteQuery})` *)
Definition system_note (sourceConfig : Config.t) : jsstring :=
  [nl; nl] ++ str "(System Note: Focus your search on " ++ Config.label sourceConfig
  ++ str ". Use Google Search with query modifier: "
  ++ Config.siteQuery sourceConfig ++ str ")".

(** `\n\n--- Attached File Content: ${attachment.name} ---\n${attachment.data}\n
    -----------------------------------\n` *)
Definition attached_file (attachment : Attachment.t) : jsstring :=
  [nl; nl] ++ str "--- Attached File Content: " ++ Attachment.name attachment
  ++ str " ---" ++ [nl] ++ Attachment.data attachment ++ [nl]
  ++ str "-----------------------------------" ++ [nl].

(** The text of the first part of the request. *)
Definition effectivePrompt (prompt : jsstring) (dataSource : SEODataSource)
    (attachment : option Attachment.t) : jsstring :=
  let effectivePrompt := prompt in
  let effectivePrompt :=
    if negb (SEODataSource_eqb dataSource none) then
      match find_source dataSource with
      | Some sourceConfig => effectivePrompt ++ system_note sourceConfig
      | None => effectivePrompt
      end
    else effectivePrompt in
  match attachment with
  | Some a =>
      if negb (Attachment.isInline a) then effectivePrompt ++ attached_file a
      else effectivePrompt
  | None => effectivePrompt
  end.

(** A part of the request: a text, or inline data with its MIME type and
    its base64 data (absent when the split yields no second piece). *)
Inductive part :=
| TextPart (text : jsstring)
| InlinePart (mimeType : jsstring) (data : option jsstring).

(** The parts of the request; base64Data = attachment.data.split(',')[1]. *)
Definition request_parts (prompt : jsstring) (dataSource : SEODataSource)
    (attachment : option Attachment.t) : list part :=
  TextPart (effectivePrompt prompt dataSource attachment)
  :: match attachment with
     | Some a =>
         if Attachment.isInline a then
           [InlinePart (Attachment.mimeType a)
              (nth_error (split_char (ch ",") (Attachment.data a)) 1)]
         else []
     | None => []
     end.

(** payload.tools = [{ google_search: {} }] is set:
    dataSource !== 'none' && !attachment *)
Definition google_search (dataSource : SEODataSource)
    (attachment : option Attachment.t) : bool :=
  negb (SEODataSource_eqb dataSource none)
  && match attachment with Some _ => false | None => true end.

(** The reply of the API, as far as generateText reads it. *)
Module Api.
End Api.

Record GenerateTextResponse := { response_text : jsstring; response_sources : list Source }.

(** A promise that has settled: resolved with a value, or rejected with an
    Error carrying a message. *)
Inductive settled (A : Type) :=
| Resolved (value : A)
| Rejected (message : jsstring).
Arguments Resolved {A} value.
Arguments Rejected {A} message.




(* ===================================================================== *)
(** ** The chat page: app/page.tsx

    The handlers of Home that MessageBubble and InputComposer call, and the
    values Home derives from its message list. *)
(* ===================================================================== *)

Inductive ResponseMode := concise | balanced | deep.

Definition RESPONSE_MODE_GUIDANCE (mode : ResponseMode) : jsstring :=
  match mode with
  | concise =>
      str "Keep the response concise. Prioritize key insights, short bullets, and clear actions."
  | balanced =>
      str "Provide a balanced response with practical steps, brief rationale, and clear prioritization."
  | deep =>
      str "Provide a deep, comprehensive strategy with examples, checklists, and measurable outcomes."
  end.

Inductive Sender := user | ai.

(** type: 'text' | 'image' *)
Inductive MessageType := type_text | type_image.

(** A message, with the fields handleSubmit writes; a stored message may
    lack the optional ones. *)
Module Message.
Record t := {
  id : jsstring;
  type : MessageType;
  sender : Sender;
  text : option jsstring;
  sources : option (list Source);
  timestamp : Z;                      (* the time value of the Date *)
  dataSource : option SEODataSource;
  thinkingMode : option bool;
  responseMode : option ResponseMode;
  model : option jsstring
}.
End Message.

Definition modelLabel : jsstring := str "Gemini 2.5 Flash".

(** buildPrompt *)
Definition buildPrompt (responseMode : ResponseMode) (text : jsstring) : jsstring :=
  let basePrompt :=
    if nonempty (trim text) then trim text
    else str "Analyze the attached content and provide SEO insights, priorities, and next steps." in
  basePrompt ++ [nl; nl] ++ str "[Response Style]" ++ [nl]
  ++ RESPONSE_MODE_GUIDANCE responseMode.

(** The state of Home that its handlers read and write.  [inflight] holds
    the values the running call of handleSubmit closed over: they are the
    ones its continuation writes into the reply. *)
Record home := {
  messages : list Message.t;
  isProcessing : bool;
  pinnedMessageIds : list jsstring;
  searchQuery : jsstring;
  home_dataSource : SEODataSource;
  home_thinkingMode : bool;
  home_responseMode : ResponseMode;
  inflight : option (SEODataSource * bool * ResponseMode)
}.

(** What a handler does to the collaborators of Home. *)
Inductive home_action :=
| CallGenerateText (prompt : jsstring) (dataSource : SEODataSource)
    (attachment : option Attachment.t) (thinkingMode : bool)
| RemoveStored                        (* localStorage.removeItem of both keys *)
| ShowToast (msg : string)
| CloseMobileSidebar                  (* setIsMobileSidebarOpen(false) *)
| RaiseTypeError.                     (* a TypeError leaves the handler: thrown by it, or
                                         as the rejection of the promise of handleSubmit *)

Definition with_messages (h : home) (ms : list Message.t) (processing : bool)
    (fl : option (SEODataSource * bool * ResponseMode)) : home :=
  {| messages := ms; isProcessing := processing;
     pinnedMessageIds := pinnedMessageIds h; searchQuery := searchQuery h;
     home_dataSource := home_dataSource h; home_thinkingMode := home_thinkingMode h;
     home_responseMode := home_responseMode h; inflight := fl |}.

Definition new_message (id : jsstring) (now : Z) (who : Sender) (text : jsstring)
    (sources : option (list Source))
    (settings : SEODataSource * bool * ResponseMode) : Message.t :=
  let '(ds, th, rm) := settings in
  {| Message.id := id; Message.type := type_text; Message.sender := who;
     Message.text := Some text;
     Message.sources := sources; Message.timestamp := now;
     Message.dataSource := Some ds; Message.thinkingMode := Some th;
     Message.responseMode := Some rm; Message.model := Some modelLabel |}.

(** handleSubmit, up to its await: [id] and [now] are what generateId() and
    new Date() return. *)
Definition handleSubmit (text : jsstring) (attachment : option Attachment.t)
    (id : jsstring) (now : Z) (h : home) : home * list home_action :=
  if (negb (nonempty (trim text))
      && match attachment with Some _ => false | None => true end)
     || isProcessing h
  then (h, [])
  else
    let userText :=
      if nonempty text then text
      else match attachment with
           | Some a => str "[Attached File: " ++ Attachment.name a ++ str "]"
           | None => []
           end in
    let promptForModel := buildPrompt (home_responseMode h) text in
    let settings := (home_dataSource h, home_thinkingMode h, home_responseMode h) in
    (with_messages h (messages h ++ [new_message id now user userText None settings])
       true (Some settings),
     [CallGenerateText promptForModel (home_dataSource h) attachment
        (home_thinkingMode h)]).

(** The rest of handleSubmit, once generateText has settled; generateText
    rejects with Error objects, whose message is shown. *)
Definition handleSubmit_settled (result : settled GenerateTextResponse)
    (id : jsstring) (now : Z) (h : home) : home * list home_action :=
  match inflight h with
  | None => (h, [])
  | Some settings =>
      match result with
      | Resolved r =>
          (with_messages h
             (messages h ++ [new_message id now ai (response_text r)
                               (Some (response_sources r)) settings])
             false None, [])
      | Rejected message =>
          (with_messages h
             (messages h ++ [new_message id now ai (str "**Error:** " ++ message)
                               None settings])
             false None,
           [ShowToast "Failed to generate response"])
      end
  end.

(** handleNewChat (and handleClearChat, which calls it). *)
Definition handleNewChat (h : home) : home * list home_action :=
  ({| messages := []; isProcessing := isProcessing h;
      pinnedMessageIds := []; searchQuery := [];
      home_dataSource := home_dataSource h; home_thinkingMode := home_thinkingMode h;
      home_responseMode := home_responseMode h; inflight := inflight h |},
   [RemoveStored; ShowToast "Started a new SEO chat session"; CloseMobileSidebar]).

(** prev.includes(id) *)
Definition includes (id : jsstring) (l : list jsstring) : bool :=
  existsb (str_eqb id) l.

(** The updater of handleTogglePin. *)
Definition togglePin (id : jsstring) (prev : list jsstring) : list jsstring :=
  if includes id prev then filter (fun item => negb (str_eqb item id)) prev
  else id :: prev.

Definition handleTogglePin (id : jsstring) (h : home) : home :=
  {| messages := messages h; isProcessing := isProcessing h;
     pinnedMessageIds := togglePin id (pinnedMessageIds h);
     searchQuery := searchQuery h;
     home_dataSource := home_dataSource h; home_thinkingMode := home_thinkingMode h;
     home_responseMode := home_responseMode h; inflight := inflight h |}.


(** The identifiers of QUICK_ACTIONS (MessageBubble). *)
Definition QUICK_ACTIONS : list jsstring :=
  [str "summarize"; str "checklist"; str "metatags"; str "actionplan"].

(** The own properties of quickActionPrompts, each a builder over the text. *)
Definition quickActionPrompts : list (jsstring * (jsstring -> jsstring)) :=
  [ (str "summarize", fun text =>
       str "Summarize the answer below in 5 executive bullets with clear takeaways."
       ++ [nl; nl] ++ str "Answer:" ++ [nl] ++ text);
    (str "checklist", fun text =>
       str "Turn the answer below into a step-by-step SEO checklist with priorities."
       ++ [nl; nl] ++ str "Answer:" ++ [nl] ++ text);
    (str "metatags", fun text =>
       str "Generate an SEO title (<=60 chars) and meta description (<=160 chars) based on the answer below."
       ++ [nl; nl] ++ str "Answer:" ++ [nl] ++ text);
    (str "actionplan", fun text =>
       str "Create a 30-day SEO action plan with milestones and KPIs based on the answer below."
       ++ [nl; nl] ++ str "Answer:" ++ [nl] ++ text) ].

(** What calling a value as a function on one string gives. *)
Inductive call_result :=
| ReturnsString (s : jsstring)     (* a string, or a String object that holds it *)
| ReturnsFalse
| ThrowsTypeError.

(** The properties an object literal inherits from Object.prototype, each
    with what its value gives when called the way handleQuickAction calls
    a builder: a plain call in module code, so this is undefined, with one
    string.  Object(text) wraps the string; Object.prototype.toString
    answers for undefined; isPrototypeOf answers false for a string before
    it looks at this; the value of __proto__ is an object that cannot be
    called; the others convert this to an object first, which throws. *)
Definition Object_prototype : list (jsstring * (jsstring -> call_result)) :=
  [ (str "constructor", fun text => ReturnsString text);
    (str "toString", fun _ => ReturnsString (str "[object Undefined]"));
    (str "isPrototypeOf", fun _ => ReturnsFalse);
    (str "hasOwnProperty", fun _ => ThrowsTypeError);
    (str "propertyIsEnumerable", fun _ => ThrowsTypeError);
    (str "toLocaleString", fun _ => ThrowsTypeError);
    (str "valueOf", fun _ => ThrowsTypeError);
    (str "__proto__", fun _ => ThrowsTypeError);
    (str "__defineGetter__", fun _ => ThrowsTypeError);
    (str "__defineSetter__", fun _ => ThrowsTypeError);
    (str "__lookupGetter__", fun _ => ThrowsTypeError);
    (str "__lookupSetter__", fun _ => ThrowsTypeError) ].

Fixpoint own_property {A : Type} (key : jsstring) (table : list (jsstring * A))
    : option A :=
  match table with
  | [] => None
  | (k, v) :: tl => if str_eqb k key then Some v else own_property key tl
  end.

(** quickActionPrompts[actionId]: an own property first, then one of the
    prototype; every value found is truthy. *)
Definition get_builder (actionId : jsstring) : option (jsstring -> call_result) :=
  match own_property actionId quickActionPrompts with
  | Some builder => Some (fun text => ReturnsString (builder text))
  | None => own_property actionId Object_prototype
  end.

(** content.length > 4000 ? `${content.slice(0, 4000)}...` : content *)
Definition trimmedContent (content : jsstring) : jsstring :=
  if 4000 <? length content then firstn 4000 content ++ str "..." else content.

(** handleQuickAction: the text it submits, if any. *)
Definition quickActionText (actionId content : jsstring) : option jsstring :=
  match get_builder actionId with
  | Some builder =>
      match builder (trimmedContent content) with
      | ReturnsString text => Some text
      | ReturnsFalse | ThrowsTypeError => None
      end
  | None => None
  end.

(** handleQuickAction.  A builder that throws ends the handler before
    handleSubmit is called; handleSubmit called with false throws at
    text.trim(), its first step, and its promise is dropped. *)
Definition handleQuickAction (actionId content : jsstring) (id : jsstring) (now : Z)
    (h : home) : home * list home_action :=
  match get_builder actionId with
  | Some builder =>
      match builder (trimmedContent content) with
      | ReturnsString text => handleSubmit text None id now h
      | ReturnsFalse | ThrowsTypeError => (h, [RaiseTypeError])
      end
  | None => (h, [])
  end.

(** What can happen to the page. *)
Inductive home_event :=
| Submit (text : jsstring) (attachment : option Attachment.t) (id : jsstring) (now : Z)
| QuickAction (actionId content : jsstring) (id : jsstring) (now : Z)
| Settled (result : settled GenerateTextResponse) (id : jsstring) (now : Z)
| NewChat
| TogglePin (id : jsstring)
| SetDataSource (d : SEODataSource)
| SetThinkingMode (b : bool)
| SetResponseMode (m : ResponseMode).

Definition home_step (h : home) (e : home_event) : home * list home_action :=
  match e with
  | Submit text attachment id now => handleSubmit text attachment id now h
  | QuickAction actionId content id now => handleQuickAction actionId content id now h
  | Settled result id now => handleSubmit_settled result id now h
  | NewChat => handleNewChat h
  | TogglePin id => (handleTogglePin id h, [])
  | SetDataSource d =>
      ({| messages := messages h; isProcessing := isProcessing h;
          pinnedMessageIds := pinnedMessageIds h; searchQuery := searchQuery h;
          home_dataSource := d; home_thinkingMode := home_thinkingMode h;
          home_responseMode := home_responseMode h; inflight := inflight h |}, [])
  | SetThinkingMode b =>
      ({| messages := messages h; isProcessing := isProcessing h;
          pinnedMessageIds := pinnedMessageIds h; searchQuery := searchQuery h;
          home_dataSource := home_dataSource h; home_thinkingMode := b;
          home_responseMode := home_responseMode h; inflight := inflight h |}, [])
  | SetResponseMode m =>
      ({| messages := messages h; isProcessing := isProcessing h;
          pinnedMessageIds := pinnedMessageIds h; searchQuery := searchQuery h;
          home_dataSource := home_dataSource h; home_thinkingMode := home_thinkingMode h;
          home_responseMode := m; inflight := inflight h |}, [])
  end.

Fixpoint home_run (h : home) (es : list home_event) : home * list home_action :=
  match es with
  | [] => (h, [])
  | e :: more =>
      let '(h1, a1) := home_step h e in
      let '(h2, a2) := home_run h1 more in
      (h2, a1 ++ a2)
  end.

(** The page after mounting, with the messages and settings it loaded. *)
Definition home_loaded (ms : list Message.t) (pins : list jsstring)
    (d : SEODataSource) (th : bool) (rm : ResponseMode) : home :=
  {| messages := ms; isProcessing := false; pinnedMessageIds := pins;
     searchQuery := []; home_dataSource := d; home_thinkingMode := th;
     home_responseMode := rm; inflight := None |}.




(** String.prototype.split with a pattern that has no capture group, after
    the steps of RegExp.prototype[Symbol.split]: [cur] is the text between
    the end [p] of the last separator and the position [q] tried now, [s] the
    input from [q] on.  A match at [q] that ends at [p] is skipped. *)
Fixpoint split_loop (fl : flags) (r : regex) (fuel : nat) (pv : option char)
    (cur s : jsstring) : list jsstring :=
  match fuel with
  | 0 => [cur ++ s]
  | S fuel' =>
      match s with
      | [] => [cur]
      | c :: tl =>
          match exec fl r Some {| prev := pv; rest := s; caps := [] |} with
          | None => split_loop fl r fuel' (Some c) (cur ++ [c]) tl
          | Some st' =>
              if (length (rest st') =? length s) && negb (nonempty cur)
              then split_loop fl r fuel' (Some c) (cur ++ [c]) tl
              else
                cur :: split_loop fl r fuel'
                         (last_char pv (firstn (length s - length (rest st')) s))
                         [] (rest st')
          end
      end
  end.

Definition split_re (fl : flags) (r : regex) (s : jsstring) : list jsstring :=
  match s with
  | [] =>
      match exec fl r Some {| prev := None; rest := []; caps := [] |} with
      | Some _ => []
      | None => [[]]
      end
  | _ :: _ => split_loop fl r (S (2 * length s)) None [] s
  end.

(** /\s+/ *)
Definition re_whitespace : regex := Plus true (Chr CSpace).

(** countWords *)
Definition countWords (text : option jsstring) : nat :=
  match text with
  | Some ((_ :: _) as t) =>
      length (filter nonempty (split_re no_flags re_whitespace (trim t)))
  | _ => 0
  end.

(* ===================================================================== *)
(** ** Auxiliary definitions for the properties of the request, the reply,
    the WAV container and the chat page *)
(* ===================================================================== *)

(** The canonical 44-byte header of a mono, 16-bit PCM WAV file. *)
Definition wav_header (dataLength sampleRate : N) : buffer :=
  str "RIFF" ++ le_bytes 4 (36 + dataLength)
  ++ str "WAVE"
  ++ str "fmt " ++ le_bytes 4 16
  ++ le_bytes 2 1 ++ le_bytes 2 1
  ++ le_bytes 4 sampleRate ++ le_bytes 4 (sampleRate * 2)
  ++ le_bytes 2 2 ++ le_bytes 2 16
  ++ str "data" ++ le_bytes 4 dataLength.

(** Reading a little-endian number of [k] bytes at an offset. *)
Definition read_le (offset k : nat) (b : buffer) : N :=
  fold_right (fun x acc => (x + 256 * acc)%N) 0%N (firstn k (skipn offset b)).

Definition tag_at (offset : nat) (t : string) (b : buffer) : bool :=
  str_eqb (firstn 4 (skipn offset b)) (str t).

Record wav_info := {
  channels : N;
  sample_rate : N;
  bits_per_sample : N;
  samples : buffer
}.

(** A reader of PCM WAV files with the 44-byte header: it checks the chunk
    tags, the chunk sizes against the length of the file, the PCM format
    code, and the byte rate and block alignment against the channel count,
    sample rate and sample width. *)
Definition parse_wav (b : buffer) : option wav_info :=
  let ch := read_le 22 2 b in
  let rate := read_le 24 4 b in
  let bits := read_le 34 2 b in
  if tag_at 0 "RIFF" b && tag_at 8 "WAVE" b && tag_at 12 "fmt " b
     && tag_at 36 "data" b
     && (44 <=? length b)
     && (read_le 4 4 b =? N.of_nat (length b - 8))%N
     && (read_le 16 4 b =? 16)%N
     && (read_le 20 2 b =? 1)%N
     && (read_le 32 2 b * 8 =? ch * bits)%N
     && (read_le 28 4 b =? rate * read_le 32 2 b)%N
     && (read_le 40 4 b =? N.of_nat (length b - 44))%N
  then Some {| channels := ch; sample_rate := rate; bits_per_sample := bits;
               samples := skipn 44 b |}
  else None.


Definition comma : char := ch ",".

(** The number of words of a text: of its maximal runs of units that are
    not white space.  [inword] tells whether the unit before was part of a
    word. *)
Fixpoint word_runs_from (inword : bool) (s : jsstring) : nat :=
  match s with
  | [] => 0
  | c :: tl =>
      if is_space c then word_runs_from false tl
      else (if inword then 0 else 1) + word_runs_from true tl
  end.

Definition word_runs (s : jsstring) : nat := word_runs_from false s.

Definition is_user (m : Message.t) : bool :=
  match Message.sender m with user => true | ai => false end.

Definition is_ai (m : Message.t) : bool :=
  match Message.sender m with ai => true | user => false end.

(** The settings a message records. *)
Definition settings_of (m : Message.t) :=
  (Message.dataSource m, Message.thinkingMode m, Message.responseMode m).

(** A list of question and reply pairs: each reply follows its question and
    records the same settings. *)
Inductive paired : list Message.t -> Prop :=
| paired_nil : paired []
| paired_snoc l u a :
    paired l -> is_user u = true -> is_ai a = true ->
    settings_of a = settings_of u -> paired (l ++ [u; a]).

Definition is_call (a : home_action) : bool :=
  match a with CallGenerateText _ _ _ _ => true | _ => false end.

Definition is_new_chat (e : home_event) : bool :=
  match e with NewChat => true | _ => false end.

(** The text starts with a unit that is not white space. *)
Definition head_nonspace (s : jsstring) : bool :=
  match s with c :: _ => negb (is_space c) | [] => false end.

(** The label a quick-action text ends its header with. *)
Definition answer_below : jsstring := [nl; nl] ++ str "Answer:" ++ [nl].

(** The state of a conversation that began with the messages [ms0]: what
    was added since is a list of question and reply pairs, followed, exactly
    while a request is running, by the question that awaits its reply, and
    the running request holds the settings that question records. *)
Definition chat_ok (ms0 : list Message.t) (h : home) : Prop :=
  exists l, paired l /\
    match inflight h with
    | None => isProcessing h = false /\ messages h = ms0 ++ l
    | Some (d, t, r) =>
        isProcessing h = true
        /\ exists u, is_user u = true
             /\ settings_of u = (Some d, Some t, Some r)
             /\ messages h = ms0 ++ l ++ [u]
    end.

(** The questions added to the conversation since [ms0]. *)
Definition questions (ms0 : list Message.t) (h : home) : nat :=
  length (filter is_user (skipn (length ms0) (messages h))).

Definition calls (acts : list home_action) : nat := length (filter is_call acts).



(** A lower bound of the number of units a match of the pattern reads. *)
Fixpoint min_len (r : regex) : nat :=
  match r with
  | Chr _ => 1
  | Seq a b => min_len a + min_len b
  | Alt a b => Nat.min (min_len a) (min_len b)
  | Group _ a => min_len a
  | Eps | Star _ _ | Bol | Eol | WordB | Look _ => 0
  end.

(** What the extractor returns when no pattern matches: the trimmed text,
    or the raw text when fewer than 5 units are left after trimming. *)
Definition trimmed_or_raw (text : jsstring) : jsstring :=
  if length (trim text) <? 5 then text else trim text.

(** The atom matches only units of [X]: literals, lists of literals and
    the digits. *)
Definition cs_within (X : char -> bool) (ic : bool) (cs : cset) : bool :=
  match cs with
  | CLit a => (negb ic || caseless a) && X a
  | COneOf l => forallb (fun a => (negb ic || caseless a) && X a) l
  | CDigit => forallb X [48; 49; 50; 51; 52; 53; 54; 55; 56; 57]%N
  | _ => false
  end.

(** Every match of the pattern reads a unit of [X]. *)
Fixpoint requires (X : char -> bool) (ic : bool) (r : regex) : bool :=
  match r with
  | Chr cs => cs_within X ic cs
  | Seq a b => requires X ic a || requires X ic b
  | Alt a b => requires X ic a && requires X ic b
  | Group _ a => requires X ic a
  | Eps | Star _ _ | Bol | Eol | WordB | Look _ => false
  end.

(** The characters one of which every pass of markdownToHTML before the
    paragraphs needs: & # * _ ` [ - > | < the digits, and the three units
    that stand for the bullet in the list pattern. *)
Definition markdown_char (c : char) : bool :=
  existsb (N.eqb c)
    ([ch "&"; ch "#"; ch "*"; ch "_"; ch "`"; ch "["; ch "-"; ch ">"; ch "|"; ch "<"]
     ++ [48; 49; 50; 51; 52; 53; 54; 55; 56; 57]%N ++ bullet_units).

(** A line feed becomes a line break. *)
Definition br_of (x : char) : jsstring := if (x =? nl)%N then str "<br>" else [x].

(** A block of prose as a paragraph; a blank block stays as it is. *)
Definition paragraph (block : jsstring) : jsstring :=
  if nonempty (trim block) then p_open ++ flat_map br_of block ++ str "</p>" else block.

(** Undoing the escape pass: every &amp; becomes &. *)
Fixpoint unescape_amp (fuel : nat) (s : jsstring) : jsstring :=
  match fuel with
  | 0 => s
  | S fuel' =>
      match s with
      | [] => []
      | c :: tl =>
          if (c =? ch "&")%N && starts_with (str "amp;") tl
          then c :: unescape_amp fuel' (skipn 4 tl)
          else c :: unescape_amp fuel' tl
      end
  end.

Definition thinking_open : jsstring := str "<thinking>".
Definition thinking_close : jsstring := str "</thinking>".

(** A text with one thinking block. *)
Definition thinking_text (pre T post : jsstring) : jsstring :=
  pre ++ thinking_open ++ T ++ thinking_close ++ post.



Definition png_file : File.t :=
  {| File.name := str "chart.png"; File.type := str "image/png" |}.

Definition png_header : jsstring := str "data:image/png;base64".
Definition png_payload : jsstring := str "iVBORw0KGgo=".

Definition pins_example : list jsstring := [str "m1"; str "m2"].

Definition home_example : home :=
  home_loaded [] pins_example none false balanced.



Definition reply_value : GenerateTextResponse :=
  {| response_text := str "Use schema markup."; response_sources := [] |}.

(** A question, a change of data source while it runs, a second question
    that is dropped, and the reply. *)
Definition events_example : list home_event :=
  [ Submit (str "How do I rank?") None (str "m1") 1000%Z;
    SetDataSource moz;
    Submit (str "And now?") None (str "m2") 1200%Z;
    Settled (Resolved reply_value) (str "m3") 2500%Z ].

Definition prose_example : jsstring :=
  str "Use schema markup." ++ [nl] ++ str "Keep titles short." ++ [nl; nl] ++ str "Thanks!".

Definition thinking_pre : jsstring := str "Sure. ".
Definition thinking_T : jsstring := str " The user wants a checklist. ".
Definition thinking_post : jsstring := str " Start with a crawl.".

(** A table with a header, a separator and two body rows; the cells hold
    digits, a dash, a hash and a closing angle bracket. *)
Definition table_header_example : jsstring := str " Keyword | Volume ".
Definition table_separator_example : jsstring := str "---|:--".
Definition table_bodies_example : list jsstring :=
  [str " on-page seo | 1200 "; str " #1 > #2 | 90 "].

(** A text of ten units, for the reveal. *)
Definition reveal_long_example : jsstring := str "abcdefghij".

(* --------------------------------------------------------------------- *)
(** ** Tables in the print export: what the table theorem is stated with *)
(* --------------------------------------------------------------------- *)

(** The unit [p] cannot be the first one a match of the pattern reads. *)
Fixpoint avoids (p : char) (ic : bool) (r : regex) : bool :=
  match r with
  | Chr cs => negb (cs_match ic cs p)
  | Seq a b => avoids p ic a && ((0 <? min_len a) || avoids p ic b)
  | Alt a b => avoids p ic a && avoids p ic b
  | Star _ a | Group _ a => avoids p ic a
  | Eps | Bol | Eol | WordB | Look _ => true
  end.

(** A pattern anchored with ^ whose matches read at least one unit and
    cannot start with [p]. *)
Definition line_pattern (p : char) (ic : bool) (r : regex) : bool :=
  match r with
  | Seq Bol r' => avoids p ic r' && (0 <? min_len r')
  | _ => false
  end.

(** Where ^ can hold under the m flag: at the start of the text and after
    a line terminator. *)
Definition line_start (pv : option char) : bool :=
  match pv with None => true | Some c => is_line_terminator c end.

(** Every line of the text starts with [p]; [pv] is the unit before the
    text. *)
Fixpoint lines_lead (p : char) (pv : option char) (s : jsstring) : bool :=
  match s with
  | [] => true
  | c :: tl => (negb (line_start pv) || (c =? p)%N) && lines_lead p (Some c) tl
  end.

(** The characters one of which every pass of markdownToHTML that is not
    anchored to a line needs: & * _ ` [ < *)
Definition inline_char (c : char) : bool :=
  existsb (N.eqb c) [ch "&"; ch "*"; ch "_"; ch "`"; ch "["; ch "<"].

(** What may stand between the outer pipes of a table row here: anything
    but a line terminator and the characters of [inline_char]. *)
Definition cell_char (c : char) : bool :=
  negb (is_line_terminator c) && negb (inline_char c).

(** The class of the separator test: [\s\-:|] *)
Definition separator_char (c : char) : bool :=
  cs_match false (CUnion CSpace (COneOf [ch "-"; ch ":"; ch "|"])) c.

Definition table_body (b : jsstring) : bool := nonempty b && forallb cell_char b.

(** A row: a pipe, the body, a pipe. *)
Definition row_of (body : jsstring) : jsstring := ch "|" :: body ++ [ch "|"].

(** A table: the header row, the separator row and the body rows, each
    followed by a line feed. *)
Definition table_text (hb sb : jsstring) (bbs : list jsstring) : jsstring :=
  concat (map with_nl (map row_of (hb :: sb :: bbs))).

(** The cells of a row body: the pieces between its pipes, trimmed. *)
Definition cells_of (body : jsstring) : list jsstring :=
  map trim (split_char (ch "|") body).

Definition is_nl (c : char) : bool := (c =? nl)%N.

(** No two line feeds in a row; [p] tells whether a line feed stands just
    before the text. *)
Fixpoint no_blank_from (p : bool) (s : jsstring) : bool :=
  match s with
  | [] => true
  | c :: tl => negb (p && is_nl c) && no_blank_from (is_nl c) tl
  end.

Definition ends_nl (p : bool) (s : jsstring) : bool := fold_left (fun _ c => is_nl c) s p.

(** The match of the table pattern that takes a whole text. *)
Definition whole_match (s : jsstring) : rmatch :=
  {| m_index := 0; m_text := s; m_caps := [(1, s)]; m_after := [] |}.

(** \|\n, the end of the row pattern. *)
Definition row_end : regex := Cat [lit "|"; Chr (CLit nl)].

Definition body_ok (b : jsstring) : Prop :=
  b <> [] /\ forallb (fun c => negb (c =? nl)%N) b = true.

(* --------------------------------------------------------------------- *)
(** ** Markup in the print export: what its theorem is stated with *)
(* --------------------------------------------------------------------- *)

(** The text holds the string [w]. *)
Definition occurs (w s : jsstring) : bool :=
  match indexOf w s with Some _ => true | None => false end.

(** The pattern reads white space only. *)
Fixpoint only_spaces (r : regex) : bool :=
  match r with
  | Eps => true
  | Chr CSpace => true
  | Seq a b => only_spaces a && only_spaces b
  | Star _ a | Group _ a => only_spaces a
  | _ => false
  end.

(** Every match of the pattern starts by reading white space, if any, and
    then a unit of [X]. *)
Fixpoint leads_with (X : char -> bool) (ic : bool) (r : regex) : bool :=
  match r with
  | Chr cs => cs_within X ic cs
  | Seq a b => leads_with X ic a || (only_spaces a && leads_with X ic b)
  | Alt a b => leads_with X ic a && leads_with X ic b
  | Group _ a => leads_with X ic a
  | Eps | Star _ _ | Bol | Eol | WordB | Look _ => false
  end.

(** A pattern anchored with ^ whose matches then read white space, if any,
    and a unit of [X]. *)
Definition line_rule (X : char -> bool) (ic : bool) (r : regex) : bool :=
  match r with
  | Seq Bol r' => leads_with X ic r'
  | _ => false
  end.

(** The first unit of the text after its leading white space is in [X]. *)
Definition first_after_spaces (X : char -> bool) (s : jsstring) : bool :=
  match drop_while is_space s with
  | c :: _ => X c
  | [] => false
  end.

(** Some line of the text starts, after white space, with a unit of [X];
    [pv] is the unit before the text. *)
Fixpoint led_line (X : char -> bool) (pv : option char) (s : jsstring) : bool :=
  (line_start pv && first_after_spaces X s)
  || match s with
     | [] => false
     | c :: tl => led_line X (Some c) tl
     end.

(** The characters that are markdown syntax wherever they stand: & * _ `
    [ and the pipe. *)
Definition inline_syntax_char (c : char) : bool :=
  existsb (N.eqb c) [ch "&"; ch "*"; ch "_"; ch "`"; ch "["; ch "|"].

(** The characters that are markdown syntax at the start of a line: # - >
    the digits, and the three units that stand for the bullet in the list
    pattern (the asterisk is in [inline_syntax_char]). *)
Definition leading_syntax_char (c : char) : bool :=
  existsb (N.eqb c)
    ([ch "#"; ch "-"; ch ">"; ch "*"]
     ++ [48; 49; 50; 51; 52; 53; 54; 55; 56; 57]%N ++ bullet_units).

(** A text without markdown syntax: none of the inline characters, no line
    that starts with a leading one, and no list item element. *)
Definition syntax_free (s : jsstring) : bool :=
  negb (existsb inline_syntax_char s)
  && negb (led_line leading_syntax_char None s)
  && negb (occurs (str "<li") s).

(** What the paragraph pass makes of a text without line feeds. *)
Definition emitted (s : jsstring) : jsstring :=
  if nonempty (trim s) && forallb (fun t => negb (starts_with (str t) s)) block_level
  then p_open ++ s ++ str "</p>"
  else s.

(** A quotation line, and markup with underscores in an attribute. *)
Definition quote_example : jsstring := str "> hi".
Definition image_example : jsstring := str "<img src=my_file_name.png>".

(** Markup that holds digits, a dash and a number sign, none of them at the
    start of a line. *)
Definition markup_example : jsstring :=
  str "<script>alert(1)</script> <b style=color:#0891B2 data-x=1> bold </b>".

(* --------------------------------------------------------------------- *)
(** ** Answer labels: what the clean-up theorem is stated with *)
(* --------------------------------------------------------------------- *)






(* ===================================================================== *)
(** * Properties *)
(* ===================================================================== *)

Unset Implicit Arguments.

(* --------------------------------------------------------------------- *)
(** ** Strings *)
(* --------------------------------------------------------------------- *)

Lemma take_drop_while p s : take_while p s ++ drop_while p s = s.
Proof.
  induction s as [|c s IH]; simpl; [reflexivity|].
  destruct (p c); simpl; [now rewrite IH|reflexivity].
Qed.

Lemma take_while_all p s : forallb p (take_while p s) = true.
Proof.
  induction s as [|c s IH]; simpl; [reflexivity|].
  destruct (p c) eqn:E; simpl; [now rewrite E|reflexivity].
Qed.

Lemma drop_while_head p s :
  match drop_while p s with c :: _ => p c = false | [] => True end.
Proof.
  induction s as [|c s IH]; simpl; [exact I|].
  destruct (p c) eqn:E; [exact IH|exact E].
Qed.

Lemma drop_while_idem p s : drop_while p (drop_while p s) = drop_while p s.
Proof.
  pose proof (drop_while_head p s) as H.
  destruct (drop_while p s) as [|c t]; [reflexivity|]. simpl. now rewrite H.
Qed.

Lemma drop_while_app_stop p l c s :
  p c = false -> drop_while p (l ++ c :: s) = drop_while p l ++ c :: s.
Proof.
  intro H. induction l as [|x l IH]; simpl; [now rewrite H|].
  destruct (p x); [exact IH|reflexivity].
Qed.

Lemma take_while_app_stop p l c s :
  p c = false -> take_while p (l ++ c :: s) = take_while p l.
Proof.
  intro H. induction l as [|x l IH]; simpl; [now rewrite H|].
  destruct (p x); [now rewrite IH|reflexivity].
Qed.

Lemma length_take_while_le p s : length (take_while p s) <= length s.
Proof.
  induction s as [|c s IH]; simpl; [lia|]. destruct (p c); simpl; lia.
Qed.

Lemma trimEnd_cons c t :
  is_space c = false -> trimEnd (c :: t) = c :: rev (drop_while is_space (rev t)).
Proof.
  intro H. unfold trimEnd. simpl.
  rewrite (drop_while_app_stop is_space (rev t) c [] H).
  rewrite rev_app_distr. reflexivity.
Qed.

Lemma trim_head s :
  match trim s with c :: _ => is_space c = false | [] => True end.
Proof.
  unfold trim, trimStart.
  pose proof (drop_while_head is_space s) as H.
  destruct (drop_while is_space s) as [|c t] eqn:E; [exact I|].
  now rewrite (trimEnd_cons c t H).
Qed.

Lemma trimStart_fixed s :
  match s with c :: _ => is_space c = false | [] => True end -> trimStart s = s.
Proof.
  destruct s as [|c t]; [reflexivity|]. intro H. unfold trimStart. simpl. now rewrite H.
Qed.

(** trim is idempotent. *)
Lemma trim_idem s : trim (trim s) = trim s.
Proof.
  unfold trim at 1. rewrite (trimStart_fixed (trim s) (trim_head s)).
  unfold trim, trimEnd. rewrite rev_involutive. now rewrite drop_while_idem.
Qed.

(** Dropping leading white space first does not change what trim returns. *)
Lemma trim_drop_while s : trim (drop_while is_space s) = trim s.
Proof. unfold trim, trimStart. now rewrite drop_while_idem. Qed.

Lemma firstn_length_app {A} (l s : list A) : firstn (length l) (l ++ s) = l.
Proof.
  rewrite firstn_app, Nat.sub_diag, firstn_all. simpl. apply app_nil_r.
Qed.

Lemma skipn_length_app {A} (l s : list A) : skipn (length l) (l ++ s) = s.
Proof.
  rewrite skipn_app, Nat.sub_diag, skipn_all. reflexivity.
Qed.

(* --------------------------------------------------------------------- *)
(** ** The matcher *)
(* --------------------------------------------------------------------- *)

Lemma star_loop_none_mono body body' g :
  (forall k k' st st', rest st = rest st' -> fails_with k k' ->
     body k st = None -> body' k' st' = None) ->
  forall n k k' st st', rest st = rest st' -> fails_with k k' ->
    star_loop body g k n st = None -> star_loop body' g k' n st' = None.
Proof.
  intros Hb. induction n as [|n IH]; intros k k' st st' Hr Hk; simpl.
  - apply Hk. exact Hr.
  - assert (Hin : fails_with
              (fun s1 => if length (rest s1) <? length (rest st)
                         then star_loop body g k n s1 else None)
              (fun s1 => if length (rest s1) <? length (rest st')
                         then star_loop body' g k' n s1 else None)).
    { intros s s' E. rewrite <- Hr, <- E.
      destruct (length (rest s) <? length (rest st)); [|reflexivity].
      now apply IH. }
    destruct g.
    + destruct (body _ st) eqn:E1; [discriminate|]. intro E2.
      rewrite (Hb _ _ _ _ Hr Hin E1). now apply (Hk st st').
    + destruct (k st) eqn:E1; [discriminate|]. intro E2.
      rewrite (Hk st st' Hr E1). now apply (Hb _ _ _ _ Hr Hin).
Qed.

(** Failure does not depend on the captures nor, for a pattern without ^
    and \b, on the unit before the position; and a pattern that fails with
    the continuation that always succeeds fails with every continuation. *)
Lemma exec_none_mono fl r :
  prev_free r = true ->
  forall k k' st st', rest st = rest st' -> fails_with k k' ->
    exec fl r k st = None -> exec fl r k' st' = None.
Proof.
  induction r as [|cs|a IHa b IHb|a IHa b IHb|g a IHa|i a IHa| | | |a IHa];
    cbn [exec prev_free]; intros Hp k k' st st' Hr Hk; try discriminate.
  - now apply Hk.
  - rewrite <- Hr. destruct (rest st) as [|c tl]; [reflexivity|].
    destruct (cs_match (ignoreCase fl) cs c); [|reflexivity].
    now apply Hk.
  - apply andb_true_iff in Hp as [Ha Hb].
    apply (IHa Ha); [exact Hr|]. intros s s' E. now apply (IHb Hb).
  - apply andb_true_iff in Hp as [Ha Hb].
    destruct (exec fl a k st) eqn:E1; [discriminate|]. intro E2.
    rewrite (IHa Ha _ _ _ _ Hr Hk E1). now apply (IHb Hb _ _ _ _ Hr Hk).
  - rewrite <- Hr.
    apply star_loop_none_mono; [|exact Hr|exact Hk].
    intros k1 k1' s s' E Hk1. now apply (IHa Hp).
  - apply (IHa Hp); [exact Hr|]. intros s s' E. rewrite <- Hr, <- E.
    apply Hk. exact E.
  - unfold at_eol. rewrite <- Hr. destruct (rest st) as [|c tl] eqn:E.
    + apply Hk. now rewrite E.
    + destruct (multiline fl && is_line_terminator c); [|reflexivity].
      apply Hk. now rewrite E.
  - destruct (exec fl a Some st) as [x|] eqn:E1.
    + destruct (exec fl a Some st') as [x'|]; [|reflexivity].
      now apply Hk.
    + intros _. rewrite (IHa Hp Some Some st st' Hr); [reflexivity| |exact E1].
      intros s s' _ K. discriminate.
Qed.

Lemma matches_prefix_none fl r k st :
  prev_free r = true -> matches_prefix fl r (rest st) = false ->
  exec fl r k st = None.
Proof.
  unfold matches_prefix. intros Hp H.
  destruct (exec fl r Some {| prev := None; rest := rest st; caps := [] |}) eqn:E;
    [discriminate|].
  apply (exec_none_mono fl r Hp Some k {| prev := None; rest := rest st; caps := [] |} st);
    [reflexivity| |exact E].
  intros s s' _ K. discriminate.
Qed.

Lemma rest_adv j st : rest (adv j st) = skipn j (rest st).
Proof.
  revert st; induction j as [|j IH]; intro st; simpl; [reflexivity|].
  destruct (rest st) as [|c tl] eqn:E; [now rewrite E|]. now rewrite IH.
Qed.

Lemma caps_adv j st : caps (adv j st) = caps st.
Proof.
  revert st; induction j as [|j IH]; intro st; simpl; [reflexivity|].
  destruct (rest st) as [|c tl] eqn:E; [reflexivity|]. now rewrite IH.
Qed.

Lemma exec_Chr fl cs k st :
  exec fl (Chr cs) k st =
  match rest st with
  | c :: tl =>
      if cs_match (ignoreCase fl) cs c
      then k {| prev := Some c; rest := tl; caps := caps st |}
      else None
  | [] => None
  end.
Proof. reflexivity. Qed.

(** A greedy repetition of one character class runs to the end of the
    longest run of the class, when the continuation succeeds there. *)
Lemma star_greedy_run fl cs k x :
  forall n st j,
    length (rest st) < n ->
    forallb (cs_match (ignoreCase fl) cs) (firstn j (rest st)) = true ->
    j <= length (rest st) ->
    match rest (adv j st) with
    | c :: _ => cs_match (ignoreCase fl) cs c = false
    | [] => True
    end ->
    k (adv j st) = Some x ->
    star_loop (exec fl (Chr cs)) true k n st = Some x.
Proof.
  induction n as [|n IH]; intros st j Hn Hall Hj Hstop Hk; [lia|].
  cbn [star_loop]. rewrite exec_Chr. destruct j as [|j].
  - simpl in Hstop, Hk.
    destruct (rest st) as [|c tl] eqn:E; [exact Hk|].
    rewrite Hstop. exact Hk.
  - destruct (rest st) as [|c tl] eqn:E; [simpl in Hj; lia|].
    simpl in Hall. apply andb_true_iff in Hall as [Hc Hall]. rewrite Hc.
    cbn [rest]. replace (length tl <? length (c :: tl)) with true
      by (symmetry; apply Nat.ltb_lt; simpl; lia).
    simpl in Hstop, Hk. rewrite E in Hstop, Hk.
    rewrite (IH {| prev := Some c; rest := tl; caps := caps st |} j); try assumption.
    + reflexivity.
    + simpl in *. lia.
    + simpl in *. lia.
Qed.

(** A lazy repetition of [\s\S] stops at the first position where the
    continuation succeeds. *)
Lemma star_lazy_scan fl k x :
  forall n st j,
    length (rest st) < n ->
    j <= length (rest st) ->
    (forall i, i < j -> k (adv i st) = None) ->
    k (adv j st) = Some x ->
    star_loop (exec fl (Chr CAny)) false k n st = Some x.
Proof.
  induction n as [|n IH]; intros st j Hn Hj Hfail Hk; [lia|].
  cbn [star_loop]. rewrite exec_Chr. destruct j as [|j].
  - simpl in Hk. now rewrite Hk.
  - pose proof (Hfail 0 ltac:(lia)) as H0. simpl in H0. rewrite H0.
    destruct (rest st) as [|c tl] eqn:E; [simpl in Hj; lia|].
    cbn [rest cs_match]. replace (length tl <? length (c :: tl)) with true
      by (symmetry; apply Nat.ltb_lt; simpl; lia).
    apply (IH _ j).
    + simpl in *. lia.
    + simpl in *. lia.
    + intros i Hi. specialize (Hfail (S i)). simpl in Hfail. rewrite E in Hfail.
      apply Hfail. lia.
    + simpl in Hk. now rewrite E in Hk.
Qed.

(** The search passes over the positions at which the pattern cannot
    start. *)
Lemma search_skip fl r :
  prev_free r = true ->
  forall before pv idx s,
    (forall i, i < length before -> matches_prefix fl r (skipn i (before ++ s)) = false) ->
    search fl r pv idx (before ++ s)
    = search fl r (last_char pv before) (idx + length before) s.
Proof.
  intro Hp. induction before as [|c before IH]; intros pv idx s H.
  - simpl. now rewrite Nat.add_0_r.
  - cbn [app search].
    rewrite (matches_prefix_none fl r Some {| prev := pv; rest := c :: before ++ s; caps := [] |} Hp (H 0 ltac:(simpl; lia))).
    rewrite IH.
    + f_equal; [|simpl; lia].
      unfold last_char. simpl. destruct (rev before) as [|y l] eqn:E; simpl.
      * reflexivity.
      * reflexivity.
    + intros i Hi. apply (H (S i)). simpl. lia.
Qed.

Lemma exec_Cat_cons fl a l k st :
  exec fl (Cat (a :: l)) k st = exec fl a (exec fl (Cat l) k) st.
Proof. reflexivity. Qed.

Lemma exec_Cat_nil fl k st : exec fl (Cat []) k st = k st.
Proof. reflexivity. Qed.

Lemma exec_Group fl i a k st :
  exec fl (Group i a) k st
  = exec fl a (fun st' =>
      k (set_cap i (firstn (length (rest st) - length (rest st')) (rest st)) st')) st.
Proof. reflexivity. Qed.

Lemma exec_Alt fl a b k st :
  exec fl (Alt a b) k st
  = match exec fl a k st with Some x => Some x | None => exec fl b k st end.
Proof. reflexivity. Qed.

Lemma exec_Star fl g a k st :
  exec fl (Star g a) k st = star_loop (exec fl a) g k (S (length (rest st))) st.
Proof. reflexivity. Qed.

Lemma adv_S j st c tl :
  rest st = c :: tl ->
  adv (S j) st = adv j {| prev := Some c; rest := tl; caps := caps st |}.
Proof. intro E. simpl. now rewrite E. Qed.


(** A literal that is there is stepped over. *)
Lemma exec_Lit_hit fl l :
  forall k st, lit_prefix (ignoreCase fl) l (rest st) = true ->
    exec fl (Lit l) k st = k (adv (length l) st).
Proof.
  induction l as [|a l IH]; intros k st H; [reflexivity|].
  change (Lit (a :: l)) with (Seq (Chr (CLit a)) (Lit l)).
  cbn [exec]. simpl in H.
  destruct (rest st) as [|c tl] eqn:E; [discriminate|].
  apply andb_true_iff in H as [H1 H2]. cbn [cs_match]. rewrite H1.
  rewrite IH by exact H2. simpl. now rewrite E.
Qed.

Lemma firstn_consumed {A} n (s : list A) :
  n <= length s -> firstn (length s - length (skipn n s)) s = firstn n s.
Proof. intro H. rewrite length_skipn. f_equal. lia. Qed.

Lemma lit_prefix_app ic l l' s :
  lit_prefix ic l l' = true -> lit_prefix ic l (l' ++ s) = true.
Proof.
  revert l'; induction l as [|a l IH]; intros [|c l'] H; simpl in *;
    try reflexivity; try discriminate.
  apply andb_true_iff in H as [H1 H2]. rewrite H1. simpl. now apply IH.
Qed.

(** Stepping over a literal, keeping track only of the input left and of
    the captures. *)
Lemma exec_Lit_step fl l l' s k st :
  rest st = l' ++ s ->
  lit_prefix (ignoreCase fl) l l' = true ->
  length l' = length l ->
  exists st', exec fl (Lit l) k st = k st' /\ rest st' = s /\ caps st' = caps st.
Proof.
  intros Hr Hl Hlen. exists (adv (length l) st). split; [|split].
  - apply exec_Lit_hit. rewrite Hr. now apply lit_prefix_app.
  - rewrite rest_adv, Hr, <- Hlen. apply skipn_length_app.
  - apply caps_adv.
Qed.

Lemma firstn_app_sub {A} (l s : list A) :
  firstn (length (l ++ s) - length s) (l ++ s) = l.
Proof.
  rewrite length_app. replace (length l + length s - length s) with (length l) by lia.
  apply firstn_length_app.
Qed.

Lemma firstn_take_while p s : firstn (length (take_while p s)) s = take_while p s.
Proof.
  rewrite <- (take_drop_while p s) at 2. apply firstn_length_app.
Qed.

Lemma skipn_take_while p s : skipn (length (take_while p s)) s = drop_while p s.
Proof.
  rewrite <- (take_drop_while p s) at 2. apply skipn_length_app.
Qed.

(** \s* skips the white space in front, when the continuation succeeds
    after it. *)
Lemma exec_spaces_skip fl k x st :
  k (adv (length (take_while is_space (rest st))) st) = Some x ->
  exec fl spaces k st = Some x.
Proof.
  intro H. unfold spaces. rewrite exec_Star.
  apply (star_greedy_run fl CSpace _ _ _ st (length (take_while is_space (rest st)))).
  - lia.
  - rewrite firstn_take_while. apply take_while_all.
  - apply length_take_while_le.
  - rewrite rest_adv, skipn_take_while. apply drop_while_head.
  - exact H.
Qed.

Lemma rest_adv_spaces st :
  rest (adv (length (take_while is_space (rest st))) st) = drop_while is_space (rest st).
Proof. rewrite rest_adv. apply skipn_take_while. Qed.

(* --------------------------------------------------------------------- *)
(** ** The iteration bounds of the model are never what stops it *)
(* --------------------------------------------------------------------- *)

Lemma star_loop_ext body g :
  (forall k k' st, (forall s, k s = k' s) -> body k st = body k' st) ->
  forall n k k' st, (forall s, k s = k' s) ->
    star_loop body g k n st = star_loop body g k' n st.
Proof.
  intro Hb. induction n as [|n IH]; intros k k' st Hk; cbn [star_loop]; [apply Hk|].
  rewrite (Hk st).
  rewrite (Hb _ (fun st' => if length (rest st') <? length (rest st)
                            then star_loop body g k' n st' else None) st).
  - reflexivity.
  - intro s. destruct (length (rest s) <? length (rest st)); [now apply IH|reflexivity].
Qed.

(** The matcher uses its continuation only through its values. *)
Lemma exec_ext fl r :
  forall k k' st, (forall s, k s = k' s) -> exec fl r k st = exec fl r k' st.
Proof.
  induction r as [|cs|a IHa b IHb|a IHa b IHb|g a IHa|i a IHa| | | |a IHa];
    intros k k' st Hk; cbn [exec]; try (now rewrite Hk).
  - destruct (rest st) as [|c tl]; [reflexivity|]. now rewrite Hk.
  - apply IHa. intro s. now apply IHb.
  - now rewrite (IHa k k' st Hk), (IHb k k' st Hk).
  - now apply star_loop_ext.
  - apply IHa. intro s. apply Hk.
  - destruct (exec fl a Some st); [apply Hk|reflexivity].
Qed.

(** Any bound larger than the input left gives the same repetition: an
    iteration must consume input, so the bound is never reached. *)
Lemma star_loop_fuel fl a g k :
  forall n m st, length (rest st) < n -> length (rest st) < m ->
    star_loop (exec fl a) g k n st = star_loop (exec fl a) g k m st.
Proof.
  induction n as [|n IH]; intros m st Hn Hm; [lia|].
  destruct m as [|m]; [lia|]. cbn [star_loop].
  rewrite (exec_ext fl a
             (fun st' => if length (rest st') <? length (rest st)
                         then star_loop (exec fl a) g k n st' else None)
             (fun st' => if length (rest st') <? length (rest st)
                         then star_loop (exec fl a) g k m st' else None) st).
  - reflexivity.
  - intro s. destruct (Nat.ltb_spec (length (rest s)) (length (rest st))); [|reflexivity].
    apply IH; lia.
Qed.

Lemma dec_digits_fuel :
  forall f1 f2 n acc, n < f1 -> n < f2 -> dec_digits f1 n acc = dec_digits f2 n acc.
Proof.
  induction f1 as [|f1 IH]; intros f2 n acc H1 H2; [lia|].
  destruct f2 as [|f2]; [lia|]. cbn [dec_digits].
  destruct (Nat.eqb_spec (n / 10) 0) as [|Hq]; [reflexivity|].
  assert (n / 10 < n) by (apply Nat.div_lt; [destruct n; [now elim Hq|lia]|lia]).
  apply IH; lia.
Qed.

(* --------------------------------------------------------------------- *)
(** ** Citation de-duplication *)
(* --------------------------------------------------------------------- *)

Lemma str_eqb_eq (a b : jsstring) : str_eqb a b = true <-> a = b.
Proof.
  revert b; induction a as [|x a IH]; intros [|y b]; simpl; split; intro H;
    try reflexivity; try discriminate.
  - apply andb_true_iff in H as [H1 H2]. apply N.eqb_eq in H1. apply IH in H2.
    now subst.
  - injection H as -> ->. rewrite N.eqb_refl. simpl. now apply IH.
Qed.

Lemma str_eqb_refl (a : jsstring) : str_eqb a a = true.
Proof. now apply str_eqb_eq. Qed.

Lemma str_eqb_sym (a b : jsstring) : str_eqb a b = str_eqb b a.
Proof.
  destruct (str_eqb a b) eqn:E.
  - apply str_eqb_eq in E. subst. symmetry. apply str_eqb_refl.
  - destruct (str_eqb b a) eqn:E2; [|reflexivity].
    apply str_eqb_eq in E2. subst. now rewrite str_eqb_refl in E.
Qed.

Lemma existsb_str_In (u : jsstring) seen :
  existsb (str_eqb u) seen = true <-> In u seen.
Proof.
  rewrite existsb_exists. split.
  - intros (y & Hy & E). apply str_eqb_eq in E. now subst.
  - intro H. exists u. split; [assumption|apply str_eqb_refl].
Qed.

Lemma findIndex_range {A} (p : A -> bool) l :
  findIndex p l = (-1)%Z \/ (0 <= findIndex p l < Z.of_nat (length l))%Z.
Proof.
  induction l as [|x l IH]; simpl; [now left|].
  destruct (p x); [right; lia|].
  destruct IH as [->| IH]; [now left|].
  destruct (findIndex p l <? 0)%Z eqn:E; [apply Z.ltb_lt in E; lia|]. right. lia.
Qed.

Lemma findIndex_app_none {A} (p : A -> bool) pre l :
  existsb p pre = false ->
  findIndex p (pre ++ l) =
    if (findIndex p l <? 0)%Z then (-1)%Z else (Z.of_nat (length pre) + findIndex p l)%Z.
Proof.
  induction pre as [|x pre IH]; cbn [app length existsb findIndex]; intro H.
  - destruct (findIndex_range p l) as [->|B]; [reflexivity|].
    destruct (findIndex p l <? 0)%Z eqn:E; [apply Z.ltb_lt in E; lia|reflexivity].
  - apply orb_false_iff in H as [-> H]. rewrite (IH H).
    destruct (findIndex p l <? 0)%Z eqn:E; [reflexivity|].
    apply Z.ltb_ge in E.
    destruct (Z.of_nat (length pre) + findIndex p l <? 0)%Z eqn:E2;
      [apply Z.ltb_lt in E2; lia|]. rewrite Nat2Z.inj_succ. lia.
Qed.

Lemma findIndex_app_some {A} (p : A -> bool) pre l :
  existsb p pre = true ->
  (0 <= findIndex p (pre ++ l) < Z.of_nat (length pre))%Z.
Proof.
  induction pre as [|x pre IH]; simpl; intro H; [discriminate|].
  destruct (p x); [lia|]. simpl in H. specialize (IH H).
  destruct (findIndex p (pre ++ l) <? 0)%Z eqn:E; [apply Z.ltb_lt in E; lia|lia].
Qed.

Lemma existsb_uri_map v pre :
  existsb (fun v2 => str_eqb (uri v2) (uri v)) pre
  = existsb (str_eqb (uri v)) (map uri pre).
Proof.
  induction pre as [|x pre IH]; simpl; [reflexivity|].
  now rewrite IH, (str_eqb_sym (uri x)).
Qed.

(** The index test of the filter keeps exactly the sources whose uri has not
    occurred before them. *)
Lemma dedupe_first_seen_from pre l :
  filteri_from
    (fun v i => (findIndex (fun v2 => str_eqb (uri v2) (uri v)) (pre ++ l) =? Z.of_nat i)%Z)
    (length pre) l
  = first_seen (map uri pre) l.
Proof.
  revert pre; induction l as [|x l IH]; intro pre; simpl; [reflexivity|].
  specialize (IH (pre ++ [x])).
  rewrite <- app_assoc in IH. simpl in IH. rewrite length_app in IH. simpl in IH.
  rewrite Nat.add_1_r in IH. rewrite map_app in IH. simpl in IH.
  rewrite <- existsb_uri_map.
  destruct (existsb (fun v2 => str_eqb (uri v2) (uri x)) pre) eqn:E.
  - pose proof (findIndex_app_some _ pre (x :: l) E) as B.
    destruct (Z.eqb_spec (findIndex (fun v2 => str_eqb (uri v2) (uri x)) (pre ++ x :: l))
                (Z.of_nat (length pre))) as [e|_]; [lia|].
    now rewrite IH.
  - rewrite (findIndex_app_none _ pre (x :: l) E). simpl. rewrite str_eqb_refl. simpl.
    rewrite Z.add_0_r, Z.eqb_refl. now rewrite IH.
Qed.

Lemma dedupe_sources_first_seen sources :
  dedupe_sources sources = first_seen [] sources.
Proof. exact (dedupe_first_seen_from [] sources). Qed.

Lemma first_seen_fresh seen l s :
  In s (first_seen seen l) -> ~ In (uri s) seen /\ In s l.
Proof.
  revert seen; induction l as [|x l IH]; intros seen H; simpl in *; [contradiction|].
  destruct (existsb (str_eqb (uri x)) seen) eqn:E.
  - apply IH in H as [H1 H2]. split; [|now right].
    intro K. apply H1. apply in_or_app. now left.
  - destruct H as [->|H].
    + split; [|now left]. intro K. apply existsb_str_In in K. congruence.
    + apply IH in H as [H1 H2]. split; [|now right].
      intro K. apply H1. apply in_or_app. now left.
Qed.

Lemma first_seen_NoDup seen l : NoDup (map uri (first_seen seen l)).
Proof.
  revert seen; induction l as [|x l IH]; intro seen; simpl; [constructor|].
  destruct (existsb (str_eqb (uri x)) seen); [apply IH|].
  simpl. constructor; [|apply IH].
  intro K. apply in_map_iff in K as (s & E & K).
  apply first_seen_fresh in K as [K _]. apply K. apply in_or_app. right.
  rewrite E. now left.
Qed.

Lemma first_seen_complete seen l s :
  In s l -> In (uri s) seen \/ In (uri s) (map uri (first_seen seen l)).
Proof.
  revert seen; induction l as [|x l IH]; intros seen H; simpl in *; [contradiction|].
  destruct (existsb (str_eqb (uri x)) seen) eqn:E.
  - destruct H as [->|H]; [left; now apply existsb_str_In|].
    destruct (IH (seen ++ [uri x]) H) as [K|K]; [|now right].
    apply in_app_or in K as [K|[K|[]]]; [now left|].
    left. rewrite <- K. now apply existsb_str_In.
  - destruct H as [->|H]; [right; now left|].
    destruct (IH (seen ++ [uri x]) H) as [K|K]; [|right; now right].
    apply in_app_or in K as [K|[K|[]]]; [now left|]. right. left. exact K.
Qed.

Lemma first_seen_subseq seen l : subseq (first_seen seen l) l.
Proof.
  revert seen; induction l as [|x l IH]; intro seen; simpl; [constructor|].
  destruct (existsb (str_eqb (uri x)) seen); constructor; apply IH.
Qed.

Lemma first_seen_first seen l s :
  In s (first_seen seen l) ->
  find (fun x => str_eqb (uri x) (uri s)) l = Some s.
Proof.
  revert seen; induction l as [|x l IH]; intros seen H; simpl in *; [contradiction|].
  assert (later : In s (first_seen (seen ++ [uri x]) l) ->
                  (if str_eqb (uri x) (uri s) then Some x
                   else find (fun x0 => str_eqb (uri x0) (uri s)) l) = Some s).
  { intro K. destruct (str_eqb (uri x) (uri s)) eqn:E; [|now apply IH in K].
    apply str_eqb_eq in E. apply first_seen_fresh in K as [K _].
    exfalso. apply K. apply in_or_app. right. rewrite E. now left. }
  destruct (existsb (str_eqb (uri x)) seen); [now apply later|].
  destruct H as [->|H]; [now rewrite str_eqb_refl|now apply later].
Qed.

(** C6. The de-duplicated source list of generateText holds each uri at most
    once; every kept source is the first source of the input with its uri
    (so it carries the first occurrence's title); every uri of the input is
    kept; and the kept sources stand in the order of the input.  The filter
    computes exactly the walk that keeps a source when its uri is new. *)
Theorem dedupe_sources_correct (sources : list Source) :
  NoDup (map uri (dedupe_sources sources))
  /\ (forall s, In s (dedupe_sources sources) ->
        find (fun x => str_eqb (uri x) (uri s)) sources = Some s)
  /\ (forall s, In s sources -> In (uri s) (map uri (dedupe_sources sources)))
  /\ subseq (dedupe_sources sources) sources
  /\ dedupe_sources sources = first_seen [] sources.
Proof.
  rewrite dedupe_sources_first_seen. repeat split.
  - apply first_seen_NoDup.
  - intros s H. now apply first_seen_first in H.
  - intros s H. destruct (first_seen_complete [] sources s H) as [[]|K]. exact K.
  - apply first_seen_subseq.
Qed.

Lemma dedupe_sources_correct_witness :
  dedupe_sources sources_example
    = [ {| title := str "Guide"; uri := str "https://a.example/seo" |};
        {| title := str "Blog"; uri := str "https://b.example/post" |} ]
  /\ NoDup (map uri (dedupe_sources sources_example)).
Proof.
  split; [reflexivity|]. exact (proj1 (dedupe_sources_correct sources_example)).
Defined.

(* --------------------------------------------------------------------- *)
(** ** Incremental reveal *)
(* --------------------------------------------------------------------- *)















Section Reveal.

Variable text : jsstring.
Hypothesis text_short : length text < 3000.

Let L := length text.











End Reveal.




(* --------------------------------------------------------------------- *)
(** ** Speech playback *)
(* --------------------------------------------------------------------- *)

Section SpeechProps.

Variable url : Type.
Variable mainContent : jsstring.

Lemma awaiting_ok_init : awaiting_ok (speech_init url).
Proof. intro H. reflexivity. Qed.

Lemma awaiting_ok_step (s : speech url) (e : speech_event url) :
  awaiting_ok s -> awaiting_ok (fst (speech_step mainContent s e)).
Proof.
  unfold awaiting_ok. intro H.
  destruct s as [sp pl au rf n]; simpl in *.
  destruct e; simpl; try (destruct n; simpl; exact H);
    destruct sp; simpl; auto; try discriminate;
    destruct pl; simpl; auto; try discriminate;
    destruct au; simpl; auto; discriminate.
Qed.

Lemma run_cons (s : speech url) (e : speech_event url) es :
  speech_run mainContent s (e :: es)
  = (fst (speech_run mainContent (fst (speech_step mainContent s e)) es),
     snd (speech_step mainContent s e)
     ++ snd (speech_run mainContent (fst (speech_step mainContent s e)) es)).
Proof.
  simpl. destruct (speech_step mainContent s e) as [s1 a1]. simpl.
  now destruct (speech_run mainContent s1 es) as [s2 a2].
Qed.

Lemma awaiting_ok_run (s : speech url) es :
  awaiting_ok s -> awaiting_ok (fst (speech_run mainContent s es)).
Proof.
  revert s; induction es as [|e es IH]; intros s H; [exact H|].
  rewrite run_cons. simpl. apply IH. now apply awaiting_ok_step.
Qed.

(** With a handle stored and no synthesis awaited, a step of the mounted
    bubble keeps both and does not call the synthesizer. *)
Lemma cached_step (s : speech url) u (e : speech_event url) :
  audioUrl s = Some u -> isSpeaking s = false -> is_remount e = false ->
  audioUrl (fst (speech_step mainContent s e)) = Some u
  /\ isSpeaking (fst (speech_step mainContent s e)) = false
  /\ synth_calls (snd (speech_step mainContent s e)) = 0.
Proof.
  destruct s as [sp pl au rf n]; simpl. intros -> -> He.
  destruct e; simpl; try discriminate; try (repeat split; reflexivity);
    try (destruct n; simpl; repeat split; reflexivity);
    destruct pl; simpl; repeat split; try reflexivity;
    unfold synth_calls, pause_current; simpl; destruct rf; reflexivity.
Qed.

Lemma synth_calls_app (a b : list (action url)) :
  synth_calls (a ++ b) = synth_calls a + synth_calls b.
Proof. unfold synth_calls. now rewrite filter_app, length_app. Qed.

Lemma cached_run (s : speech url) u es :
  audioUrl s = Some u -> isSpeaking s = false ->
  forallb (fun e => negb (is_remount e)) es = true ->
  audioUrl (fst (speech_run mainContent s es)) = Some u
  /\ isSpeaking (fst (speech_run mainContent s es)) = false
  /\ synth_calls (snd (speech_run mainContent s es)) = 0.
Proof.
  revert s; induction es as [|e es IH]; intros s Hu Hs Hes; [now repeat split|].
  cbn [forallb] in Hes. apply andb_true_iff in Hes as [He Hes].
  apply negb_true_iff in He.
  rewrite run_cons. cbn [fst snd].
  destruct (cached_step s u e Hu Hs He) as (H1 & H2 & H3).
  destruct (IH _ H1 H2 Hes) as (K1 & K2 & K3).
  rewrite synth_calls_app, H3, K3. now repeat split.
Qed.

(** Every call of the synthesizer is accounted for: it is awaited or its
    handle is stored, or it failed, or its bubble was unmounted. *)
Lemma calls_step (s : speech url) (e : speech_event url) :
  awaiting_ok s ->
  synth_calls (snd (speech_step mainContent s e)) + holds_call s
  <= holds_call (fst (speech_step mainContent s e))
     + failures mainContent s [e] + remounts [e].
Proof.
  unfold awaiting_ok, holds_call, remounts. intro H.
  destruct s as [sp pl au rf n]; simpl in *.
  destruct e; simpl; try (destruct n; simpl; lia);
    destruct sp; simpl; try lia;
    try (rewrite (H eq_refl); simpl; lia);
    destruct pl; simpl; try lia;
    destruct au; simpl; unfold synth_calls, pause_current; simpl;
    destruct rf; simpl; lia.
Qed.

Lemma failures_cons (s : speech url) e es :
  failures mainContent s (e :: es)
  = failures mainContent s [e]
    + failures mainContent (fst (speech_step mainContent s e)) es.
Proof. cbn [failures]. lia. Qed.

Lemma remounts_cons (e : speech_event url) es :
  remounts (e :: es) = remounts [e] + remounts es.
Proof. unfold remounts. cbn [filter]. destruct (is_remount e); cbn [length]; lia. Qed.

Lemma calls_run (s : speech url) es :
  awaiting_ok s ->
  synth_calls (snd (speech_run mainContent s es)) + holds_call s
  <= holds_call (fst (speech_run mainContent s es))
     + failures mainContent s es + remounts es.
Proof.
  revert s; induction es as [|e es IH]; intros s H.
  - cbn. lia.
  - rewrite run_cons. cbn [fst snd]. rewrite synth_calls_app.
    pose proof (calls_step s e H) as A.
    pose proof (IH _ (awaiting_ok_step s e H)) as B.
    rewrite failures_cons, remounts_cons. lia.
Qed.

Lemma holds_call_le (s : speech url) : holds_call s <= 1.
Proof. unfold holds_call. destruct (isSpeaking s); [lia|]. destruct (audioUrl s); lia. Qed.

End SpeechProps.

(** C8 fails as stated, twice.  After a synthesis that failed, the
    next toggle synthesizes again; and a handle that was stored is gone
    once the bubble has been mounted again, so the toggle after that
    synthesizes again too. *)
Lemma speech_synthesized_once_counterexample :
  synth_calls (snd (speech_run (str "Focus on long-tail keywords.") (speech_init nat)
                      speech_retry_example)) = 2
  /\ audioUrl (fst (speech_run (str "Focus on long-tail keywords.") (speech_init nat)
                      (firstn 2 speech_remount_example))) = Some 7
  /\ synth_calls (snd (speech_run (str "Focus on long-tail keywords.") (speech_init nat)
                         speech_remount_example)) = 2
  /\ ~ (forall es : list (speech_event nat),
          synth_calls (snd (speech_run (str "Focus on long-tail keywords.")
                              (speech_init nat) es)) <= 1).
Proof.
  split; [reflexivity|]. split; [reflexivity|]. split; [reflexivity|].
  intro H. specialize (H speech_retry_example). vm_compute in H. lia.
Qed.

(** C8, amended.  In every state the bubble of a message can reach: a
    toggle issued while the synthesis is awaited changes nothing and does
    nothing.  Once a
    handle is stored, a toggle pauses the element when the audio is playing,
    and otherwise pauses the element the bubble still holds, if any, and
    plays a new element for the stored handle; and as long as the bubble
    stays mounted the stored handle stays and generateSpeech is not called
    again, whatever happens.  Over the whole life of the message
    generateSpeech is called at most once, plus once for every synthesis
    that failed and once for every time the bubble was mounted again. *)
Theorem speech_synthesized_once (url : Type) (mainContent : jsstring)
    (before after : list (speech_event url)) :
  let s := fst (speech_run mainContent (speech_init url) before) in
  (isSpeaking s = true -> speech_step mainContent s (Toggle url) = (s, []))
  /\ (forall u, audioUrl s = Some u ->
        speech_step mainContent s (Toggle url)
          = (if isPlaying s
             then ({| isSpeaking := false; isPlaying := false; audioUrl := Some u;
                      audioRef := audioRef s; orphaned := orphaned s |},
                   match audioRef s with Some _ => [Pause url] | None => [] end)
             else ({| isSpeaking := false; isPlaying := false; audioUrl := Some u;
                      audioRef := Some u; orphaned := orphaned s |},
                   match audioRef s with Some _ => [Pause url] | None => [] end
                   ++ [NewAudio u]))
        /\ (forallb (fun e => negb (is_remount e)) after = true ->
            audioUrl (fst (speech_run mainContent s after)) = Some u
            /\ synth_calls (snd (speech_run mainContent s after)) = 0))
  /\ synth_calls (snd (speech_run mainContent (speech_init url) (before ++ after)))
     <= 1 + failures mainContent (speech_init url) (before ++ after)
        + remounts (before ++ after).
Proof.
  intro s.
  assert (G : awaiting_ok s)
    by (apply awaiting_ok_run, awaiting_ok_init).
  split; [|split].
  - intro H. simpl. now rewrite H.
  - intros u Hu.
    assert (Hs : isSpeaking s = false).
    { destruct (isSpeaking s) eqn:E; [|reflexivity]. rewrite (G E) in Hu. discriminate. }
    split.
    + cbn [speech_step]. rewrite Hs, Hu. unfold startPlayback, pause_current.
      rewrite Hs, Hu. destruct (isPlaying s); reflexivity.
    + intro Ha.
      destruct (cached_run url mainContent s u after Hu Hs Ha) as (K1 & _ & K2).
      now split.
  - pose proof (calls_run url mainContent (speech_init url) (before ++ after)
                  (awaiting_ok_init url)) as B.
    pose proof (holds_call_le url
                  (fst (speech_run mainContent (speech_init url) (before ++ after)))) as C.
    cbn [holds_call speech_init isSpeaking audioUrl] in B. lia.
Qed.

Lemma speech_synthesized_once_witness :
  audioUrl (fst (speech_run (str "Focus on long-tail keywords.") (speech_init nat)
                   (firstn 3 speech_example))) = Some 7
  /\ speech_step (str "Focus on long-tail keywords.")
       (fst (speech_run (str "Focus on long-tail keywords.") (speech_init nat)
               (firstn 3 speech_example)))
       (Toggle nat)
     = ({| isSpeaking := false; isPlaying := false; audioUrl := Some 7;
           audioRef := Some 7; orphaned := 0 |}, [NewAudio 7])
  /\ synth_calls (snd (speech_run (str "Focus on long-tail keywords.")
                         (fst (speech_run (str "Focus on long-tail keywords.")
                                 (speech_init nat) (firstn 3 speech_example)))
                         (skipn 3 speech_example))) = 0.
Proof.
  pose proof (speech_synthesized_once nat (str "Focus on long-tail keywords.")
                (firstn 3 speech_example) (skipn 3 speech_example)) as (_ & H & _).
  destruct (H 7 eq_refl) as (T & K).
  split; [reflexivity|]. split; [exact T|].
  exact (proj2 (K eq_refl)).
Defined.

(* --------------------------------------------------------------------- *)
(** ** The bold Reasoning / Answer split *)
(* --------------------------------------------------------------------- *)

Lemma adv_all st :
  rest (adv (length (rest st)) st) = [].
Proof. rewrite rest_adv. apply skipn_all. Qed.

(** ([\s\S]* ) at the end of a pattern takes all that is left. *)
Lemma exec_group_rest fl i st :
  exists x, exec fl (Cat [Group i any_greedy]) Some st = Some x
            /\ rest x = [] /\ caps x = (i, rest st) :: caps st.
Proof.
  rewrite exec_Cat_cons, exec_Group. unfold any_greedy. rewrite exec_Star.
  eexists. split; [|split].
  - apply (star_greedy_run fl CAny _ _ _ st (length (rest st))).
    + lia.
    + rewrite firstn_all. clear. induction (rest st); simpl; auto.
    + lia.
    + now rewrite adv_all.
    + rewrite exec_Cat_nil. reflexivity.
  - simpl. apply adv_all.
  - simpl. rewrite adv_all, caps_adv. simpl. now rewrite Nat.sub_0_r, firstn_all.
Qed.

(** \s*([\s\S]* ) at the end of a pattern: the white space is skipped and
    the group takes the rest. *)
Lemma exec_spaces_group_rest fl i st :
  exists x, exec fl (Cat [spaces; Group i any_greedy]) Some st = Some x
            /\ rest x = [] /\ caps x = (i, drop_while is_space (rest st)) :: caps st.
Proof.
  set (j := length (take_while is_space (rest st))).
  assert (Hj : j <= length (rest st)) by apply length_take_while_le.
  assert (Hr : rest (adv j st) = drop_while is_space (rest st)).
  { rewrite rest_adv. rewrite <- (take_drop_while is_space (rest st)) at 1.
    apply skipn_length_app. }
  destruct (exec_group_rest fl i (adv j st)) as (x & Hx & Hx1 & Hx2).
  exists x. split; [|split; [exact Hx1|]].
  - rewrite exec_Cat_cons. unfold spaces. rewrite exec_Star.
    apply (star_greedy_run fl CSpace _ _ _ st j).
    + lia.
    + rewrite <- (take_drop_while is_space (rest st)) at 1.
      unfold j. rewrite firstn_length_app. apply take_while_all.
    + exact Hj.
    + rewrite Hr. apply drop_while_head.
    + exact Hx.
  - now rewrite Hx2, Hr, caps_adv.
Qed.

Ltac step_lit H :=
  unfold lit at 1;
  match goal with
  | |- context [exec ?fl (Lit ?l) ?k ?st] =>
      let s1 := fresh "s" in
      let E := fresh "E" in
      let R := fresh "R" in
      let C := fresh "C" in
      destruct (exec_Lit_step fl l _ _ k st H eq_refl eq_refl) as (s1 & E & R & C);
      rewrite E; clear E
  end.

(** From the answer label on: the label is read with its first alternative,
    the white space after it is skipped and group 3 takes the rest. *)
Lemma exec_label_on (st : mstate) A :
  rest st = str "**" ++ str "Answer" ++ str ":**" ++ A ->
  exists x,
    exec flag_i (Cat [lit "**"; Group 2 answer_word; lit ":**"; spaces; Group 3 any_greedy])
      Some st = Some x
    /\ rest x = []
    /\ caps x = (3, drop_while is_space A) :: (2, str "Answer") :: caps st.
Proof.
  intro H.
  rewrite exec_Cat_cons. step_lit H.
  rewrite exec_Cat_cons, exec_Group. unfold answer_word. rewrite exec_Alt.
  step_lit R.
  rewrite exec_Cat_cons. unfold lit at 1.
  match goal with
  | |- context [exec _ (Lit ?l) ?k (set_cap ?i ?v ?s1)] =>
      destruct (exec_Lit_step flag_i l (str ":**") A k (set_cap i v s1) R0 eq_refl eq_refl)
        as (s2 & E & R2 & C2)
  end.
  rewrite E. clear E.
  destruct (exec_spaces_group_rest flag_i 3 s2) as (x & Hx & Hx1 & Hx2).
  exists x. rewrite Hx. split; [reflexivity|]. split; [exact Hx1|].
  rewrite Hx2, R2, C2. cbn [set_cap caps]. rewrite C0, C, R, R0.
  now rewrite firstn_app_sub.
Qed.

Lemma exec_after_label_none k st :
  matches_prefix flag_i answer_label (rest st) = false ->
  exec flag_i (Cat [lit "**"; Group 2 answer_word; lit ":**"; spaces; Group 3 any_greedy])
    k st = None.
Proof.
  intro H.
  change (exec flag_i answer_label (exec flag_i (Cat [spaces; Group 3 any_greedy]) k) st = None).
  now apply matches_prefix_none.
Qed.

(** From group 1 on: the lazy group stops at the first answer label. *)
Lemma exec_reasoning_on (st : mstate) R A :
  rest st = R ++ str "**" ++ str "Answer" ++ str ":**" ++ A ->
  (forall j, j < length R ->
     matches_prefix flag_i answer_label (skipn j (rest st)) = false) ->
  exists x,
    exec flag_i (Cat [Group 1 any_lazy; lit "**"; Group 2 answer_word; lit ":**";
                      spaces; Group 3 any_greedy]) Some st = Some x
    /\ rest x = []
    /\ caps x = (3, drop_while is_space A) :: (2, str "Answer") :: (1, R) :: caps st.
Proof.
  intros Hr Hfree.
  assert (Radv : rest (adv (length R) st) = str "**" ++ str "Answer" ++ str ":**" ++ A)
    by (rewrite rest_adv, Hr; apply skipn_length_app).
  set (v := firstn (length (rest st) - length (rest (adv (length R) st))) (rest st)).
  destruct (exec_label_on (set_cap 1 v (adv (length R) st)) A Radv) as (x & Hx & Hx1 & Hx2).
  exists x. split; [|split; [exact Hx1|]].
  - rewrite exec_Cat_cons, exec_Group. unfold any_lazy. rewrite exec_Star.
    apply (star_lazy_scan flag_i _ _ _ st (length R)).
    + lia.
    + rewrite Hr, length_app. lia.
    + intros i Hi. apply exec_after_label_none. cbn [set_cap rest].
      rewrite rest_adv. now apply Hfree.
    + exact Hx.
  - rewrite Hx2. cbn [set_cap caps]. rewrite caps_adv. unfold v.
    rewrite Radv, Hr. now rewrite firstn_app_sub.
Qed.

(** The whole bold pattern at a position where the text reads
    **Reasoning:** R **Answer:** A. *)
Lemma exec_bold_at (st : mstate) R A :
  rest st = str "**Reasoning:**" ++ R ++ str "**" ++ str "Answer" ++ str ":**" ++ A ->
  (forall j, j < length R ->
     matches_prefix flag_i answer_label
       (skipn j (R ++ str "**" ++ str "Answer" ++ str ":**" ++ A)) = false) ->
  exists x,
    exec flag_i re_bold Some st = Some x
    /\ rest x = []
    /\ caps x = [(3, drop_while is_space A); (2, str "Answer");
                 (1, drop_while is_space R)] ++ caps st.
Proof.
  intros Hr Hfree. unfold re_bold.
  rewrite exec_Cat_cons. step_lit Hr.
  set (tail := str "**" ++ str "Answer" ++ str ":**" ++ A) in *.
  set (j := length (take_while is_space R)).
  assert (star : is_space (ch "*") = false) by reflexivity.
  assert (Htw : take_while is_space (R ++ tail) = take_while is_space R)
    by (apply (take_while_app_stop is_space R (ch "*")); exact star).
  assert (Hdw : drop_while is_space (R ++ tail) = drop_while is_space R ++ tail)
    by (apply (drop_while_app_stop is_space R (ch "*")); exact star).
  assert (Rj : rest (adv j s) = drop_while is_space R ++ tail).
  { rewrite rest_adv, R0. rewrite <- Hdw. unfold j. rewrite <- Htw.
    rewrite <- (take_drop_while is_space (R ++ tail)) at 2. apply skipn_length_app. }
  destruct (exec_reasoning_on (adv j s) (drop_while is_space R) A Rj) as (x & Hx & Hx1 & Hx2).
  { intros i Hi. rewrite Rj.
    replace (drop_while is_space R ++ tail) with (skipn j (R ++ tail)).
    - rewrite skipn_skipn. apply Hfree.
      assert (length R = j + length (drop_while is_space R)).
      { unfold j. rewrite <- length_app. now rewrite take_drop_while. }
      lia.
    - rewrite <- Hdw. unfold j. rewrite <- Htw.
      rewrite <- (take_drop_while is_space (R ++ tail)) at 2. apply skipn_length_app. }
  exists x. split; [|split; [exact Hx1|]].
  - rewrite exec_Cat_cons. unfold spaces. rewrite exec_Star.
    apply (star_greedy_run flag_i CSpace _ _ _ s j).
    + lia.
    + rewrite R0. unfold j. rewrite <- Htw.
      rewrite <- (take_drop_while is_space (R ++ tail)) at 2.
      rewrite firstn_length_app. apply take_while_all.
    + rewrite R0. unfold j. rewrite <- Htw. apply length_take_while_le.
    + rewrite Rj. rewrite <- Hdw. apply drop_while_head.
    + exact Hx.
  - rewrite Hx2, caps_adv, C. reflexivity.
Qed.

Lemma occurs_before_false fl r n s :
  occurs_before fl r n s = false ->
  forall i, i < n -> matches_prefix fl r (skipn i s) = false.
Proof.
  unfold occurs_before. intros H i Hi.
  destruct (matches_prefix fl r (skipn i s)) eqn:E; [|reflexivity].
  assert (K : existsb (fun i => matches_prefix fl r (skipn i s)) (seq 0 n) = true).
  { apply existsb_exists. exists i. split; [apply in_seq; lia|exact E]. }
  congruence.
Qed.

Lemma matches_prefix_Cat_head fl a l s :
  prev_free a = true -> matches_prefix fl a s = false ->
  matches_prefix fl (Cat (a :: l)) s = false.
Proof.
  intros Hp H. unfold matches_prefix. rewrite exec_Cat_cons.
  now rewrite (matches_prefix_none fl a _ {| prev := None; rest := s; caps := [] |} Hp H).
Qed.

Lemma re_test_false fl r s : re_test fl r s = false -> re_match fl r s = None.
Proof. unfold re_test. now destruct (re_match fl r s). Qed.

Lemma match_all_none fl r s : re_test fl r s = false -> match_all fl r s = None.
Proof.
  intro H. apply re_test_false in H. unfold re_match in H.
  unfold match_all, all_pieces. cbn [pieces]. now rewrite H.
Qed.

Lemma replace_first_none fl r f s : re_test fl r s = false -> replace_first fl r f s = s.
Proof. intro H. unfold replace_first. now rewrite (re_test_false fl r s H). Qed.

(** The bold pattern finds the first **Reasoning:** label and splits at the
    first answer label after it. *)
Lemma re_match_bold P R A :
  let text := P ++ str "**Reasoning:**" ++ R ++ str "**Answer:**" ++ A in
  occurs_before flag_i (lit "**Reasoning:**") (length P) text = false ->
  occurs_before flag_i answer_label (length R) (R ++ str "**Answer:**" ++ A) = false ->
  exists m, re_match flag_i re_bold text = Some m
            /\ group m 1 = Some (drop_while is_space R)
            /\ group m 3 = Some (drop_while is_space A).
Proof.
  intros text HP HR. unfold re_match, text.
  rewrite (search_skip flag_i re_bold eq_refl).
  2:{ intros i Hi. apply matches_prefix_Cat_head; [reflexivity|].
      now apply (occurs_before_false _ _ _ _ HP). }
  set (s := str "**Reasoning:**" ++ R ++ str "**Answer:**" ++ A).
  destruct (exec_bold_at {| prev := last_char None P; rest := s; caps := [] |} R A eq_refl)
    as (x & Hx & Hx1 & Hx2).
  { exact (occurs_before_false _ _ _ _ HR). }
  destruct s as [|c s'] eqn:Es; [discriminate|]. cbn [search]. rewrite Hx.
  eexists. split; [reflexivity|]. unfold group. cbn [m_caps]. rewrite Hx2.
  split; reflexivity.
Qed.

Lemma starts_with_app p s : starts_with p s = true -> s = p ++ skipn (length p) s.
Proof.
  revert s; induction p as [|a p IH]; intros [|b s] H; simpl in *;
    try reflexivity; try discriminate.
  apply andb_true_iff in H as [H1 H2]. apply N.eqb_eq in H1. subst b.
  now rewrite <- (IH s H2).
Qed.

(** A text that starts with **Answer:** is matched by the first clean-up
    pattern. *)
Lemma clean_bold_hits s :
  starts_with (str "**Answer:**") s = true -> re_test flag_i re_clean_bold s = true.
Proof.
  intro H. apply starts_with_app in H. set (t := skipn (length (str "**Answer:**")) s) in H.
  assert (Hs : s = str "**" ++ str "Answer" ++ str ":**" ++ t) by exact H.
  unfold re_test, re_match.
  assert (E : exists x, exec flag_i re_clean_bold Some {| prev := None; rest := s; caps := [] |} = Some x).
  { unfold re_clean_bold. rewrite exec_Cat_cons. cbn [exec at_bol prev].
    rewrite exec_Cat_cons.
    assert (R0 : rest {| prev := None; rest := s; caps := [] |}
                 = str "**" ++ str "Answer" ++ str ":**" ++ t) by exact Hs.
    step_lit R0.
    rewrite exec_Cat_cons, exec_Group. unfold answer_word. rewrite exec_Alt.
    step_lit R.
    rewrite exec_Cat_cons. unfold lit at 1.
    match goal with
    | |- context [exec _ (Lit ?l) ?k (set_cap ?i ?v ?s1)] =>
        destruct (exec_Lit_step flag_i l (str ":**") t k (set_cap i v s1) R1 eq_refl eq_refl)
          as (s2 & E & R2 & C2)
    end.
    rewrite E. clear E.
    rewrite exec_Cat_cons.
    rewrite (exec_spaces_skip flag_i (exec flag_i (Cat []) Some)
               (adv (length (take_while is_space (rest s2))) s2) s2 eq_refl).
    eexists. reflexivity. }
  destruct E as (x & E). destruct s; cbn [search]; now rewrite E.
Qed.

Lemma length_nonempty (s : jsstring) : 11 <= length s -> nonempty s = true.
Proof. destruct s; simpl; [lia|reflexivity]. Qed.

(** C1, where it fails.  The text holds a well-formed bold pair with both
    sections of 11 units or more, and yet: after a thinking-tag block the
    reasoning returned is not the text between the labels (the block's text
    comes first); an answer that begins with an answer label is returned
    without it; and an answer that begins with two bold labels is returned
    with one of them left. *)
Lemma bold_split_counterexample :
  (11 <= length (trim bold_R) /\ 11 <= length (trim bold_A)
   /\ reasoning (parseMessageContent (bold_text thinking_P bold_R bold_A))
      <> Some (trim bold_R))
  /\ (11 <= length (trim labelled_A)
      /\ mainContent (parseMessageContent (bold_text [] bold_R labelled_A))
         <> trim labelled_A)
  /\ (11 <= length (trim doubled_A)
      /\ starts_with (str "**Answer:**")
           (mainContent (parseMessageContent (bold_text [] bold_R doubled_A))) = true).
Proof.
  repeat split; try (vm_compute; lia); try (vm_compute; reflexivity);
    vm_compute; discriminate.
Qed.

Lemma step_split_found fl r reasoning mainContent :
  truthy reasoning = true ->
  step_split fl r (reasoning, mainContent) = (reasoning, mainContent).
Proof. intro T. unfold step_split. now rewrite T. Qed.

Lemma step_header_found reasoning mainContent :
  truthy reasoning = true ->
  step_header (reasoning, mainContent) = (reasoning, mainContent).
Proof. intro T. unfold step_header. now rewrite T. Qed.

Lemma extract_reasoning_bold P R A :
  let text := bold_text P R A in
  no_tag_blocks text = true ->
  occurs_before flag_i (lit "**Reasoning:**") (length P) text = false ->
  occurs_before flag_i answer_label (length R) (R ++ str "**Answer:**" ++ A) = false ->
  11 <= length (trim R) -> 11 <= length (trim A) ->
  extract_reasoning text = (Some (trim R), trim A).
Proof.
  intros text Htag HP HR LR LA.
  apply andb_true_iff in Htag as [Ht Hb]. apply negb_true_iff in Ht, Hb.
  destruct (re_match_bold P R A HP HR) as (m & Hm & G1 & G3).
  fold (bold_text P R A) in Hm. fold text in Hm.
  unfold extract_reasoning.
  assert (E1 : step_thinking (None, text) = (None, text)).
  { unfold step_thinking. now rewrite (match_all_none _ _ _ Ht). }
  rewrite E1.
  assert (E2 : step_bracket (None, text) = (None, text)).
  { unfold step_bracket. now rewrite (re_test_false _ _ _ Hb). }
  rewrite E2.
  assert (E3 : step_bold (None, text) = (Some (trim R), trim A)).
  { unfold step_bold. rewrite Hm. cbv zeta. rewrite G1, G3. cbn [option_map].
    rewrite !trim_drop_while. unfold substantial.
    rewrite !length_nonempty by assumption.
    replace (10 <? length (trim R)) with true by (symmetry; apply Nat.ltb_lt; lia).
    replace (10 <? length (trim A)) with true by (symmetry; apply Nat.ltb_lt; lia).
    reflexivity. }
  rewrite E3.
  assert (T : truthy (Some (trim R)) = true) by (apply length_nonempty; assumption).
  unfold step_plain, step_thinking_answer, step_dash.
  rewrite !step_split_found by exact T. now apply step_header_found.
Qed.

Lemma cleanup_plain a :
  plain_answer (trim a) = true -> cleanup (trim a) = trim a.
Proof.
  unfold plain_answer. intro H.
  repeat (apply andb_true_iff in H as [H ?]).
  repeat match goal with K : negb _ = true |- _ => apply negb_true_iff in K end.
  unfold cleanup.
  rewrite (replace_first_none flag_i re_clean_bold) by assumption. rewrite trim_idem.
  rewrite (replace_first_none flag_i re_clean_dash) by assumption. rewrite trim_idem.
  rewrite (replace_first_none flag_im re_clean_header) by assumption. rewrite trim_idem.
  rewrite (replace_first_none flag_i re_clean_plain) by assumption. apply trim_idem.
Qed.

Lemma step_promo_none patterns s :
  forallb (fun p => negb (re_test flag_i p s)) patterns = true ->
  step_promo patterns s = (None, s).
Proof.
  induction patterns as [|p l IH]; simpl; [reflexivity|]. intro H.
  apply andb_true_iff in H as [H1 H2]. apply negb_true_iff in H1.
  rewrite (re_test_false _ _ _ H1). now apply IH.
Qed.

(** What the extractor returns on a text P **Reasoning:** R **Answer:** A
    whose first reasoning marker is that label. *)
Lemma parse_bold_text (P R A : jsstring) :
  no_tag_blocks (bold_text P R A) = true ->
  occurs_before flag_i (lit "**Reasoning:**") (length P) (bold_text P R A) = false ->
  occurs_before flag_i answer_label (length R) (R ++ str "**Answer:**" ++ A) = false ->
  11 <= length (trim R) -> 11 <= length (trim A) ->
  plain_answer (trim A) = true ->
  parseMessageContent (bold_text P R A)
    = {| reasoning := Some (trim R); mainContent := trim A; rabbitRankPromo := None |}.
Proof.
  intros Htag HP HR LR LA Hplain.
  unfold parseMessageContent, parseMessageContent_with.
  rewrite (extract_reasoning_bold P R A Htag HP HR LR LA).
  rewrite (cleanup_plain A Hplain).
  assert (Hp : forallb (fun p => negb (re_test flag_i p (trim A))) promoPatterns = true).
  { unfold plain_answer in Hplain. now apply andb_true_iff in Hplain as [_ ?]. }
  rewrite (step_promo_none promoPatterns (trim A) Hp).
  unfold final_validation.
  rewrite (length_nonempty (trim A) LA).
  replace (length (trim A) <? 5) with false by (symmetry; apply Nat.ltb_ge; lia).
  reflexivity.
Qed.

(** C1, amended.  For every text P **Reasoning:** R **Answer:** A that holds
    no thinking-tag block and no bracket block, in which this is the first
    **Reasoning:** label and the first answer label after it, whose two
    sections are 11 units or more once trimmed, and whose trimmed answer
    holds no answer label at its start, no answer header line and no
    promotional footer: the extractor returns the trimmed R as reasoning,
    the trimmed A as mainContent and no promotion, and mainContent does not
    start with **Answer:**. *)
Theorem bold_split_extracted (P R A : jsstring) :
  let text := bold_text P R A in
  no_tag_blocks text = true ->
  occurs_before flag_i (lit "**Reasoning:**") (length P) text = false ->
  occurs_before flag_i answer_label (length R) (R ++ str "**Answer:**" ++ A) = false ->
  11 <= length (trim R) -> 11 <= length (trim A) ->
  plain_answer (trim A) = true ->
  parseMessageContent text
    = {| reasoning := Some (trim R); mainContent := trim A; rabbitRankPromo := None |}
  /\ starts_with (str "**Answer:**") (mainContent (parseMessageContent text)) = false.
Proof.
  intros text Htag HP HR LR LA Hplain. subst text.
  pose proof (parse_bold_text P R A Htag HP HR LR LA Hplain) as E.
  split; [exact E|]. rewrite E. cbn [mainContent].
  destruct (starts_with (str "**Answer:**") (trim A)) eqn:S; [|reflexivity].
  apply clean_bold_hits in S. unfold plain_answer in Hplain.
  rewrite S in Hplain. discriminate.
Qed.

Lemma bold_split_extracted_witness :
  parseMessageContent (bold_text [] bold_R bold_A)
  = {| reasoning := Some (str "Consider search intent.");
       mainContent := str "Focus on long-tail keywords.";
       rabbitRankPromo := None |}.
Proof.
  refine (proj1 (bold_split_extracted [] bold_R bold_A _ _ _ _ _ _)).
  - vm_compute. reflexivity.
  - vm_compute. reflexivity.
  - vm_compute. reflexivity.
  - vm_compute. lia.
  - vm_compute. lia.
  - vm_compute. reflexivity.
Defined.

(* --------------------------------------------------------------------- *)
(** ** Texts without markers, and the clean-up of answer labels *)
(* --------------------------------------------------------------------- *)

Lemma extract_reasoning_none text :
  no_reasoning_markers text = true -> extract_reasoning text = (None, text).
Proof.
  unfold no_reasoning_markers. intro H.
  repeat (apply andb_true_iff in H as [H ?]).
  repeat match goal with K : negb _ = true |- _ => apply negb_true_iff in K end.
  unfold extract_reasoning.
  assert (E1 : step_thinking (None, text) = (None, text)).
  { unfold step_thinking. now rewrite match_all_none. }
  rewrite E1.
  assert (E2 : step_bracket (None, text) = (None, text)).
  { unfold step_bracket. now rewrite re_test_false. }
  rewrite E2.
  assert (E3 : step_bold (None, text) = (None, text)).
  { unfold step_bold. now rewrite re_test_false. }
  rewrite E3.
  assert (E4 : forall fl r, re_test fl r text = false ->
                 step_split fl r (None, text) = (None, text)).
  { intros fl r K. unfold step_split. cbn [truthy negb]. now rewrite re_test_false. }
  unfold step_plain, step_thinking_answer, step_dash.
  rewrite !E4 by assumption.
  unfold step_header. cbn [truthy negb]. now rewrite re_test_false.
Qed.

Lemma final_validation_none text : final_validation text (None, text) = (None, text).
Proof.
  unfold final_validation. cbn [truthy andb].
  now destruct (negb (nonempty text) || (length text <? 5)).
Qed.

(** C2, where it fails.  No reasoning pattern and no promotional pattern
    matches these texts, and yet mainContent is not the raw text: an answer
    label at the start is removed, and so is white space at the ends; and
    extraction is not idempotent: of two answer labels each pass removes
    one. *)
Lemma unmarked_unchanged_counterexample :
  (no_reasoning_markers label_plain = true
   /\ forallb (fun p => negb (re_test flag_i p label_plain)) promoPatterns = true
   /\ mainContent (parseMessageContent label_plain) <> label_plain)
  /\ (no_reasoning_markers padded_text = true
      /\ forallb (fun p => negb (re_test flag_i p padded_text)) promoPatterns = true
      /\ mainContent (parseMessageContent padded_text) <> padded_text)
  /\ mainContent (parseMessageContent (mainContent (parseMessageContent label_twice)))
     <> mainContent (parseMessageContent label_twice).
Proof.
  repeat split; try (vm_compute; reflexivity); vm_compute; discriminate.
Qed.

(** What the extractor returns on a text that no pattern matches and that
    has no white space at either end. *)
Lemma parse_unmarked (text : jsstring) :
  unmarked text = true ->
  trim text = text ->
  parseMessageContent text
    = {| reasoning := None; mainContent := text; rabbitRankPromo := None |}.
Proof.
  intros H Htrim. apply andb_true_iff in H as [Hr Hp].
  unfold parseMessageContent, parseMessageContent_with.
  rewrite (extract_reasoning_none text Hr).
  rewrite <- Htrim in Hp. rewrite <- Htrim at 1.
  rewrite (cleanup_plain text Hp).
  assert (Hq : forallb (fun p => negb (re_test flag_i p (trim text))) promoPatterns = true).
  { unfold plain_answer in Hp. now apply andb_true_iff in Hp as [_ ?]. }
  rewrite (step_promo_none promoPatterns (trim text) Hq).
  rewrite Htrim. now rewrite final_validation_none.
Qed.

(** C2, amended.  For every text in which no reasoning pattern, no answer
    label clean-up pattern and no promotional pattern matches, and which has
    no white space at either end: the extractor returns reasoning absent,
    promotion absent and the raw text as mainContent; on such a text
    extraction is idempotent. *)
Theorem unmarked_unchanged (text : jsstring) :
  unmarked text = true ->
  trim text = text ->
  parseMessageContent text
    = {| reasoning := None; mainContent := text; rabbitRankPromo := None |}
  /\ mainContent (parseMessageContent (mainContent (parseMessageContent text)))
     = mainContent (parseMessageContent text).
Proof.
  intros H Htrim. pose proof (parse_unmarked text H Htrim) as E.
  split; [exact E|]. rewrite E. cbn [mainContent]. now rewrite E.
Qed.

Lemma unmarked_unchanged_witness :
  parseMessageContent plain_text
  = {| reasoning := None; mainContent := plain_text; rabbitRankPromo := None |}.
Proof.
  refine (proj1 (unmarked_unchanged plain_text _ _)).
  - vm_compute. reflexivity.
  - vm_compute. reflexivity.
Defined.

(* --------------------------------------------------------------------- *)
(** ** The fallback validation and the promotional footer *)
(* --------------------------------------------------------------------- *)

(** What the final validation does when it fires: the raw text comes back
    as mainContent and the reasoning is dropped. *)
Lemma final_validation_resets (text : jsstring) (r : option jsstring) (m : jsstring) :
  (nonempty m = false \/ length m < 5) ->
  (r = None \/ exists r' : jsstring, r = Some r' /\ length r' <= 20) ->
  final_validation text (r, m) = (None, text).
Proof.
  intros Hm Hr. unfold final_validation.
  assert (E : negb (nonempty m) || (length m <? 5) = true).
  { destruct Hm as [->|H]; [reflexivity|].
    apply orb_true_iff. right. now apply Nat.ltb_lt. }
  rewrite E.
  destruct Hr as [->|(r' & -> & H)]; [reflexivity|].
  replace (20 <? length r') with false by (symmetry; apply Nat.ltb_ge; lia).
  now rewrite andb_false_r.
Qed.

(** Totality: the extractor returns a result on every text, and when the
    validation fires mainContent is the raw text and reasoning is absent. *)
Lemma fallback_returns_raw text :
  let '(r, m0) := extract_reasoning text in
  let '(promo, m) := step_promo promoPatterns (cleanup m0) in
  (nonempty m = false \/ length m < 5) ->
  (r = None \/ exists r' : jsstring, r = Some r' /\ length r' <= 20) ->
  parseMessageContent text
  = {| reasoning := None; mainContent := text; rabbitRankPromo := promo |}.
Proof.
  unfold parseMessageContent, parseMessageContent_with.
  destruct (extract_reasoning text) as [r m0].
  destruct (step_promo promoPatterns (cleanup m0)) as [promo m].
  cbv beta iota. intros Hm Hr.
  rewrite (final_validation_resets text r m Hm Hr). reflexivity.
Qed.

(** C3 at its failing input: a three-unit reply followed by a footer.  The
    footer is extracted, what is left is shorter than 5 units and there is
    no reasoning, so the validation fires: mainContent is the raw text again
    and reasoning is absent, but the extracted promotion is still returned,
    although its text is part of mainContent. *)
Theorem fallback_keeps_promotion :
  reasoning (parseMessageContent fallback_text) = None
  /\ mainContent (parseMessageContent fallback_text) = fallback_text
  /\ rabbitRankPromo (parseMessageContent fallback_text) = Some (scenario_footer promo_lead)
  /\ indexOf (scenario_footer promo_lead) fallback_text = Some 9.
Proof. repeat split; vm_compute; reflexivity. Qed.

(** C4 at its failing input, the end-to-end scenario of the specification:
    the footer starts with the light-bulb emoji, the pattern of this file
    spells its lead-in with four other code units, so no promotion is found
    and the footer stays in mainContent.  With the emoji as lead-in the same
    patterns return the three parts. *)
Theorem scenario_promotion_missed :
  parseMessageContent (scenario_text bulb_emoji)
  = {| reasoning := Some (str "Consider search intent.");
       mainContent := str "Focus on long-tail keywords." ++ nlnl ++ str "---" ++ [nl]
                        ++ scenario_footer bulb_emoji;
       rabbitRankPromo := None |}
  /\ parseMessageContent_with (promoPatterns_with bulb_emoji) (scenario_text bulb_emoji)
     = {| reasoning := Some (str "Consider search intent.");
          mainContent := str "Focus on long-tail keywords.";
          rabbitRankPromo := Some (scenario_footer bulb_emoji) |}
  /\ promo_lead <> bulb_emoji.
Proof. repeat split; try (vm_compute; reflexivity). discriminate. Qed.

(* --------------------------------------------------------------------- *)
(** ** Tables in the print transform *)
(* --------------------------------------------------------------------- *)

(** C7 at its failing input: header row, separator row and data row, with
    no line feed after the data row.  The table pattern takes only the two
    rows that end in a line feed: the table has its header row and an empty
    body, and the data row is left as text behind the table.  With a line
    feed after the data row the body holds the row. *)
Theorem table_last_row_lost :
  markdownToHTML table_rows
  = wrap_block (table_html [str "a"; str "b"] [] ++ str "| 1 | 2 |")
  /\ markdownToHTML (table_rows ++ [nl])
     = wrap_block (table_html [str "a"; str "b"] [[str "1"; str "2"]])
  /\ bodyHTML [] = [].
Proof. repeat split; vm_compute; reflexivity. Qed.

(* --------------------------------------------------------------------- *)
(** ** The matcher only returns what the pattern can match *)
(* --------------------------------------------------------------------- *)

Lemma star_loop_sound (body : (mstate -> option mstate) -> mstate -> option mstate)
    (D : mstate -> mstate -> Prop) g :
  (forall k st res, body k st = Some res -> exists st', D st st' /\ k st' = Some res) ->
  forall n k st res,
    star_loop body g k n st = Some res ->
    exists st', star_den D st st' /\ k st' = Some res.
Proof.
  intros Hb. induction n as [|n IH]; intros k st res H; cbn [star_loop] in H.
  - exists st. split; [constructor|exact H].
  - assert (iter : forall res,
              body (fun st' => if length (rest st') <? length (rest st)
                               then star_loop body g k n st' else None) st = Some res ->
              exists st', star_den D st st' /\ k st' = Some res).
    { intros res0 E. apply Hb in E as (mid & Hd & E).
      destruct (length (rest mid) <? length (rest st)); [|discriminate].
      apply IH in E as (st' & Hs & Hk). exists st'. split; [|exact Hk].
      now apply star_den_more with mid. }
    destruct g.
    + destruct (body _ st) as [x|] eqn:E.
      * injection H as <-. now apply iter.
      * exists st. split; [constructor|exact H].
    + destruct (k st) as [x|] eqn:E.
      * injection H as <-. exists st. split; [constructor|exact E].
      * now apply iter.
Qed.

Theorem exec_sound fl r :
  forall k st res,
    exec fl r k st = Some res -> exists st', den fl r st st' /\ k st' = Some res.
Proof.
  induction r as [|cs|a IHa b IHb|a IHa b IHb|g a IHa|i a IHa| | | |a IHa];
    intros k st res H; cbn [exec] in H; cbn [den].
  - exists st. now split.
  - destruct (rest st) as [|c tl] eqn:E; [discriminate|].
    destruct (cs_match (ignoreCase fl) cs c) eqn:M; [|discriminate].
    eexists. split; [|exact H]. exists c, tl. now repeat split.
  - apply IHa in H as (mid & Ha & H). apply IHb in H as (st' & Hb & H).
    exists st'. split; [|exact H]. now exists mid.
  - destruct (exec fl a k st) as [x|] eqn:E.
    + injection H as <-. apply IHa in E as (st' & Ha & E). exists st'. now split; [left|].
    + apply IHb in H as (st' & Hb & H). exists st'. now split; [right|].
  - now apply (star_loop_sound (exec fl a) (den fl a) g IHa) in H.
  - apply IHa in H as (mid & Ha & H). eexists. split; [|exact H]. now exists mid.
  - destruct (at_bol fl st) eqn:E; [|discriminate]. exists st. now repeat split.
  - destruct (at_eol fl st) eqn:E; [|discriminate]. exists st. now repeat split.
  - destruct (xorb (word_before st) (word_after st)) eqn:E; [|discriminate].
    exists st. now repeat split.
  - destruct (exec fl a Some st) as [x|] eqn:E; [|discriminate].
    apply IHa in E as (x' & Ha & E). injection E as ->.
    eexists. split; [|exact H]. now exists x.
Qed.

(** What a pattern reads is a prefix of the input. *)
Lemma den_consumes fl r :
  forall st st', den fl r st st' -> exists t, rest st = t ++ rest st'.
Proof.
  induction r as [|cs|a IHa b IHb|a IHa b IHb|g a IHa|i a IHa| | | |a IHa];
    intros st st' H; cbn [den] in H.
  - subst. now exists [].
  - destruct H as (c & tl & E & _ & ->). exists [c]. exact E.
  - destruct H as (mid & Ha & Hb). apply IHa in Ha as (t1 & E1).
    apply IHb in Hb as (t2 & E2). exists (t1 ++ t2). now rewrite E1, E2, app_assoc.
  - destruct H as [H|H]; [now apply IHa|now apply IHb].
  - induction H as [st|st mid st' H1 _ (t2 & E2)]; [now exists []|].
    apply IHa in H1 as (t1 & E1). exists (t1 ++ t2). now rewrite E1, E2, app_assoc.
  - destruct H as (mid & Ha & ->). now apply IHa in Ha.
  - destruct H as [-> _]. now exists [].
  - destruct H as [-> _]. now exists [].
  - destruct H as [-> _]. now exists [].
  - destruct H as (x & _ & ->). now exists [].
Qed.

Lemma search_good fl r :
  forall s pv idx m,
    search fl r pv idx s = Some m ->
    idx <= m_index m
    /\ s = firstn (m_index m - idx) s ++ m_text m ++ m_after m
    /\ exists st0 st', den fl r st0 st' /\ caps st0 = []
         /\ rest st0 = m_text m ++ m_after m
         /\ (m_index m = idx -> prev st0 = pv)
         /\ (m_index m <> idx -> exists c, prev st0 = Some c)
         /\ m_caps m = caps st' /\ m_after m = rest st'.
Proof.
  assert (here : forall s pv idx x,
            exec fl r Some {| prev := pv; rest := s; caps := [] |} = Some x ->
            let m := {| m_index := idx;
                        m_text := firstn (length s - length (rest x)) s;
                        m_caps := caps x; m_after := rest x |} in
            s = m_text m ++ m_after m
            /\ exists st0 st', den fl r st0 st' /\ caps st0 = []
                 /\ rest st0 = m_text m ++ m_after m
                 /\ (m_index m = idx -> prev st0 = pv)
                 /\ (m_index m <> idx -> exists c, prev st0 = Some c)
                 /\ m_caps m = caps st' /\ m_after m = rest st').
  { intros s pv idx x E m.
    apply exec_sound in E as (st' & D & E). injection E as ->.
    destruct (den_consumes fl r _ _ D) as (t & Ht). cbn [rest] in Ht.
    assert (K : s = m_text m ++ m_after m).
    { unfold m. cbn [m_text m_after]. rewrite Ht at 2 3. rewrite firstn_app_sub.
      exact Ht. }
    split; [exact K|].
    eexists; eexists. split; [exact D|]. cbn [rest caps prev].
    repeat split; try assumption. intro N. now elim N. }
  induction s as [|c s IH]; intros pv idx m H; cbn [search] in H.
  - destruct (exec fl r Some {| prev := pv; rest := []; caps := [] |}) as [x|] eqn:E;
      [|discriminate].
    injection H as <-. destruct (here _ _ idx _ E) as (K & G).
    split; [cbn [m_index]; lia|]. split; [|exact G].
    cbn [m_index]. rewrite Nat.sub_diag. exact K.
  - destruct (exec fl r Some {| prev := pv; rest := c :: s; caps := [] |}) as [x|] eqn:E.
    + injection H as <-. destruct (here _ _ idx _ E) as (K & G).
      split; [cbn [m_index]; lia|]. split; [|exact G].
      cbn [m_index]. rewrite Nat.sub_diag. exact K.
    + apply IH in H as (Hi & Hs & st0 & st' & D & C0 & R0 & P0 & P1 & Cm & Am).
      split; [lia|]. split.
      * replace (m_index m - idx) with (S (m_index m - S idx)) by lia.
        cbn [firstn app]. now rewrite <- Hs.
      * exists st0, st'. repeat split; try assumption; try (intro K; lia).
        intros _. destruct (Nat.eq_dec (m_index m) (S idx)) as [e|n].
        -- exists c. now apply P0.
        -- now apply P1.
Qed.

Lemma search_good_match fl r s pv idx m :
  search fl r pv idx s = Some m -> good_match fl r m.
Proof.
  intro H. apply search_good in H as (_ & _ & st0 & st' & D & C0 & R0 & _ & _ & Cm & Am).
  now exists st0, st'.
Qed.

(* --------------------------------------------------------------------- *)
(** ** Counting the occurrences of a unit through a replacement *)
(* --------------------------------------------------------------------- *)

Lemma count_app c a b : count c (a ++ b) = count c a + count c b.
Proof. induction a as [|x a IH]; simpl; [reflexivity|]. rewrite IH. lia. Qed.

Lemma count_concat_map {A} c (f : A -> jsstring) l :
  count c (concat (map f l)) = list_sum (map (fun x => count c (f x)) l).
Proof.
  induction l as [|x l IH]; simpl; [reflexivity|]. now rewrite count_app, IH.
Qed.

Lemma count_rev c s : count c (rev s) = count c s.
Proof.
  induction s as [|x s IH]; simpl; [reflexivity|]. rewrite count_app, IH. simpl. lia.
Qed.

Lemma count_drop_while c s : is_space c = false -> count c (drop_while is_space s) = count c s.
Proof.
  intro H. induction s as [|x s IH]; simpl; [reflexivity|].
  destruct (is_space x) eqn:E; [|reflexivity].
  rewrite IH. destruct (N.eqb_spec x c) as [->|_]; [congruence|reflexivity].
Qed.

(** trim only removes white space. *)
Lemma count_trim c s : is_space c = false -> count c (trim s) = count c s.
Proof.
  intro H. unfold trim, trimEnd, trimStart.
  now rewrite count_rev, count_drop_while, count_rev, count_drop_while.
Qed.

Lemma count_firstn_skipn c n s : count c s = count c (firstn n s) + count c (skipn n s).
Proof. rewrite <- count_app. now rewrite firstn_skipn. Qed.

(** If no match loses a [c], the global replacement loses none. *)
Lemma pieces_count c fl r f :
  (forall m, good_match fl r m -> count c (m_text m) <= count c (f m)) ->
  forall fuel pv s,
    count c s <= count c (concat (map (render f) (pieces fl r fuel pv s))).
Proof.
  intro Hf. induction fuel as [|fuel IH]; intros pv s; cbn [pieces].
  - simpl. rewrite app_nil_r. lia.
  - destruct (search fl r pv 0 s) as [m|] eqn:E.
    2:{ simpl. rewrite app_nil_r. lia. }
    pose proof (Hf m (search_good_match fl r s pv 0 m E)) as Hm.
    apply search_good in E as (_ & Hs & _). rewrite Nat.sub_0_r in Hs.
    cbv zeta.
    assert (Hc : count c s = count c (firstn (m_index m) s) + count c (m_text m)
                             + count c (m_after m)).
    { rewrite Hs at 1. rewrite !count_app. lia. }
    destruct (m_text m) as [|x t] eqn:Et.
    + destruct (m_after m) as [|y tl] eqn:Ea.
      * cbn [map concat render]. rewrite !count_app. simpl in *. lia.
      * cbn [map concat render]. rewrite !count_app.
        specialize (IH (Some y) tl). simpl in *. lia.
    + cbn [map concat render]. rewrite !count_app.
      specialize (IH (last_char pv (firstn (m_index m) s ++ x :: t)) (m_after m)).
      lia.
Qed.

Lemma replace_all_count c fl r f s :
  (forall m, good_match fl r m -> count c (m_text m) <= count c (f m)) ->
  count c s <= count c (replace_all fl r f s).
Proof. intro H. unfold replace_all, all_pieces. now apply pieces_count. Qed.

(** [maxc] bounds what the pattern reads. *)
Lemma maxc_sound c fl r :
  forall b st st',
    maxc c (ignoreCase fl) r = Some b -> den fl r st st' ->
    exists t, rest st = t ++ rest st' /\ count c t <= b.
Proof.
  induction r as [|cs|a1 IHa a2 IHb|a1 IHa a2 IHb|g a IHa|i a IHa| | | |a IHa];
    intros b st st' Hb H; cbn [den maxc] in *.
  - subst. exists []. split; [reflexivity|simpl; lia].
  - destruct H as (x & tl & E & M & ->). exists [x]. split; [exact E|].
    simpl. destruct (N.eqb_spec x c) as [->|_]; [|injection Hb as <-; lia].
    rewrite M in Hb. injection Hb as <-. lia.
  - destruct (maxc c (ignoreCase fl) a1) as [x|]; [|discriminate].
    destruct (maxc c (ignoreCase fl) a2) as [y|]; [|discriminate].
    injection Hb as <-. destruct H as (mid & Ha & H2).
    destruct (IHa x _ _ eq_refl Ha) as (t1 & E1 & C1).
    destruct (IHb y _ _ eq_refl H2) as (t2 & E2 & C2).
    exists (t1 ++ t2). split; [now rewrite E1, E2, app_assoc|].
    rewrite count_app. lia.
  - destruct (maxc c (ignoreCase fl) a1) as [x|]; [|discriminate].
    destruct (maxc c (ignoreCase fl) a2) as [y|]; [|discriminate].
    injection Hb as <-. destruct H as [H|H].
    + destruct (IHa x _ _ eq_refl H) as (t & E & C). exists t. split; [exact E|lia].
    + destruct (IHb y _ _ eq_refl H) as (t & E & C). exists t. split; [exact E|lia].
  - destruct (maxc c (ignoreCase fl) a) as [[|x]|]; try discriminate.
    injection Hb as <-.
    induction H as [st|st mid st' H1 _ (t2 & E2 & C2)].
    + exists []. split; [reflexivity|simpl; lia].
    + destruct (IHa 0 _ _ eq_refl H1) as (t1 & E1 & C1).
      exists (t1 ++ t2). split; [now rewrite E1, E2, app_assoc|].
      rewrite count_app. lia.
  - destruct H as (mid & Ha & ->). destruct (IHa b _ _ Hb Ha) as (t & E & C).
    exists t. split; [exact E|exact C].
  - destruct H as [-> _]. injection Hb as <-. exists []. split; [reflexivity|simpl; lia].
  - destruct H as [-> _]. injection Hb as <-. exists []. split; [reflexivity|simpl; lia].
  - destruct H as [-> _]. injection Hb as <-. exists []. split; [reflexivity|simpl; lia].
  - destruct H as (x & _ & ->). injection Hb as <-.
    exists []. split; [reflexivity|simpl; lia].
Qed.

(** A pattern leaves the captures of other groups alone. *)
Lemma den_frame fl i r :
  forall st st', den fl r st st' -> ~ In i (groups r) ->
    lookup_cap i (caps st') = lookup_cap i (caps st).
Proof.
  induction r as [|cs|a1 IHa a2 IHb|a1 IHa a2 IHb|g a IHa|j a IHa| | | |a IHa];
    intros st st' H Hi; cbn [den groups] in *.
  - now subst.
  - now destruct H as (x & tl & _ & _ & ->).
  - destruct H as (mid & Ha & H2).
    rewrite (IHb _ _ H2), (IHa _ _ Ha); [reflexivity| |];
      intro K; apply Hi; apply in_or_app; [now left|now right].
  - destruct H as [H|H]; [apply (IHa _ _ H)|apply (IHb _ _ H)];
      intro K; apply Hi; apply in_or_app; [now left|now right].
  - induction H as [st|st mid st' H1 _ IH]; [reflexivity|].
    now rewrite IH, (IHa _ _ H1).
  - destruct H as (mid & Ha & ->). cbn [set_cap caps lookup_cap].
    destruct (Nat.eqb_spec i j) as [->|_]; [elim Hi; now left|].
    apply (IHa _ _ Ha). intro K. apply Hi. now right.
  - now destruct H as [-> _].
  - now destruct H as [-> _].
  - now destruct H as [-> _].
  - destruct H as (x & Ha & ->). cbn [caps]. now apply (IHa _ _ Ha).
Qed.

Lemma existsb_eqb_In i l : existsb (Nat.eqb i) l = true <-> In i l.
Proof.
  rewrite existsb_exists. split.
  - intros (x & Hx & E). apply Nat.eqb_eq in E. now subst.
  - intro H. exists i. split; [exact H|apply Nat.eqb_refl].
Qed.

(** What a sequence of items reads holds, outside the kept groups, at most
    the bound of units [c]. *)
Theorem flat_sound c fl T :
  forall items b tr st st',
    flat_bound c (ignoreCase fl) T items = Some (b, tr) ->
    den fl (Cat items) st st' ->
    exists t, rest st = t ++ rest st' /\ count c t <= b + sum_caps c tr st'.
Proof.
  induction items as [|it more IH]; intros b tr st st' Hb H.
  - injection Hb as <- <-. cbn in H. subst. exists []. split; [reflexivity|simpl; lia].
  - change (Cat (it :: more)) with (Seq it (Cat more)) in H. cbn [den] in H.
    destruct H as (mid & Hit & Hmore).
    cbn [flat_bound] in Hb.
    destruct (flat_bound c (ignoreCase fl) T more) as [[b2 tr2]|] eqn:E2; [|discriminate].
    destruct (IH b2 tr2 mid st' eq_refl Hmore) as (t2 & R2 & C2).
    assert (plain : forall b1, maxc c (ignoreCase fl) it = Some b1 ->
              exists t, rest st = t ++ rest st' /\ count c t <= (b1 + b2) + sum_caps c tr2 st').
    { intros b1 Hm. destruct (maxc_sound c fl it b1 st mid Hm Hit) as (t1 & R1 & C1).
      exists (t1 ++ t2). split; [now rewrite R1, R2, app_assoc|].
      rewrite count_app. lia. }
    assert (plain' : match maxc c (ignoreCase fl) it with
                     | Some b1 => Some (b1 + b2, tr2)
                     | None => None
                     end = Some (b, tr) ->
              exists t, rest st = t ++ rest st' /\ count c t <= b + sum_caps c tr st').
    { destruct (maxc c (ignoreCase fl) it) as [b1|]; [|discriminate].
      intro K. injection K as <- <-. now apply plain. }
    destruct it; try (now apply plain').
    destruct (existsb (Nat.eqb i) T && negb (existsb (Nat.eqb i) (groups (Cat more)))) eqn:Ek;
      [|now apply plain'].
    injection Hb as <- <-.
    apply andb_true_iff in Ek as [_ Ek]. apply negb_true_iff in Ek.
    assert (Hni : ~ In i (groups (Cat more))).
    { intro K. apply existsb_eqb_In in K. congruence. }
    cbn [den] in Hit. destruct Hit as (mid0 & Ha & ->).
    destruct (den_consumes fl it _ _ Ha) as (t1 & R1).
    cbn [set_cap rest] in R2.
    exists (t1 ++ t2). split; [now rewrite R1, R2, app_assoc|].
    rewrite count_app. cbn [sum_caps].
    assert (Hcap : cap_text i st' = t1).
    { unfold cap_text. rewrite (den_frame fl i (Cat more) _ _ Hmore Hni).
      cbn [set_cap caps lookup_cap]. rewrite Nat.eqb_refl.
      rewrite R1 at 1 2. apply firstn_app_sub. }
    rewrite Hcap. lia.
Qed.

(** A global replacement is the same under any bound larger than the input:
    every match, or the unit skipped after an empty one, shortens it. *)
Lemma pieces_fuel fl r :
  forall n m pv s, length s < n -> length s < m ->
    pieces fl r n pv s = pieces fl r m pv s.
Proof.
  induction n as [|n IH]; intros m pv s Hn Hm; [lia|].
  destruct m as [|m]; [lia|]. cbn [pieces].
  destruct (search fl r pv 0 s) as [x|] eqn:E; [|reflexivity].
  apply search_good in E as (_ & Hs & _). rewrite Nat.sub_0_r in Hs.
  assert (Hl : length s = length (firstn (m_index x) s) + length (m_text x)
                          + length (m_after x)).
  { rewrite Hs at 1. rewrite !length_app. lia. }
  cbv zeta. destruct (m_text x) as [|y t].
  - destruct (m_after x) as [|c tl]; [reflexivity|].
    rewrite (IH m (Some c) tl); [reflexivity| |]; cbn [length] in Hl; lia.
  - rewrite (IH m _ (m_after x)); [reflexivity| |]; cbn [length] in Hl; lia.
Qed.

Lemma sum_caps_state c tr st st' :
  caps st = caps st' -> sum_caps c tr st = sum_caps c tr st'.
Proof.
  intro E. induction tr as [|i tr IH]; simpl; [reflexivity|].
  unfold cap_text. now rewrite E, IH.
Qed.

(** A replacement that gives back the kept groups and enough brackets of
    its own loses no [c]. *)
Lemma replace_all_flat c fl items T b tr f s :
  flat_bound c (ignoreCase fl) T items = Some (b, tr) ->
  (forall m, b + sum_caps c tr (state_of m) <= count c (f m)) ->
  count c s <= count c (replace_all fl (Cat items) f s).
Proof.
  intros Hb Hf. apply replace_all_count.
  intros m (st0 & st' & D & C0 & R0 & Cm & Am).
  destruct (flat_sound c fl T items b tr st0 st' Hb D) as (t & R & C).
  rewrite R0, Am in R. apply app_inv_tail in R. rewrite R.
  specialize (Hf m).
  rewrite (sum_caps_state c tr (state_of m) st' Cm) in Hf.
  lia.
Qed.

Lemma replace_all_maxc c fl r b f s :
  maxc c (ignoreCase fl) r = Some b ->
  (forall m, b <= count c (f m)) ->
  count c s <= count c (replace_all fl r f s).
Proof.
  intros Hb Hf. apply replace_all_count.
  intros m (st0 & st' & D & C0 & R0 & Cm & Am).
  destruct (maxc_sound c fl r b st0 st' Hb D) as (t & R & C).
  rewrite R0, Am in R. apply app_inv_tail in R. rewrite R.
  specialize (Hf m). lia.
Qed.

(** A replacement that contains the matched text loses nothing. *)
Lemma replace_all_keeps c fl r f s :
  (forall m, count c (m_text m) <= count c (f m)) ->
  count c s <= count c (replace_all fl r f s).
Proof. intro H. apply replace_all_count. intros m _. apply H. Qed.

Ltac eval_counts :=
  repeat rewrite count_app;
  cbn [sum_caps];
  repeat match goal with
  | |- context [count ?c (cap_text ?i (state_of ?m))] =>
      change (cap_text i (state_of m)) with (group_text m i)
  end;
  repeat match goal with
  | |- context [count ?c (group_text ?m ?i)] =>
      generalize (count c (group_text m i)); intro
  end;
  repeat match goal with
  | |- context [count ?c (m_text ?m)] =>
      generalize (count c (m_text m)); intro
  end;
  repeat match goal with
  | |- context [count ?c ?l] =>
      let v := eval vm_compute in (count c l) in
      change (count c l) with v
  end;
  lia.

Ltac flat_pass :=
  eapply replace_all_flat with (T := [1; 2]);
  [ vm_compute; reflexivity | intro m; eval_counts ].

Section AngleBrackets.

Variable c : char.
Hypothesis angle : c = lt_char \/ c = gt_char.

Lemma md_escape_count s : count c s <= count c (md_escape s).
Proof.
  unfold md_escape, re_amp, lit, Lit.
  destruct angle as [-> | ->]; flat_pass.
Qed.

Lemma md_headers_count s : count c s <= count c (md_headers s).
Proof.
  unfold md_headers, re_h, tag.
  destruct angle as [-> | ->].
  - eapply Nat.le_trans; [|flat_pass]. eapply Nat.le_trans; [|flat_pass]. flat_pass.
  - eapply Nat.le_trans; [|flat_pass]. eapply Nat.le_trans; [|flat_pass]. flat_pass.
Qed.

Lemma md_emphasis_count s : count c s <= count c (md_emphasis s).
Proof.
  unfold md_emphasis, re_emph, tag, strong_em.
  destruct angle as [-> | ->];
    do 5 (eapply Nat.le_trans; [|flat_pass]); flat_pass.
Qed.

Lemma md_code_count s : count c s <= count c (md_code s).
Proof.
  unfold md_code, re_code, re_fence, tag.
  destruct angle as [-> | ->];
    (eapply Nat.le_trans; [|flat_pass]); flat_pass.
Qed.

Lemma md_links_count s : count c s <= count c (md_links s).
Proof.
  unfold md_links, re_link.
  destruct angle as [-> | ->]; flat_pass.
Qed.

Lemma md_rules_count s : count c s <= count c (md_rules s).
Proof.
  unfold md_rules, re_hr.
  destruct angle as [-> | ->]; flat_pass.
Qed.

Lemma md_lists_count s : count c s <= count c (md_lists s).
Proof.
  unfold md_lists, re_ul_item, re_ol_item, ul_callback.
  destruct angle as [-> | ->].
  - eapply Nat.le_trans; [|flat_pass].
    eapply Nat.le_trans; [|apply replace_all_keeps; intro m; eval_counts].
    eapply replace_all_flat with (T := [2]); [vm_compute; reflexivity|].
    intro m. eval_counts.
  - eapply Nat.le_trans; [|flat_pass].
    eapply Nat.le_trans; [|apply replace_all_keeps; intro m; eval_counts].
    eapply replace_all_flat with (T := [2]); [vm_compute; reflexivity|].
    intro m. eval_counts.
Qed.

Lemma md_quotes_count s : count c s <= count c (md_quotes s).
Proof.
  unfold md_quotes, re_quote.
  destruct angle as [-> | ->]; flat_pass.
Qed.

End AngleBrackets.

Lemma count_push_head c x l :
  count c (concat (push_head x l)) = count c [x] + count c (concat l).
Proof. destruct l as [|cur more]; simpl; lia. Qed.

Lemma split_nlnl_cons2 x y s :
  split_nlnl (x :: y :: s)
  = if ((x =? nl) && (y =? nl))%N then [] :: split_nlnl s
    else push_head x (split_nlnl (y :: s)).
Proof. reflexivity. Qed.

Lemma split_nlnl_count_le c n :
  c <> nl -> forall s, length s <= n -> count c (concat (split_nlnl s)) = count c s.
Proof.
  intro Hc. induction n as [|n IH]; intros s Hs.
  - destruct s; [reflexivity|simpl in Hs; lia].
  - destruct s as [|x [|y s]]; [reflexivity|simpl; lia|].
    rewrite split_nlnl_cons2.
    destruct ((x =? nl) && (y =? nl))%N eqn:E.
    + apply andb_true_iff in E as [E1 E2].
      apply N.eqb_eq in E1, E2. subst x y.
      cbn [concat app]. rewrite IH by (simpl in Hs; lia).
      cbn [count]. destruct (N.eqb_spec nl c) as [e|_]; [congruence|reflexivity].
    + rewrite count_push_head. rewrite IH by (cbn [length] in *; lia).
      cbn [count]. lia.
Qed.

(** split('\n\n') only removes line feeds. *)
Lemma count_split_nlnl c s :
  c <> nl -> count c (concat (split_nlnl s)) = count c s.
Proof. intro H. now apply (split_nlnl_count_le c (length s)). Qed.

Lemma count_join_ge c sep l : count c (concat l) <= count c (join sep l).
Proof.
  induction l as [|x l IH]; [simpl; lia|].
  destruct l as [|y l'].
  - simpl. rewrite app_nil_r. lia.
  - change (join sep (x :: y :: l')) with (x ++ sep ++ join sep (y :: l')).
    change (concat (x :: y :: l')) with (x ++ concat (y :: l')).
    rewrite !count_app. lia.
Qed.

Lemma count_concat_map_le c (f g : jsstring -> jsstring) l :
  (forall x, count c (f x) <= count c (g x)) ->
  count c (concat (map f l)) <= count c (concat (map g l)).
Proof.
  intro H. induction l as [|x l IH]; simpl; [lia|].
  rewrite !count_app. specialize (H x). lia.
Qed.

Section AngleParagraphs.

Variable c : char.
Hypothesis angle : c = lt_char \/ c = gt_char.

Lemma angle_not_nl : c <> nl.
Proof. destruct angle as [-> | ->]; discriminate. Qed.

Lemma angle_not_space : is_space c = false.
Proof. destruct angle as [-> | ->]; reflexivity. Qed.

Lemma wrap_block_count block : count c block <= count c (wrap_block block).
Proof.
  unfold wrap_block.
  destruct (nonempty (trim block) && _); [|lia].
  rewrite !count_app.
  assert (count c block <= count c (replace_all no_flags re_nl (fun _ => str "<br>") block)).
  { destruct angle as [-> | ->];
      (eapply replace_all_maxc; [vm_compute; reflexivity|intro m; lia]). }
  lia.
Qed.

Lemma md_paragraphs_count s : count c s <= count c (md_paragraphs s).
Proof.
  unfold md_paragraphs.
  eapply Nat.le_trans; [|apply count_join_ge].
  rewrite <- (count_split_nlnl c s angle_not_nl) at 1.
  rewrite <- (map_id (split_nlnl s)) at 1.
  apply count_concat_map_le. intro x. apply wrap_block_count.
Qed.

End AngleParagraphs.

(* --------------------------------------------------------------------- *)
(** ** The table pass keeps the angle brackets *)
(* --------------------------------------------------------------------- *)

Lemma star_den_class fl cs st st' :
  star_den (den fl (Chr cs)) st st' ->
  exists t, rest st = t ++ rest st'
            /\ Forall (fun x => cs_match (ignoreCase fl) cs x = true) t.
Proof.
  induction 1 as [st|st mid st' H1 _ (t2 & E2 & F2)].
  - exists []. split; [reflexivity|constructor].
  - cbn [den] in H1. destruct H1 as (x & tl & E & M & ->). cbn [rest] in E2.
    exists (x :: t2). split; [now rewrite E, E2|]. now constructor.
Qed.

Lemma den_table_row st st' :
  den no_flags table_row st st' ->
  exists row, is_row row /\ rest st = row ++ nl :: rest st'.
Proof.
  unfold table_row, lit, Lit, Plus. cbn [str map list_ascii_of_string Cat fold_right den].
  intros (m1 & (m1' & (c1 & t1 & E1 & M1 & ->) & ->) & m2 & (m2' & (c2 & t2 & E2 & M2 & ->) & S) & m3
          & (m3' & (c3 & t3 & E3 & M3 & ->) & ->) & m4 & (c4 & t4 & E4 & M4 & ->) & ->).
  apply star_den_class in S as (body & Eb & Fb).
  cbn [rest ignoreCase no_flags cs_match eq_char existsb] in *.
  apply N.eqb_eq in M1, M3, M4. subst c1 c3 c4.
  exists (N_of_ascii "|" :: (c2 :: body) ++ [N_of_ascii "|"]). split.
  - exists (c2 :: body). split; [reflexivity|].
    intros [K|K].
    + subst c2. discriminate.
    + rewrite Forall_forall in Fb. specialize (Fb nl K). discriminate.
  - rewrite E1, E2, Eb, E3, E4. cbn [app]. rewrite <- app_assoc. reflexivity.
Qed.

Lemma den_table_rows st st' :
  star_den (den no_flags table_row) st st' ->
  exists rows, Forall is_row rows
               /\ rest st = concat (map with_nl rows) ++ rest st'.
Proof.
  induction 1 as [st|st mid st' H1 _ (rows & F & E)].
  - exists []. split; [constructor|reflexivity].
  - apply den_table_row in H1 as (row & Hr & E1).
    exists (row :: rows). split; [now constructor|].
    cbn [map concat]. unfold with_nl at 1. rewrite E1, E.
    rewrite <- !app_assoc. reflexivity.
Qed.

(** What the table pattern matches: group 1 is a run of one or more rows,
    each with its line feed. *)
Lemma table_match_rows m :
  good_match no_flags re_table m ->
  exists row rows, Forall is_row (row :: rows)
                   /\ group_text m 1 = concat (map with_nl (row :: rows)).
Proof.
  intros (st0 & st' & D & C0 & R0 & Cm & Am).
  unfold re_table in D.
  change (Cat [lit "|"; Plus true (Chr (CNoneOf [nl])); lit "|"; Chr (CLit nl)])
    with table_row in D.
  cbn [Cat fold_right den Plus] in D.
  destruct D as (m1 & _ & m2 & (m0 & (ma & Hrow & Hrows) & ->) & ->).
  apply den_table_row in Hrow as (row & Hr & E1).
  apply den_table_rows in Hrows as (rows & F & E2).
  exists row, rows. split; [now constructor|].
  unfold group_text, group. rewrite Cm. cbn [set_cap caps lookup_cap Nat.eqb].
  cbn [map concat]. unfold with_nl at 1. rewrite E1, E2.
  replace (row ++ nl :: concat (map with_nl rows) ++ rest m0)
    with ((row ++ [nl] ++ concat (map with_nl rows)) ++ rest m0)
    by (rewrite <- !app_assoc; reflexivity).
  rewrite firstn_app_sub. now rewrite <- app_assoc.
Qed.

Lemma concat_with_nl row rows :
  concat (map with_nl (row :: rows)) = join [nl] (row :: rows) ++ [nl].
Proof.
  revert row; induction rows as [|r rows IH]; intro row.
  - simpl. unfold with_nl. now rewrite app_nil_r.
  - change (concat (map with_nl (row :: r :: rows)))
      with (with_nl row ++ concat (map with_nl (r :: rows))).
    rewrite IH.
    change (join [nl] (row :: r :: rows)) with (row ++ [nl] ++ join [nl] (r :: rows)).
    unfold with_nl. now rewrite <- !app_assoc.
Qed.

Lemma is_row_head r : is_row r -> exists x, r = ch "|" :: x.
Proof. intros (body & -> & _). now eexists. Qed.

Lemma is_row_last r : is_row r -> exists x, r = x ++ [ch "|"].
Proof. intros (body & -> & _). now exists (ch "|" :: body). Qed.

Lemma is_row_no_nl r : is_row r -> ~ In nl r.
Proof.
  intros (body & -> & H) [K|K]; [discriminate|].
  apply in_app_or in K as [K|[K|[]]]; [now apply H|discriminate].
Qed.

Lemma join_rows_ends row rows :
  Forall is_row (row :: rows) ->
  (exists x, join [nl] (row :: rows) = ch "|" :: x)
  /\ (exists y, join [nl] (row :: rows) = y ++ [ch "|"]).
Proof.
  revert row; induction rows as [|r rows IH]; intros row F.
  - inversion F; subst. simpl. split; [now apply is_row_head|now apply is_row_last].
  - inversion F as [|? ? Hr F']; subst.
    change (join [nl] (row :: r :: rows)) with (row ++ [nl] ++ join [nl] (r :: rows)).
    destruct (IH r F') as (_ & y & Ey). destruct (is_row_head row Hr) as (x & ->).
    split; [now eexists|].
    exists ((ch "|" :: x) ++ [nl] ++ y). rewrite Ey. now rewrite <- !app_assoc.
Qed.

(** Trimming the rows removes exactly the last line feed. *)
Lemma trim_rows row rows :
  Forall is_row (row :: rows) ->
  trim (concat (map with_nl (row :: rows))) = join [nl] (row :: rows).
Proof.
  intro F. rewrite concat_with_nl.
  destruct (join_rows_ends row rows F) as ((x & Ex) & (y & Ey)).
  unfold trim. rewrite trimStart_fixed by (rewrite Ex; reflexivity).
  unfold trimEnd. rewrite rev_app_distr. cbn [rev app drop_while].
  replace (is_space nl) with true by reflexivity.
  rewrite Ey at 1. rewrite rev_app_distr. cbn [rev app drop_while].
  replace (is_space (ch "|")) with false by reflexivity.
  change (ch "|" :: rev y) with (rev [ch "|"] ++ rev y).
  rewrite <- rev_app_distr, rev_involutive. now rewrite <- Ey.
Qed.

Lemma split_char_nosep sep r : ~ In sep r -> split_char sep r = [r].
Proof.
  induction r as [|x r IH]; intro H; [reflexivity|]. cbn [split_char].
  destruct (N.eqb_spec x sep) as [->|_]; [elim H; now left|].
  rewrite IH by (intro K; apply H; now right). reflexivity.
Qed.

Lemma split_char_app_sep sep r s :
  ~ In sep r -> split_char sep (r ++ sep :: s) = r :: split_char sep s.
Proof.
  induction r as [|x r IH]; intro H; cbn [app split_char].
  - now rewrite N.eqb_refl.
  - destruct (N.eqb_spec x sep) as [->|_]; [elim H; now left|].
    rewrite IH by (intro K; apply H; now right). reflexivity.
Qed.

Lemma split_join_rows row rows :
  Forall is_row (row :: rows) ->
  split_char nl (join [nl] (row :: rows)) = row :: rows.
Proof.
  revert row; induction rows as [|r rows IH]; intros row F;
    inversion F as [|? ? Hr F']; subst.
  - simpl. apply split_char_nosep. now apply is_row_no_nl.
  - change (join [nl] (row :: r :: rows)) with (row ++ nl :: join [nl] (r :: rows)).
    rewrite split_char_app_sep by now apply is_row_no_nl. now rewrite IH.
Qed.

Lemma is_row_nonblank r : is_row r -> nonempty (trim r) = true.
Proof.
  intros (body & -> & _). unfold trim.
  rewrite trimStart_fixed by reflexivity. now rewrite trimEnd_cons.
Qed.

Lemma filter_rows rows :
  Forall is_row rows -> filter (fun line => nonempty (trim line)) rows = rows.
Proof.
  induction 1 as [|r rows Hr _ IH]; simpl; [reflexivity|].
  now rewrite (is_row_nonblank r Hr), IH.
Qed.

(** The lines the callback works on are the rows the pattern read. *)
Lemma table_lines row rows :
  Forall is_row (row :: rows) ->
  filter (fun line => nonempty (trim line))
    (split_char nl (trim (concat (map with_nl (row :: rows))))) = row :: rows.
Proof.
  intro F. rewrite trim_rows by exact F. rewrite split_join_rows by exact F.
  now apply filter_rows.
Qed.

Lemma split_char_nonempty sep s : split_char sep s <> [].
Proof.
  destruct s as [|a s]; cbn [split_char]; [discriminate|].
  destruct (a =? sep)%N; [discriminate|]. now destruct (split_char sep s).
Qed.

Lemma split_char_snoc sep x : split_char sep (x ++ [sep]) = split_char sep x ++ [[]].
Proof.
  induction x as [|a x IH]; cbn [app split_char].
  - now rewrite N.eqb_refl.
  - destruct (a =? sep)%N; [now rewrite IH|].
    rewrite IH. pose proof (split_char_nonempty sep x).
    now destruct (split_char sep x).
Qed.

Lemma filteri_from_middle {A} (f : A -> nat -> bool) (i : nat) (F : list A) (y : A) :
  (forall x k, i <= k < i + length F -> f x k = true) ->
  f y (i + length F) = false ->
  filteri_from f i (F ++ [y]) = F.
Proof.
  revert i; induction F as [|x F IH]; intros i Hin Hout; cbn [app filteri_from length] in *.
  - rewrite Nat.add_0_r in Hout. now rewrite Hout.
  - rewrite (Hin x i) by lia. f_equal. apply IH.
    + intros x' k Hk. apply Hin. lia.
    + now replace (S i + length F) with (i + S (length F)) by lia.
Qed.

(** The cells of a row are the fields between its outer pipes, trimmed. *)
Lemma row_cells_row body :
  row_cells (ch "|" :: body ++ [ch "|"]) = map trim (split_char (ch "|") body).
Proof.
  unfold row_cells. f_equal.
  change (ch "|" :: body ++ [ch "|"]) with ([] ++ ch "|" :: (body ++ [ch "|"])).
  rewrite split_char_app_sep by (intros []). rewrite split_char_snoc.
  unfold filteri. cbn [filteri_from Nat.ltb Nat.leb andb].
  apply filteri_from_middle.
  - intros x k Hk. cbn [length]. rewrite length_app. cbn [length].
    destruct k as [|k]; [lia|]. cbn [andb]. apply Z.ltb_lt. lia.
  - cbn [length]. rewrite length_app. cbn [length]. cbn [Nat.add andb].
    apply Z.ltb_ge. lia.
Qed.

Lemma count_split_char c sep s :
  c <> sep -> count c (concat (split_char sep s)) = count c s.
Proof.
  intro H. induction s as [|a s IH]; [reflexivity|]. cbn [split_char].
  destruct (N.eqb_spec a sep) as [->|_].
  - cbn [concat app count]. rewrite IH.
    destruct (N.eqb_spec sep c) as [e|_]; [congruence|reflexivity].
  - rewrite count_push_head, IH. cbn [count]. lia.
Qed.

Section AngleTables.

Variable c : char.
Hypothesis angle : c = lt_char \/ c = gt_char.

Lemma angle_not_pipe : c <> ch "|".
Proof. destruct angle as [-> | ->]; discriminate. Qed.

Lemma count_with_nl rows :
  count c (concat (map with_nl rows)) = count c (concat rows).
Proof.
  induction rows as [|r rows IH]; [reflexivity|]. cbn [map concat].
  unfold with_nl at 1. rewrite !count_app, IH. cbn [count].
  destruct (N.eqb_spec nl c) as [e|_]; [|lia].
  exfalso. symmetry in e. now apply (angle_not_nl c angle).
Qed.

Lemma count_row_cells r : is_row r -> count c (concat (row_cells r)) = count c r.
Proof.
  intros (body & -> & _). rewrite row_cells_row.
  rewrite (count_concat_map c trim).
  rewrite (map_ext _ (fun x => count c (id x)) (fun x => count_trim c x (angle_not_space c angle))).
  rewrite <- (count_concat_map c id), map_id.
  rewrite (count_split_char c (ch "|") body angle_not_pipe).
  cbn [count]. rewrite count_app. cbn [count].
  destruct (N.eqb_spec (ch "|") c) as [e|_]; [|lia].
  exfalso. symmetry in e. now apply angle_not_pipe.
Qed.

Lemma count_headerHTML cells : count c (concat cells) <= count c (headerHTML cells).
Proof.
  unfold headerHTML. eapply Nat.le_trans; [|apply count_join_ge].
  rewrite <- (map_id cells) at 1. apply count_concat_map_le.
  intro x. unfold id. rewrite !count_app. lia.
Qed.

Lemma count_row_html cells :
  count c (concat cells)
  <= count c (join [] (map (fun cell => td_open ++ cell ++ str "</td>") cells)).
Proof.
  eapply Nat.le_trans; [|apply count_join_ge].
  rewrite <- (map_id cells) at 1. apply count_concat_map_le.
  intro x. unfold id. rewrite !count_app. lia.
Qed.

Lemma count_bodyHTML (bodyRows : list (list jsstring)) :
  count c (concat (map (@concat char) bodyRows)) <= count c (bodyHTML bodyRows).
Proof.
  unfold bodyHTML. eapply Nat.le_trans; [|apply count_join_ge].
  induction bodyRows as [|cells more IH]; [simpl; lia|].
  cbn [map concat]. rewrite !count_app. pose proof (count_row_html cells). lia.
Qed.

Lemma count_rows_cells rows :
  Forall is_row rows ->
  count c (concat rows) = count c (concat (map (@concat char) (map row_cells rows))).
Proof.
  induction 1 as [|r rows Hr _ IH]; [reflexivity|].
  cbn [map concat]. rewrite !count_app, IH. now rewrite (count_row_cells r Hr).
Qed.

(** A line the separator pattern accepts holds no angle bracket. *)
Lemma separator_count line :
  re_test no_flags separatorPattern line = true -> count c line = 0.
Proof.
  unfold re_test, re_match. destruct (search _ _ _ _ line) as [m|] eqn:E; [|discriminate].
  intros _. apply search_good in E as (_ & Hs & st0 & st' & D & C0 & R0 & P0 & P1 & Cm & Am).
  assert (B : maxc c false separatorPattern = Some 0)
    by (destruct angle as [-> | ->]; vm_compute; reflexivity).
  destruct (maxc_sound c no_flags separatorPattern 0 st0 st' B D) as (t & Rt & Ct).
  unfold separatorPattern in D. cbn [Cat fold_right den] in D.
  destruct D as (m1 & (-> & Hbol) & m2 & _ & m3 & _ & m4 & _ & m5 & (-> & Heol) & ->).
  unfold at_bol in Hbol. cbn [multiline no_flags andb] in Hbol.
  assert (Hi : m_index m = 0).
  { destruct (Nat.eq_dec (m_index m) 0) as [e|n]; [exact e|].
    destruct (P1 n) as (x & Px). rewrite Px in Hbol. discriminate. }
  unfold at_eol in Heol. cbn [multiline no_flags andb] in Heol.
  assert (He : rest m4 = []) by (destruct (rest m4); [reflexivity|discriminate]).
  rewrite Hi in Hs. cbn [Nat.sub firstn app] in Hs.
  rewrite Am, He, app_nil_r in Hs. rewrite Am, He, app_nil_r in R0.
  rewrite He, app_nil_r in Rt. rewrite R0 in Rt. rewrite Hs, Rt. lia.
Qed.

Lemma table_callback_count m :
  good_match no_flags re_table m -> count c (m_text m) <= count c (table_callback m).
Proof.
  intro G.
  assert (Hg : count c (m_text m) <= count c (group_text m 1)).
  { destruct G as (st0 & st' & D & C0 & R0 & Cm & Am).
    assert (B : flat_bound c false [1]
                  [Alt Bol (Chr (CLit nl));
                   Group 1 (Plus true (Cat [lit "|"; Plus true (Chr (CNoneOf [nl]));
                                            lit "|"; Chr (CLit nl)]))] = Some (0, [1]))
      by (destruct angle as [-> | ->]; vm_compute; reflexivity).
    destruct (flat_sound c no_flags [1] _ 0 [1] st0 st' B D) as (t & R & C).
    rewrite R0, Am in R. apply app_inv_tail in R. rewrite R.
    cbn [sum_caps] in C. unfold cap_text in C. rewrite <- Cm in C.
    unfold group_text, group. lia. }
  destruct (table_match_rows m G) as (row & rows & F & Et).
  unfold table_callback. cbv zeta. rewrite Et, (table_lines row rows F).
  destruct (length (row :: rows) <? 2); [lia|].
  destruct rows as [|separator body]; [lia|].
  destruct (re_test no_flags separatorPattern separator) eqn:Es; cbn [negb]; [|lia].
  rewrite Et in Hg. rewrite count_with_nl in Hg.
  inversion F as [|? ? Hrow F1]; subst. inversion F1 as [|? ? Hsep F2]; subst.
  cbn [concat] in Hg. rewrite !count_app in Hg.
  rewrite (separator_count separator Es) in Hg.
  rewrite (count_rows_cells body F2) in Hg.
  rewrite <- (count_row_cells row Hrow) in Hg.
  unfold table_html. rewrite !count_app.
  pose proof (count_headerHTML (row_cells row)).
  pose proof (count_bodyHTML (map row_cells body)).
  lia.
Qed.

Lemma md_tables_count s : count c s <= count c (md_tables s).
Proof. unfold md_tables. apply replace_all_count. apply table_callback_count. Qed.

End AngleTables.

(* --------------------------------------------------------------------- *)
(** ** The escape pass *)
(* --------------------------------------------------------------------- *)

Lemma search_char c pv idx s :
  search no_flags (Lit [c]) pv idx s
  = match break_at c s with
    | Some (pre, post) =>
        Some {| m_index := idx + length pre; m_text := [c]; m_caps := []; m_after := post |}
    | None => None
    end.
Proof.
  revert pv idx; induction s as [|x tl IH]; intros pv idx; [reflexivity|].
  cbn [search break_at]. cbn [Lit map Cat fold_right exec rest caps cs_match eq_char
                              ignoreCase no_flags].
  destruct (N.eqb_spec c x) as [->|_].
  - cbn [rest caps length]. rewrite Nat.add_0_r.
    replace (S (length tl) - length tl) with 1 by lia. reflexivity.
  - rewrite IH. destruct (break_at c tl) as [[pre post]|]; [|reflexivity].
    cbn [length]. now rewrite Nat.add_succ_r.
Qed.

Lemma break_at_spec c s pre post :
  break_at c s = Some (pre, post) -> s = pre ++ c :: post /\ ~ In c pre.
Proof.
  revert pre post; induction s as [|x tl IH]; intros pre post H; [discriminate|].
  cbn [break_at] in H. destruct (N.eqb_spec c x) as [->|n].
  - injection H as <- <-. split; [reflexivity|intros []].
  - destruct (break_at c tl) as [[pre' post']|]; [|discriminate].
    injection H as <- <-. destruct (IH pre' post' eq_refl) as [-> Hn].
    split; [reflexivity|]. intros [K|K]; [now apply n|now apply Hn].
Qed.

Lemma break_at_none c s : break_at c s = None -> ~ In c s.
Proof.
  induction s as [|x tl IH]; intro H; [intros []|].
  cbn [break_at] in H. destruct (N.eqb_spec c x) as [->|n]; [discriminate|].
  destruct (break_at c tl) as [[pre post]|]; [discriminate|].
  intros [K|K]; [now apply n|now apply IH].
Qed.

Lemma flat_map_absent c (rep : jsstring) s :
  ~ In c s -> flat_map (fun x : char => if (x =? c)%N then rep else [x]) s = s.
Proof.
  induction s as [|x tl IH]; intro H; [reflexivity|]. cbn [flat_map].
  destruct (N.eqb_spec x c) as [->|_]; [elim H; now left|].
  rewrite IH by (intro K; apply H; now right). reflexivity.
Qed.

(** Replacing a one-unit literal everywhere rewrites each occurrence. *)
Lemma pieces_char c rep :
  forall fuel pv s, length s < fuel ->
    concat (map (render (fun _ => rep)) (pieces no_flags (Lit [c]) fuel pv s))
    = flat_map (fun x : char => if (x =? c)%N then rep else [x]) s.
Proof.
  induction fuel as [|fuel IH]; intros pv s Hf; [lia|]. cbn [pieces].
  rewrite search_char. destruct (break_at c s) as [[pre post]|] eqn:E.
  - destruct (break_at_spec c s pre post E) as [-> Hn]. cbv zeta.
    cbn [m_text m_index m_after Nat.add].
    rewrite firstn_length_app. cbn [map concat render].
    rewrite IH by (rewrite length_app in Hf; cbn [length] in Hf; lia).
    rewrite flat_map_app. rewrite (flat_map_absent c rep pre Hn).
    f_equal. simpl. now rewrite N.eqb_refl.
  - cbn [map concat render]. rewrite app_nil_r. symmetry.
    apply flat_map_absent. now apply break_at_none.
Qed.

(** The escape pass rewrites every & to &amp; and nothing else. *)
Lemma md_escape_spec s : md_escape s = flat_map escape_amp s.
Proof.
  unfold md_escape, replace_all, all_pieces, re_amp.
  change (lit "&") with (Lit [ch "&"]).
  rewrite pieces_char by lia. reflexivity.
Qed.

(* --------------------------------------------------------------------- *)
(** ** Texts free of the marker characters *)
(* --------------------------------------------------------------------- *)

Lemma caseless_eq_char ic a c :
  (negb ic || caseless a) = true -> eq_char ic a c = true -> c = a.
Proof.
  unfold eq_char. destruct ic; cbn [negb orb].
  - unfold caseless, canonicalize. intros Ha H.
    repeat match type of H with
    | context [if ?b then _ else _] => destruct b eqn:?
    end;
    repeat match goal with
    | K : (_ && _)%bool = true |- _ => apply andb_true_iff in K as [? ?]
    | K : (_ || _)%bool = true |- _ => apply orb_true_iff in K as [?|?]
    | K : (_ && _)%bool = false |- _ => apply andb_false_iff in K as [?|?]
    | K : (_ || _)%bool = false |- _ => apply orb_false_iff in K as [? ?]
    | K : negb _ = true |- _ => apply negb_true_iff in K
    | K : negb _ = false |- _ => apply negb_false_iff in K
    | K : (_ <=? _)%N = true |- _ => apply N.leb_le in K
    | K : (_ <=? _)%N = false |- _ => apply N.leb_gt in K
    | K : (_ <? _)%N = true |- _ => apply N.ltb_lt in K
    | K : (_ <? _)%N = false |- _ => apply N.ltb_ge in K
    | K : (_ =? _)%N = true |- _ => apply N.eqb_eq in K
    | K : (_ =? _)%N = false |- _ => apply N.eqb_neq in K
    end; lia.
  - intros _ H. apply N.eqb_eq in H. now subst.
Qed.

Lemma cs_in_sound X ic cs c :
  cs_in X ic cs = true -> cs_match ic cs c = true -> X c = true.
Proof.
  destruct cs; try discriminate. cbn [cs_in cs_match]. intros H M.
  apply andb_true_iff in H as [H1 H2].
  now rewrite (caseless_eq_char ic c0 c H1 M).
Qed.

Lemma needs_sound X fl r :
  forall st st', needs X (ignoreCase fl) r = true -> den fl r st st' ->
    exists t, rest st = t ++ rest st' /\ existsb X t = true.
Proof.
  induction r as [|cs|a IHa b IHb|a IHa b IHb|g a IHa|i a IHa| | | |a IHa];
    intros st st' Hn H; cbn [needs den] in *; try discriminate.
  - destruct H as (x & tl & E & M & ->). exists [x]. split; [exact E|].
    cbn [existsb]. now rewrite (cs_in_sound X _ cs x Hn M).
  - destruct H as (mid & Ha & Hb).
    destruct (den_consumes fl a _ _ Ha) as (ta & Ea).
    destruct (den_consumes fl b _ _ Hb) as (tb & Eb).
    apply orb_true_iff in Hn as [Hn|Hn].
    + destruct (IHa _ _ Hn Ha) as (t & E & Ht). exists (t ++ tb).
      split; [now rewrite E, Eb, app_assoc|]. rewrite existsb_app, Ht. reflexivity.
    + destruct (IHb _ _ Hn Hb) as (t & E & Ht). exists (ta ++ t).
      split; [now rewrite Ea, E, app_assoc|]. rewrite existsb_app, Ht.
      apply orb_true_r.
  - apply andb_true_iff in Hn as [Hn1 Hn2].
    destruct H as [H|H]; [now apply IHa|now apply IHb].
  - destruct H as (mid & Ha & ->).
    destruct (IHa _ _ Hn Ha) as (t & E & Ht). exists t. split; [exact E|exact Ht].
Qed.

Lemma starts_in_sound X fl r :
  forall st st', starts_in X (ignoreCase fl) r = true -> den fl r st st' ->
    exists c tl, rest st = c :: tl /\ X c = true.
Proof.
  induction r as [|cs|a IHa b IHb|a IHa b IHb|g a IHa|i a IHa| | | |a IHa];
    intros st st' Hn H; cbn [starts_in den] in *; try discriminate.
  - destruct H as (x & tl & E & M & ->). exists x, tl. split; [exact E|].
    now apply (cs_in_sound X _ cs x Hn M).
  - destruct H as (mid & Ha & _). now apply (IHa _ _ Hn Ha).
  - apply andb_true_iff in Hn as [Hn1 Hn2].
    destruct H as [H|H]; [now apply (IHa _ _ Hn1 H)|now apply (IHb _ _ Hn2 H)].
  - destruct H as (mid & Ha & ->). now apply (IHa _ _ Hn Ha).
Qed.

(** A pattern that needs a character of [X] matches no text without one. *)
Lemma re_test_needs X fl r s :
  needs X (ignoreCase fl) r = true -> existsb X s = false -> re_test fl r s = false.
Proof.
  intros Hn Hs. unfold re_test, re_match.
  destruct (search fl r None 0 s) as [m|] eqn:E; [|reflexivity].
  apply search_good in E as (_ & Es & st0 & st' & D & _ & R0 & _ & _ & _ & Am).
  destruct (needs_sound X fl r st0 st' Hn D) as (t & Rt & Ht).
  rewrite R0, Am in Rt. apply app_inv_tail in Rt.
  rewrite Es, !existsb_app, Rt, Ht in Hs. rewrite orb_true_r in Hs. discriminate.
Qed.

(** A pattern whose matches start with a character of [X] matches at no
    position that holds another character. *)
Lemma matches_prefix_starts X fl r s :
  starts_in X (ignoreCase fl) r = true ->
  match s with c :: _ => X c = false | [] => True end ->
  matches_prefix fl r s = false.
Proof.
  intros Hn Hs. unfold matches_prefix.
  destruct (exec fl r Some {| prev := None; rest := s; caps := [] |}) as [x|] eqn:E;
    [|reflexivity].
  apply exec_sound in E as (st' & D & _).
  destruct (starts_in_sound X fl r _ _ Hn D) as (c & tl & Ec & Xc).
  cbn [rest] in Ec. subst s. congruence.
Qed.

Lemma existsb_weaken (X Y : char -> bool) s :
  (forall c, X c = true -> Y c = true) -> existsb Y s = false -> existsb X s = false.
Proof.
  intros H Hs. destruct (existsb X s) eqn:E; [|reflexivity].
  apply existsb_exists in E as (c & Hc & Xc).
  assert (existsb Y s = true) by (apply existsb_exists; exists c; auto). congruence.
Qed.

Lemma re_test_char (Y : char -> bool) fl r a s :
  needs (is_char a) (ignoreCase fl) r = true ->
  (forall c, is_char a c = true -> Y c = true) ->
  existsb Y s = false -> re_test fl r s = false.
Proof.
  intros Hn Hm Hs. apply (re_test_needs (is_char a)); [exact Hn|].
  now apply (existsb_weaken (is_char a) Y).
Qed.

Ltac marker_sub :=
  let c := fresh "c" in let H := fresh "H" in
  intros c H; unfold marker_char, answer_marker_char; rewrite H;
  repeat rewrite orb_true_r; reflexivity.

(** No answer label and no promotional footer in a text without their
    characters. *)
Lemma plain_answer_free a :
  existsb answer_marker_char a = false -> plain_answer a = true.
Proof.
  intro H. unfold plain_answer, promoPatterns, promoPatterns_with. cbn [forallb].
  rewrite (re_test_char answer_marker_char flag_i re_clean_bold "*" a eq_refl
             ltac:(marker_sub) H).
  rewrite (re_test_char answer_marker_char flag_i re_clean_dash "-" a eq_refl
             ltac:(marker_sub) H).
  rewrite (re_test_char answer_marker_char flag_im re_clean_header "#" a eq_refl
             ltac:(marker_sub) H).
  rewrite (re_test_char answer_marker_char flag_i re_clean_plain ":" a eq_refl
             ltac:(marker_sub) H).
  rewrite (re_test_char answer_marker_char flag_i
             (Cat ([lit "---"; spaces; Opt (Chr (CLit nl)); spaces]
                   ++ promo_core promo_lead)) "?" a eq_refl ltac:(marker_sub) H).
  rewrite (re_test_char answer_marker_char flag_i (Cat (promo_core promo_lead))
             "?" a eq_refl ltac:(marker_sub) H).
  reflexivity.
Qed.

(** No tag block in a text without < and [. *)
Lemma no_tag_blocks_free s :
  existsb (is_char "<") s = false -> existsb (is_char "[") s = false ->
  no_tag_blocks s = true.
Proof.
  intros H1 H2. unfold no_tag_blocks.
  rewrite (re_test_needs (is_char "<") flag_i re_thinking s eq_refl H1).
  rewrite (re_test_needs (is_char "[") flag_i re_bracket s eq_refl H2).
  reflexivity.
Qed.

(** No pattern of the extractor matches a text without marker characters. *)
Lemma marker_free_unmarked s : existsb marker_char s = false -> unmarked s = true.
Proof.
  intro H. unfold unmarked, no_reasoning_markers.
  rewrite (re_test_char marker_char flag_i re_thinking "<" s eq_refl ltac:(marker_sub) H).
  rewrite (re_test_char marker_char flag_i re_bracket "[" s eq_refl ltac:(marker_sub) H).
  rewrite (re_test_char marker_char flag_i re_bold "*" s eq_refl ltac:(marker_sub) H).
  rewrite (re_test_char marker_char flag_im re_plain ":" s eq_refl ltac:(marker_sub) H).
  rewrite (re_test_char marker_char flag_im re_thinking_answer ":" s eq_refl
             ltac:(marker_sub) H).
  rewrite (re_test_char marker_char flag_i re_dash "-" s eq_refl ltac:(marker_sub) H).
  rewrite (re_test_char marker_char flag_im re_header "#" s eq_refl ltac:(marker_sub) H).
  rewrite plain_answer_free; [reflexivity|].
  apply (existsb_weaken answer_marker_char marker_char); [|exact H].
  intros c Hc. unfold marker_char. rewrite Hc. now rewrite !orb_true_r.
Qed.

Lemma existsb_drop_while (X p : char -> bool) s :
  existsb X s = false -> existsb X (drop_while p s) = false.
Proof.
  intro H. rewrite <- (take_drop_while p s), existsb_app in H.
  now apply orb_false_iff in H as [_ ?].
Qed.

Lemma existsb_rev (X : char -> bool) (s : list char) :
  existsb X (rev s) = existsb X s.
Proof.
  induction s as [|c s IH]; [reflexivity|]. cbn [rev existsb].
  rewrite existsb_app, IH. cbn [existsb]. rewrite orb_false_r. apply orb_comm.
Qed.

Lemma existsb_trim (X : char -> bool) s :
  existsb X s = false -> existsb X (trim s) = false.
Proof.
  intro H. unfold trim, trimEnd, trimStart. rewrite existsb_rev.
  apply existsb_drop_while. rewrite existsb_rev. now apply existsb_drop_while.
Qed.

(** A pattern whose matches start with a character of [X] matches at no
    position of a stretch without such a character. *)
Lemma occurs_before_starts X fl r (P s : jsstring) :
  starts_in X (ignoreCase fl) r = true ->
  existsb X P = false ->
  occurs_before fl r (length P) (P ++ s) = false.
Proof.
  intros Hs HP. unfold occurs_before.
  destruct (existsb _ (seq 0 (length P))) eqn:E; [|reflexivity].
  apply existsb_exists in E as (i & Hi & M). apply in_seq in Hi.
  rewrite (matches_prefix_starts X fl r _ Hs) in M; [discriminate|].
  rewrite skipn_app. replace (i - length P) with 0 by lia. cbn [skipn].
  rewrite <- (firstn_skipn i P), existsb_app in HP.
  apply orb_false_iff in HP as [_ HP].
  destruct (skipn i P) as [|c tl] eqn:Ei.
  - apply (f_equal (@length _)) in Ei. rewrite length_skipn in Ei.
    cbn [length] in Ei. lia.
  - cbn [app]. cbn [existsb] in HP. now apply orb_false_iff in HP as [? _].
Qed.

(** Plain prose comes back as it is: a text with none of the characters
    < [ * : - # ? and no white space at either end is returned as
    mainContent, with no reasoning and no promotion. *)
Corollary plain_prose_unchanged (text : jsstring) :
  existsb marker_char text = false ->
  trim text = text ->
  parseMessageContent text
    = {| reasoning := None; mainContent := text; rabbitRankPromo := None |}.
Proof.
  intros H Ht. apply parse_unmarked; [now apply marker_free_unmarked|exact Ht].
Qed.

(** The bold pair around plain prose: when the text holds no < and no [,
    P and R hold no asterisk, A holds none of * : - # ?, and the two sections
    are 11 units or more once trimmed, the sections come back trimmed. *)
Corollary bold_split_plain (P R A : jsstring) :
  existsb (is_char "<") (bold_text P R A) = false ->
  existsb (is_char "[") (bold_text P R A) = false ->
  existsb (is_char "*") P = false ->
  existsb (is_char "*") R = false ->
  existsb answer_marker_char A = false ->
  11 <= length (trim R) -> 11 <= length (trim A) ->
  parseMessageContent (bold_text P R A)
    = {| reasoning := Some (trim R); mainContent := trim A; rabbitRankPromo := None |}.
Proof.
  intros H1 H2 HP HR HA LR LA. apply parse_bold_text; try assumption.
  - now apply no_tag_blocks_free.
  - unfold bold_text.
    now apply (occurs_before_starts (is_char "*") flag_i (lit "**Reasoning:**")).
  - now apply (occurs_before_starts (is_char "*") flag_i answer_label).
  - apply plain_answer_free. now apply existsb_trim.
Qed.

(* --------------------------------------------------------------------- *)
(** ** The WAV container: pcmToWav *)
(* --------------------------------------------------------------------- *)

Lemma le_bytes_length k v : length (le_bytes k v) = k.
Proof. revert v. induction k; intro v; cbn [le_bytes length]; [reflexivity|]. now rewrite IHk. Qed.

Lemma new_buffer_split n : new_buffer (44 + n) = repeat 0%N 44 ++ repeat 0%N n.
Proof. unfold new_buffer. apply repeat_app. Qed.

Lemma write_tail (hd : buffer) (bs tl : buffer) :
  length tl = length bs -> write_bytes (length hd) bs (hd ++ tl) = Some (hd ++ bs).
Proof.
  intro H. unfold write_bytes. rewrite length_app, H, Nat.leb_refl.
  rewrite firstn_app, firstn_all, Nat.sub_diag. cbn [firstn]. rewrite app_nil_r.
  rewrite skipn_all2 by (rewrite length_app; lia). now rewrite app_nil_r.
Qed.

(** The buffer pcmToWav returns: the header, then the PCM bytes. *)
Lemma pcmToWav_bytes (pcmData : buffer) (sampleRate : N) :
  pcmToWav pcmData sampleRate
  = Some (wav_header (N.of_nat (length pcmData)) sampleRate ++ pcmData).
Proof.
  unfold pcmToWav. rewrite new_buffer_split.
  set (tl := repeat 0%N (length pcmData)).
  assert (Htl : length tl = length pcmData) by apply repeat_length.
  set (n := N.of_nat (length pcmData)).
  set (fin := write_bytes 44 pcmData).
  cbn -[N.modulo N.div N.add N.mul tl]. subst fin.
  match goal with
  | |- write_bytes 44 _ ?b = _ =>
      change b with (firstn 44 b ++ tl);
      change 44 with (length (firstn 44 b)) at 1
  end.
  rewrite write_tail by exact Htl.
  cbn -[N.modulo N.div N.add N.mul].
  repeat (f_equal; try (vm_compute; reflexivity)).
Qed.

(** X1.  pcmToWav never raises: for every PCM buffer and sample rate its
    writes stay inside the buffer it allocates, and the result is the
    44-byte header of a mono 16-bit PCM WAV file (RIFF size 36 + n, format
    chunk of 16 bytes, format 1, 1 channel, the sample rate, byte rate twice
    the sample rate, block alignment 2, 16 bits, data size n, all
    little-endian) followed by the PCM bytes unchanged. *)
Theorem pcmToWav_layout (pcmData : buffer) (sampleRate : N) :
  pcmToWav pcmData sampleRate
  = Some (wav_header (N.of_nat (length pcmData)) sampleRate ++ pcmData).
Proof. rewrite pcmToWav_bytes. reflexivity. Qed.

Lemma le_bytes_value k v :
  fold_right (fun x acc => (x + 256 * acc)%N) 0%N (le_bytes k v) = (v mod 256 ^ N.of_nat k)%N.
Proof.
  revert v. induction k as [|k IH]; intro v.
  - cbn. now rewrite N.mod_1_r.
  - cbn [le_bytes fold_right]. rewrite IH, Nat2N.inj_succ, N.pow_succ_r'.
    now rewrite N.Div0.mod_mul_r.
Qed.

Lemma le_value4 v :
  (v < 2 ^ 32)%N ->
  (v mod 256
   + 256 * ((v / 256) mod 256
            + 256 * ((v / 256 / 256) mod 256
                     + 256 * ((v / 256 / 256 / 256) mod 256 + 256 * 0))))%N = v.
Proof.
  intro H. pose proof (le_bytes_value 4 v) as E.
  cbn -[N.modulo N.div N.add N.mul N.pow] in E. rewrite E.
  apply N.mod_small. exact H.
Qed.

Ltac read_field :=
  unfold read_le, wav_header;
  cbn -[N.modulo N.div N.add N.mul];
  try reflexivity;
  apply le_value4; lia.

Lemma le_bytes_bound k v : Forall (fun b => (b < 256)%N) (le_bytes k v).
Proof.
  revert v. induction k as [|k IH]; intro v; cbn [le_bytes]; constructor; [|apply IH].
  apply N.mod_lt. discriminate.
Qed.

(** X2.  Round trip through the container: when the sizes fit their 32-bit
    fields (n + 36 < 2^32 and twice the sample rate < 2^32), a reader of the
    44-byte PCM WAV layout accepts the output of pcmToWav, with every size
    and rate field consistent, and gives back 1 channel, the sample rate,
    16 bits per sample and exactly the PCM bytes that went in; and the
    output holds only bytes when the input does. *)
Theorem pcmToWav_parse (pcmData : buffer) (sampleRate : N) :
  (N.of_nat (length pcmData) + 36 < 2 ^ 32)%N ->
  (sampleRate * 2 < 2 ^ 32)%N ->
  exists wav,
    pcmToWav pcmData sampleRate = Some wav
    /\ parse_wav wav
       = Some {| channels := 1; sample_rate := sampleRate; bits_per_sample := 16;
                 samples := pcmData |}
    /\ (Forall (fun b => (b < 256)%N) pcmData -> Forall (fun b => (b < 256)%N) wav).
Proof.
  intros Hn Hr. eexists. split; [apply pcmToWav_bytes|].
  split; [|intro Hb; unfold wav_header;
           repeat (apply Forall_app; split);
           try apply le_bytes_bound; try exact Hb;
           repeat constructor].
  set (n := N.of_nat (length pcmData)) in *.
  set (wav := wav_header n sampleRate ++ pcmData).
  assert (L : length wav = 44 + length pcmData) by (unfold wav; now rewrite length_app).
  assert (R4 : read_le 4 4 wav = (36 + n)%N) by (unfold wav; read_field).
  assert (R16 : read_le 16 4 wav = 16%N) by (unfold wav; read_field).
  assert (R20 : read_le 20 2 wav = 1%N) by (unfold wav; read_field).
  assert (R22 : read_le 22 2 wav = 1%N) by (unfold wav; read_field).
  assert (R24 : read_le 24 4 wav = sampleRate) by (unfold wav; read_field).
  assert (R28 : read_le 28 4 wav = (sampleRate * 2)%N) by (unfold wav; read_field).
  assert (R32 : read_le 32 2 wav = 2%N) by (unfold wav; read_field).
  assert (R34 : read_le 34 2 wav = 16%N) by (unfold wav; read_field).
  assert (R40 : read_le 40 4 wav = n) by (unfold wav; read_field).
  assert (T0 : tag_at 0 "RIFF" wav = true) by (unfold wav, tag_at, wav_header; reflexivity).
  assert (T8 : tag_at 8 "WAVE" wav = true) by (unfold wav, tag_at, wav_header; reflexivity).
  assert (T12 : tag_at 12 "fmt " wav = true) by (unfold wav, tag_at, wav_header; reflexivity).
  assert (T36 : tag_at 36 "data" wav = true) by (unfold wav, tag_at, wav_header; reflexivity).
  assert (S44 : skipn 44 wav = pcmData) by (unfold wav, wav_header; reflexivity).
  unfold parse_wav.
  rewrite R4, R16, R20, R22, R24, R28, R32, R34, R40, T0, T8, T12, T36, S44, L.
  replace (44 + length pcmData - 8) with (36 + length pcmData) by lia.
  replace (44 + length pcmData - 44) with (length pcmData) by lia.
  rewrite Nat2N.inj_add. fold n. change (N.of_nat 36) with 36%N.
  rewrite !N.eqb_refl. cbn [andb Nat.leb].
  reflexivity.
Qed.

Lemma pcmToWav_parse_witness :
  exists wav,
    pcmToWav [1; 2; 3; 4]%N default_sampleRate = Some wav
    /\ parse_wav wav
       = Some {| channels := 1; sample_rate := 24000; bits_per_sample := 16;
                 samples := [1; 2; 3; 4]%N |}
    /\ (Forall (fun b => (b < 256)%N) [1; 2; 3; 4]%N -> Forall (fun b => (b < 256)%N) wav).
Proof.
  apply (pcmToWav_parse [1; 2; 3; 4]%N default_sampleRate); vm_compute; reflexivity.
Defined.

(* --------------------------------------------------------------------- *)
(** ** The reply and the request of generateText *)
(* --------------------------------------------------------------------- *)




(** X4.  The data source in the request.  For every data source other than
    none the table has exactly the entry with that id, its site query is
    not empty, and the text sent is the prompt followed by the system note
    with that entry's label and site query; the google_search tool is
    enabled exactly when such a source is chosen and there is no attachment.
    So with an attachment the note still asks for a search while the tool is
    off.  With the source none the prompt is sent as it is. *)
Theorem grounded_request (prompt : jsstring) (dataSource : SEODataSource) :
  (dataSource <> none ->
     exists cfg,
       find_source dataSource = Some cfg
       /\ Config.id cfg = dataSource
       /\ filter (fun s => SEODataSource_eqb (Config.id s) dataSource) SEO_DATA_SOURCES
          = [cfg]
       /\ Config.siteQuery cfg <> []
       /\ google_search dataSource None = true
       /\ request_parts prompt dataSource None = [TextPart (prompt ++ system_note cfg)]
       /\ forall a,
            google_search dataSource (Some a) = false
            /\ firstn (length (prompt ++ system_note cfg))
                 (effectivePrompt prompt dataSource (Some a))
               = prompt ++ system_note cfg)
  /\ (forall attachment, google_search none attachment = false)
  /\ request_parts prompt none None = [TextPart prompt].
Proof.
  split; [|split; [reflexivity|reflexivity]].
  intro H.
  assert (P : forall (a : Attachment.t) (x : jsstring),
            firstn (length x)
              (if negb (Attachment.isInline a) then x ++ attached_file a else x) = x).
  { intros a x. destruct (Attachment.isInline a); cbn [negb].
    - apply firstn_all.
    - apply firstn_length_app. }
  destruct dataSource; try (now elim H);
    (eexists; split; [reflexivity|]; repeat split; try discriminate;
     intros; unfold effectivePrompt; cbn [SEODataSource_eqb negb find_source];
     apply P).
Qed.

Lemma grounded_request_witness :
  exists cfg,
    find_source moz = Some cfg
    /\ Config.id cfg = moz
    /\ filter (fun s => SEODataSource_eqb (Config.id s) moz) SEO_DATA_SOURCES = [cfg]
    /\ Config.siteQuery cfg <> []
    /\ google_search moz None = true
    /\ request_parts (str "rank") moz None = [TextPart (str "rank" ++ system_note cfg)]
    /\ forall a,
         google_search moz (Some a) = false
         /\ firstn (length (str "rank" ++ system_note cfg))
              (effectivePrompt (str "rank") moz (Some a))
            = str "rank" ++ system_note cfg.
Proof.
  apply (proj1 (grounded_request (str "rank") moz)). discriminate.
Defined.

Lemma split_comma_payload hdr payload :
  ~ In comma hdr -> ~ In comma payload ->
  nth_error (split_char (ch ",") (hdr ++ comma :: payload)) 1 = Some payload.
Proof.
  intros H1 H2. change (ch ",") with comma.
  rewrite split_char_app_sep by exact H1. now rewrite split_char_nosep.
Qed.

(** X5.  From the file chooser to the request.  A file whose type starts
    with image/ or is application/pdf becomes an inline attachment: when the
    reader's result is a data URL, a comma-free header, a comma and a
    comma-free payload, the request has two parts, the text exactly as it
    would be without attachment and the inline data with the file's type and
    exactly the payload; a result without any comma gives inline data with
    no data.  Any other file is sent as text only: one part, the prompt
    followed by the file's name and content between the two marker lines.
    If the reader fails there is no attachment. *)
Theorem attachment_request (file : File.t) (prompt : jsstring)
    (dataSource : SEODataSource) :
  handleFileSelect file None = None
  /\ (inline_type (File.type file) = true ->
      (forall hdr payload, ~ In comma hdr -> ~ In comma payload ->
         exists a,
           handleFileSelect file (Some (hdr ++ comma :: payload)) = Some a
           /\ request_parts prompt dataSource (Some a)
              = [TextPart (effectivePrompt prompt dataSource None);
                 InlinePart (File.type file) (Some payload)])
      /\ (forall result, ~ In comma result ->
            exists a,
              handleFileSelect file (Some result) = Some a
              /\ request_parts prompt dataSource (Some a)
                 = [TextPart (effectivePrompt prompt dataSource None);
                    InlinePart (File.type file) None]))
  /\ (inline_type (File.type file) = false ->
      forall content,
        exists a,
          handleFileSelect file (Some content) = Some a
          /\ request_parts prompt dataSource (Some a)
             = [TextPart (effectivePrompt prompt dataSource None
                          ++ [nl; nl] ++ str "--- Attached File Content: "
                          ++ File.name file ++ str " ---" ++ [nl] ++ content ++ [nl]
                          ++ str "-----------------------------------" ++ [nl])]).
Proof.
  split; [reflexivity|]. split; intro Ht.
  - split.
    + intros hdr payload H1 H2. unfold handleFileSelect. rewrite Ht.
      eexists. split; [reflexivity|].
      unfold request_parts, effectivePrompt. cbn [Attachment.isInline negb
        Attachment.mimeType Attachment.data].
      now rewrite (split_comma_payload hdr payload H1 H2).
    + intros result H. unfold handleFileSelect. rewrite Ht.
      eexists. split; [reflexivity|].
      unfold request_parts, effectivePrompt. cbn [Attachment.isInline negb
        Attachment.mimeType Attachment.data].
      change (ch ",") with comma. now rewrite (split_char_nosep comma result H).
  - intro content. unfold handleFileSelect. rewrite Ht.
    eexists. split; [reflexivity|].
    unfold request_parts, effectivePrompt. cbn [Attachment.isInline negb].
    reflexivity.
Qed.

Lemma attachment_request_witness :
  exists a,
    handleFileSelect png_file (Some (png_header ++ comma :: png_payload)) = Some a
    /\ request_parts (str "audit") none (Some a)
       = [TextPart (str "audit"); InlinePart (str "image/png") (Some png_payload)].
Proof.
  refine (proj1 (proj1 (proj2 (attachment_request png_file (str "audit") none)) _)
            png_header png_payload _ _).
  - reflexivity.
  - vm_compute. intuition discriminate.
  - vm_compute. intuition discriminate.
Defined.

(* --------------------------------------------------------------------- *)
(** ** The chat page *)
(* --------------------------------------------------------------------- *)













Lemma trim_head_nonspace x y :
  head_nonspace x = true -> nonempty (trim (x ++ y)) = true.
Proof.
  destruct x as [|c x]; [discriminate|]. cbn [head_nonspace app]. intro H.
  apply negb_true_iff in H. unfold trim.
  rewrite (trimStart_fixed (c :: x ++ y) H). now rewrite (trimEnd_cons c (x ++ y) H).
Qed.

Lemma nonempty_head_nonspace x y : head_nonspace x = true -> nonempty (x ++ y) = true.
Proof. destruct x; [discriminate|reflexivity]. Qed.

Lemma handleSubmit_accepts text id now h :
  nonempty (trim text) = true -> nonempty text = true -> isProcessing h = false ->
  handleSubmit text None id now h
  = (with_messages h
       (messages h
        ++ [new_message id now user text None
              (home_dataSource h, home_thinkingMode h, home_responseMode h)])
       true (Some (home_dataSource h, home_thinkingMode h, home_responseMode h)),
     [CallGenerateText (buildPrompt (home_responseMode h) text) (home_dataSource h)
        None (home_thinkingMode h)]).
Proof.
  intros H1 H2 H3. unfold handleSubmit. rewrite H1, H2, H3. reflexivity.
Qed.

Lemma own_property_none {A} (key : jsstring) (table : list (jsstring * A)) :
  ~ In key (map fst table) -> own_property key table = None.
Proof.
  induction table as [|[k v] tl IH]; intro H; [reflexivity|]. cbn [own_property].
  destruct (str_eqb k key) eqn:E.
  - apply str_eqb_eq in E. exfalso. apply H. now left.
  - apply IH. intro K. apply H. now right.
Qed.

(** X7.  Quick actions.  The prompt table of the page has exactly the four
    identifiers of the buttons of MessageBubble, so every button submits
    something: a header, the line Answer: and the answer, which is cut to
    its first 4000 units plus three dots when it is longer.  When no
    request is running the submission passes the blank-text guard of
    handleSubmit: a user message with that text is appended and generateText
    is called once, without attachment, with the prompt built from that
    text.  The table is an object literal, so the lookup also finds what it
    inherits: toString submits [object Undefined] like a typed question,
    constructor submits the answer itself (a String object that holds it),
    and the ten other names of Object.prototype raise a TypeError and change
    nothing.  Any other identifier does nothing. *)
Theorem quick_action_submits (actionId content id : jsstring) (now : Z) (h : home) :
  map fst quickActionPrompts = QUICK_ACTIONS
  /\ length (trimmedContent content) <= 4003
  /\ (length content <= 4000 -> trimmedContent content = content)
  /\ (4000 < length content -> trimmedContent content = firstn 4000 content ++ str "...")
  /\ (In actionId QUICK_ACTIONS ->
      exists header,
        let text := header ++ answer_below ++ trimmedContent content in
        quickActionText actionId content = Some text
        /\ (isProcessing h = false ->
            handleQuickAction actionId content id now h
            = (with_messages h
                 (messages h
                  ++ [new_message id now user text None
                        (home_dataSource h, home_thinkingMode h, home_responseMode h)])
                 true
                 (Some (home_dataSource h, home_thinkingMode h, home_responseMode h)),
               [CallGenerateText (buildPrompt (home_responseMode h) text)
                  (home_dataSource h) None (home_thinkingMode h)])))
  /\ (actionId = str "toString" -> isProcessing h = false ->
      handleQuickAction actionId content id now h
      = (with_messages h
           (messages h
            ++ [new_message id now user (str "[object Undefined]") None
                  (home_dataSource h, home_thinkingMode h, home_responseMode h)])
           true
           (Some (home_dataSource h, home_thinkingMode h, home_responseMode h)),
         [CallGenerateText (buildPrompt (home_responseMode h) (str "[object Undefined]"))
            (home_dataSource h) None (home_thinkingMode h)]))
  /\ (actionId = str "constructor" ->
      handleQuickAction actionId content id now h
      = handleSubmit (trimmedContent content) None id now h)
  /\ (In actionId (skipn 2 (map fst Object_prototype)) ->
      handleQuickAction actionId content id now h = (h, [RaiseTypeError]))
  /\ (~ In actionId QUICK_ACTIONS -> ~ In actionId (map fst Object_prototype) ->
      handleQuickAction actionId content id now h = (h, [])).
Proof.
  split; [reflexivity|].
  assert (T1 : length content <= 4000 -> trimmedContent content = content).
  { intro H. unfold trimmedContent.
    replace (4000 <? length content) with false; [reflexivity|].
    symmetry. apply Nat.ltb_ge. exact H. }
  assert (T2 : 4000 < length content ->
               trimmedContent content = firstn 4000 content ++ str "...").
  { intro H. unfold trimmedContent.
    replace (4000 <? length content) with true; [reflexivity|].
    symmetry. apply Nat.ltb_lt. exact H. }
  split.
  { destruct (Nat.le_gt_cases (length content) 4000) as [H|H].
    - rewrite (T1 H). lia.
    - rewrite (T2 H), length_app, length_firstn.
      change (length (str "...")) with 3. lia. }
  split; [exact T1|]. split; [exact T2|]. split; [|split; [|split; [|split]]].
  - intro H.
    assert (K : exists header,
              head_nonspace header = true
              /\ get_builder actionId
                 = Some (fun text => ReturnsString (header ++ answer_below ++ text))).
    { destruct H as [<-|[<-|[<-|[<-|[]]]]]; eexists; (split; [|reflexivity]); reflexivity. }
    destruct K as (header & Hh & Hl). exists header. intro text.
    assert (Q : quickActionText actionId content = Some text)
      by (unfold quickActionText; now rewrite Hl).
    split; [exact Q|]. intro Hp. unfold handleQuickAction. rewrite Hl.
    apply handleSubmit_accepts.
    + now apply trim_head_nonspace.
    + now apply nonempty_head_nonspace.
    + exact Hp.
  - intros -> Hp. unfold handleQuickAction.
    change (get_builder (str "toString"))
      with (Some (fun _ : jsstring => ReturnsString (str "[object Undefined]"))).
    cbv beta. apply handleSubmit_accepts; [reflexivity|reflexivity|exact Hp].
  - intros ->. reflexivity.
  - intro H. cbn [map fst Object_prototype skipn In] in H.
    repeat (destruct H as [<-|H]; [reflexivity|]). contradiction.
  - intros H1 H2. unfold handleQuickAction, get_builder.
    rewrite (own_property_none actionId quickActionPrompts)
      by (change (map fst quickActionPrompts) with QUICK_ACTIONS; exact H1).
    now rewrite (own_property_none actionId Object_prototype H2).
Qed.

Lemma quick_action_submits_witness :
  (exists header,
     quickActionText (str "checklist") (str "Use schema markup.")
     = Some (header ++ answer_below ++ str "Use schema markup."))
  /\ handleQuickAction (str "valueOf") (str "Use schema markup.") (str "m9") 0%Z home_example
     = (home_example, [RaiseTypeError])
  /\ handleQuickAction (str "rewrite") (str "Use schema markup.") (str "m9") 0%Z home_example
     = (home_example, [])
  /\ messages (fst (handleQuickAction (str "toString") (str "Use schema markup.")
                      (str "m9") 0%Z home_example))
     = messages home_example
       ++ [new_message (str "m9") 0%Z user (str "[object Undefined]") None
             (home_dataSource home_example, home_thinkingMode home_example,
              home_responseMode home_example)].
Proof.
  pose proof (quick_action_submits (str "checklist") (str "Use schema markup.")
                (str "m9") 0%Z home_example) as (_ & _ & _ & _ & A & _).
  pose proof (quick_action_submits (str "valueOf") (str "Use schema markup.")
                (str "m9") 0%Z home_example) as (_ & _ & _ & _ & _ & _ & _ & B & _).
  pose proof (quick_action_submits (str "rewrite") (str "Use schema markup.")
                (str "m9") 0%Z home_example) as (_ & _ & _ & _ & _ & _ & _ & _ & C).
  pose proof (quick_action_submits (str "toString") (str "Use schema markup.")
                (str "m9") 0%Z home_example) as (_ & _ & _ & _ & _ & D & _).
  split; [|split; [|split]].
  - destruct A as (header & H & _).
    + unfold QUICK_ACTIONS. cbn [In]. tauto.
    + exists header. exact H.
  - apply B. cbn. tauto.
  - apply C.
    + unfold QUICK_ACTIONS. cbn [In]. intros [K|[K|[K|[K|[]]]]]; discriminate K.
    + cbn [map fst Object_prototype In].
      intro K. repeat (destruct K as [K|K]; [discriminate K|]). contradiction.
  - rewrite D; reflexivity.
Defined.

Lemma questions_app ms0 h s :
  messages h = ms0 ++ s -> questions ms0 h = length (filter is_user s).
Proof. intro E. unfold questions. now rewrite E, skipn_length_app. Qed.

Lemma chat_ok_step ms0 h e :
  chat_ok ms0 h -> is_new_chat e = false ->
  chat_ok ms0 (fst (home_step h e))
  /\ questions ms0 (fst (home_step h e)) = calls (snd (home_step h e)) + questions ms0 h.
Proof.
  intros (l & Hl & H) He.
  assert (Submitting : forall text attachment id now,
            chat_ok ms0 (fst (handleSubmit text attachment id now h))
            /\ questions ms0 (fst (handleSubmit text attachment id now h))
               = calls (snd (handleSubmit text attachment id now h)) + questions ms0 h).
  { intros text attachment id now. unfold handleSubmit.
    destruct (inflight h) as [[[d t] r]|] eqn:Ef.
    - destruct H as (Hp & u & Hu & Hs & Hm). rewrite Hp, orb_true_r. cbn [fst snd].
      split; [|reflexivity]. exists l. split; [exact Hl|]. rewrite Ef. split; [exact Hp|].
      now exists u.
    - destruct H as (Hp & Hm). rewrite Hp, orb_false_r.
      match goal with |- context [if ?g then _ else _] => destruct g end; cbn [fst snd].
      + split; [|reflexivity]. exists l. split; [exact Hl|]. rewrite Ef. now split.
      + split.
        * exists l. split; [exact Hl|]. unfold with_messages. cbn [inflight isProcessing messages].
          split; [reflexivity|].
          match goal with |- context [messages h ++ [?m]] => exists m end.
          split; [reflexivity|]. split; [reflexivity|].
          rewrite Hm. now rewrite <- app_assoc.
        * rewrite (questions_app ms0 h l Hm).
          rewrite (questions_app ms0 _ (l ++ [new_message id now user
                     (if nonempty text then text
                      else match attachment with
                           | Some a => str "[Attached File: " ++ Attachment.name a ++ str "]"
                           | None => []
                           end) None
                     (home_dataSource h, home_thinkingMode h, home_responseMode h)]))
            by (unfold with_messages; cbn [messages]; rewrite Hm; now rewrite <- app_assoc).
          rewrite filter_app, length_app. cbn. lia. }
  destruct e as [text attachment id now|actionId content id now|result id now| |id|d|b|m];
    cbn [home_step]; try discriminate.
  - apply Submitting.
  - unfold handleQuickAction. destruct (get_builder actionId) as [builder|].
    + destruct (builder (trimmedContent content)) as [text| |].
      * apply Submitting.
      * cbn [fst snd]. split; [|reflexivity]. now exists l.
      * cbn [fst snd]. split; [|reflexivity]. now exists l.
    + cbn [fst snd]. split; [|reflexivity]. now exists l.
  - unfold handleSubmit_settled. destruct (inflight h) as [[[d t] r]|] eqn:Ef.
    + destruct H as (Hp & u & Hu & Hs & Hm).
      assert (Reply : forall a,
                is_ai a = true -> settings_of a = (Some d, Some t, Some r) ->
                chat_ok ms0 (with_messages h (messages h ++ [a]) false None)
                /\ questions ms0 (with_messages h (messages h ++ [a]) false None)
                   = questions ms0 h).
      { intros a Ha Hsa. split.
        - exists (l ++ [u; a]). split.
          + constructor; try assumption. congruence.
          + unfold with_messages. cbn [inflight isProcessing messages].
            split; [reflexivity|]. rewrite Hm. rewrite <- !app_assoc. reflexivity.
        - rewrite (questions_app ms0 h (l ++ [u]) Hm).
          rewrite (questions_app ms0 _ ((l ++ [u]) ++ [a]))
            by (unfold with_messages; cbn [messages]; rewrite Hm; now rewrite <- !app_assoc).
          rewrite filter_app, length_app. cbn [filter].
          replace (is_user a) with false
            by (unfold is_ai in Ha; unfold is_user; destruct (Message.sender a);
                [discriminate|reflexivity]).
          cbn [length]. lia. }
      destruct result as [value|message]; cbn [fst snd]; apply Reply; reflexivity.
    + cbn [fst snd]. split; [|reflexivity]. exists l. split; [exact Hl|]. now rewrite Ef.
  - cbn [fst snd]. split; [|reflexivity]. exists l. split; [exact Hl|exact H].
  - cbn [fst snd]. split; [|reflexivity]. exists l. split; [exact Hl|exact H].
  - cbn [fst snd]. split; [|reflexivity]. exists l. split; [exact Hl|exact H].
  - cbn [fst snd]. split; [|reflexivity]. exists l. split; [exact Hl|exact H].
Qed.

Lemma chat_ok_run ms0 es :
  forall h, chat_ok ms0 h ->
    forallb (fun e => negb (is_new_chat e)) es = true ->
    chat_ok ms0 (fst (home_run h es))
    /\ questions ms0 (fst (home_run h es)) = calls (snd (home_run h es)) + questions ms0 h.
Proof.
  induction es as [|e es IH]; intros h Hh Hes; cbn [home_run].
  - cbn [fst snd]. split; [exact Hh|reflexivity].
  - cbn [forallb] in Hes. apply andb_true_iff in Hes as [He Hes].
    apply negb_true_iff in He.
    destruct (chat_ok_step ms0 h e Hh He) as [H1 Q1].
    destruct (home_step h e) as [h1 a1]. cbn [fst snd] in *.
    destruct (IH h1 H1 Hes) as [H2 Q2].
    destruct (home_run h1 es) as [h2 a2]. cbn [fst snd] in *.
    split; [exact H2|]. unfold calls in *. rewrite filter_app, length_app. lia.
Qed.

(** X10.  The exchange of questions and replies on the page.  From a loaded
    page, along any sequence of submissions, quick actions, settled
    requests, pin toggles and setting changes in which the chat is not
    cleared: the messages added are question and reply pairs, followed by
    one unanswered question exactly while a request is running; so a
    submission made while a request is running is dropped, never two
    requests are outstanding, and generateText has been called exactly once
    for every question added.  Each reply records the data source, thinking
    mode and response mode of its question, also when the settings were
    changed while the request was running. *)
Theorem chat_exchanges (ms0 : list Message.t) (pins : list jsstring)
    (d : SEODataSource) (th : bool) (rm : ResponseMode) (es : list home_event) :
  forallb (fun e => negb (is_new_chat e)) es = true ->
  let h := fst (home_run (home_loaded ms0 pins d th rm) es) in
  let acts := snd (home_run (home_loaded ms0 pins d th rm) es) in
  chat_ok ms0 h
  /\ calls acts = questions ms0 h
  /\ (isProcessing h = true <-> inflight h <> None).
Proof.
  intros Hes h acts.
  assert (H0 : chat_ok ms0 (home_loaded ms0 pins d th rm)).
  { exists []. split; [constructor|]. cbn. split; [reflexivity|]. now rewrite app_nil_r. }
  destruct (chat_ok_run ms0 es _ H0 Hes) as [H Q]. fold h acts in H, Q.
  split; [exact H|]. split.
  - rewrite Q.
    assert (Z0 : questions ms0 (home_loaded ms0 pins d th rm) = 0).
    { unfold questions. cbn [home_loaded messages]. now rewrite skipn_all. }
    rewrite Z0. lia.
  - destruct H as (l & _ & H). destruct (inflight h) as [[[d' t'] r']|].
    + destruct H as [Hp _]. rewrite Hp. split; [discriminate|reflexivity].
    + destruct H as [Hp _]. rewrite Hp. split; [discriminate|now intros []].
Qed.

Lemma chat_exchanges_witness :
  chat_ok [] (fst (home_run (home_loaded [] [] none false balanced) events_example))
  /\ map Message.dataSource
       (messages (fst (home_run (home_loaded [] [] none false balanced) events_example)))
     = [Some none; Some none]
  /\ calls (snd (home_run (home_loaded [] [] none false balanced) events_example)) = 1.
Proof.
  split; [|split; reflexivity].
  apply (chat_exchanges [] [] none false balanced events_example). reflexivity.
Defined.

Lemma exec_whitespace_none pv s :
  match s with c :: _ => is_space c = false | [] => True end ->
  exec no_flags re_whitespace Some {| prev := pv; rest := s; caps := [] |} = None.
Proof.
  intro H. unfold re_whitespace, Plus. cbn [exec rest].
  destruct s as [|c tl]; [reflexivity|]. cbn [cs_match ignoreCase no_flags]. now rewrite H.
Qed.

Lemma exec_whitespace_some pv c tl :
  is_space c = true ->
  exists st',
    exec no_flags re_whitespace Some {| prev := pv; rest := c :: tl; caps := [] |} = Some st'
    /\ rest st' = drop_while is_space tl.
Proof.
  intro H. unfold re_whitespace, Plus. cbn [exec rest caps].
  cbn [cs_match ignoreCase no_flags]. rewrite H.
  set (st1 := {| prev := Some c; rest := tl; caps := [] |}).
  exists (adv (length (take_while is_space (rest st1))) st1). split.
  - change (Star true (Chr CSpace)) with spaces.
    now apply (exec_spaces_skip no_flags Some).
  - now rewrite rest_adv_spaces.
Qed.

Lemma length_drop_while_le p s : length (drop_while p s) <= length s.
Proof.
  induction s as [|c s IH]; cbn [drop_while length]; [lia|].
  destruct (p c); cbn [length]; lia.
Qed.

Lemma word_runs_drop s :
  word_runs_from false (drop_while is_space s) = word_runs_from false s.
Proof.
  induction s as [|c s IH]; [reflexivity|]. cbn [drop_while word_runs_from].
  destruct (is_space c) eqn:E; [exact IH|]. cbn [word_runs_from]. now rewrite E.
Qed.

Lemma word_runs_spaces b t : forallb is_space t = true -> word_runs_from b t = 0.
Proof.
  revert b. induction t as [|c t IH]; intros b H; [reflexivity|].
  cbn [forallb] in H. apply andb_true_iff in H as [H1 H2].
  cbn [word_runs_from]. rewrite H1. now apply IH.
Qed.

Lemma word_runs_app_spaces b s t :
  forallb is_space t = true -> word_runs_from b (s ++ t) = word_runs_from b s.
Proof.
  intro H. revert b. induction s as [|c s IH]; intro b; cbn [app word_runs_from].
  - now apply word_runs_spaces.
  - destruct (is_space c); now rewrite IH.
Qed.

Lemma trimEnd_split s :
  exists t, s = trimEnd s ++ t /\ forallb is_space t = true.
Proof.
  exists (rev (take_while is_space (rev s))). split.
  - unfold trimEnd. rewrite <- rev_app_distr, take_drop_while. now rewrite rev_involutive.
  - rewrite forallb_forall. intros x Hx. apply in_rev in Hx.
    pose proof (take_while_all is_space (rev s)) as A. rewrite forallb_forall in A.
    now apply A.
Qed.

Lemma word_runs_trim s : word_runs (trim s) = word_runs s.
Proof.
  unfold word_runs, trim, trimStart.
  destruct (trimEnd_split (drop_while is_space s)) as (t & E & Ht).
  rewrite <- (word_runs_drop s). rewrite E at 2. now rewrite word_runs_app_spaces.
Qed.

Lemma word_runs_app b x c y :
  is_space c = true ->
  word_runs_from b (x ++ c :: y) = word_runs_from b x + word_runs_from false y.
Proof.
  intro H. revert b. induction x as [|a x IH]; intro b; cbn [app word_runs_from].
  - now rewrite H.
  - destruct (is_space a); rewrite IH; lia.
Qed.

Lemma nonempty_snoc (cur : jsstring) c : nonempty (cur ++ [c]) = true.
Proof. destruct cur; reflexivity. Qed.

(** The pieces that are not empty, of a split at white space: one for the
    text in hand when there is some, one for every word that starts later. *)
Lemma split_whitespace_count :
  forall fuel pv cur s, length s < fuel ->
    length (filter nonempty (split_loop no_flags re_whitespace fuel pv cur s))
    = (if nonempty cur then 1 else 0) + word_runs_from (nonempty cur) s.
Proof.
  induction fuel as [|fuel IH]; intros pv cur s Hf; [lia|].
  cbn [split_loop]. destruct s as [|c tl].
  - cbn [filter word_runs_from]. destruct (nonempty cur); reflexivity.
  - cbn [length] in Hf. destruct (is_space c) eqn:Ec.
    + destruct (exec_whitespace_some pv c tl Ec) as (st' & E & R). rewrite E, R.
      pose proof (length_drop_while_le is_space tl) as Ld.
      replace (length (drop_while is_space tl) =? length (c :: tl)) with false
        by (symmetry; apply Nat.eqb_neq; cbn [length]; lia).
      cbn [andb filter word_runs_from]. rewrite Ec.
      destruct (nonempty cur); cbn [length];
        rewrite (IH _ [] (drop_while is_space tl)) by lia;
        cbn [nonempty]; rewrite word_runs_drop; lia.
    + rewrite (exec_whitespace_none pv (c :: tl) Ec).
      rewrite (IH (Some c) (cur ++ [c]) tl) by lia.
      rewrite nonempty_snoc. cbn [word_runs_from]. rewrite Ec.
      destruct (nonempty cur); lia.
Qed.

(** X9.  countWords counts words: for every text it returns the number of
    maximal runs of units that are not white space (0 for an absent, empty
    or blank text), so white space at the ends and the length of the gaps do
    not matter, and the count of two texts joined by a white-space unit is
    the sum of their counts. *)
Theorem countWords_counts_words (text : jsstring) :
  countWords (Some text) = word_runs text
  /\ countWords None = 0
  /\ (forallb is_space text = true -> countWords (Some text) = 0)
  /\ (forall other c, is_space c = true ->
        countWords (Some (text ++ c :: other))
        = countWords (Some text) + countWords (Some other)).
Proof.
  assert (A : forall t, countWords (Some t) = word_runs t).
  { intro t. destruct t as [|x t]; [reflexivity|]. cbn [countWords].
    rewrite <- (word_runs_trim (x :: t)).
    destruct (trim (x :: t)) as [|c u] eqn:E.
    - unfold split_re. now rewrite (exec_whitespace_none None [] I).
    - unfold split_re. rewrite split_whitespace_count by lia. reflexivity. }
  split; [apply A|]. split; [reflexivity|]. split.
  - intro H. rewrite A. now apply word_runs_spaces.
  - intros other c Hc. rewrite !A. now apply word_runs_app.
Qed.

Lemma countWords_counts_words_witness :
  countWords (Some (str "  rank   higher ")) = 2
  /\ countWords (Some (str "   ")) = 0.
Proof.
  split.
  - exact (proj1 (countWords_counts_words (str "  rank   higher "))).
  - apply (proj1 (proj2 (proj2 (countWords_counts_words (str "   "))))). reflexivity.
Defined.

(* --------------------------------------------------------------------- *)
(** ** The reveal of every message *)
(* --------------------------------------------------------------------- *)
















(** The ten units of the example under the two schedules: with every
    updater run during the call the text grows by threes; with the
    updaters of the later ticks run at the render the units 3 to 5 are left
    out, and the last tick adds nothing. *)
Example reveal_schedules_example :
  map (fun n => contentToShow reveal_long_example
                  (reveal_run false reveal_long_example (eager_schedule n)))
      [1; 2; 3; 4; 5]
  = [str "abc"; str "abcdef"; str "abcdefghi"; str "abcdefghij"; str "abcdefghij"]
  /\ map (fun n => contentToShow reveal_long_example
                     (reveal_run false reveal_long_example (deferred_schedule n)))
         [1; 2; 3; 4; 5]
     = [str "abc"; str "abcghi"; str "abcghij"; str "abcghij"; str "abcdefghij"].
Proof. split; reflexivity. Qed.



(* --------------------------------------------------------------------- *)
(** ** The extractor on prose, on short texts and on thinking blocks *)
(* --------------------------------------------------------------------- *)

Lemma min_len_sound fl r :
  forall st st', den fl r st st' -> min_len r + length (rest st') <= length (rest st).
Proof.
  induction r as [|cs|a IHa b IHb|a IHa b IHb|g a IHa|i a IHa| | | |a IHa];
    intros st st' H; cbn [den min_len] in *.
  - subst. lia.
  - destruct H as (c & tl & E & _ & ->). rewrite E. cbn [rest length]. lia.
  - destruct H as (mid & Ha & Hb). apply IHa in Ha. apply IHb in Hb. lia.
  - destruct H as [H|H]; [apply IHa in H|apply IHb in H]; lia.
  - destruct (den_consumes fl (Star g a) st st' H) as (t & E). rewrite E, length_app. lia.
  - destruct H as (mid & Ha & ->). apply IHa in Ha. cbn [set_cap rest]. lia.
  - destruct H as [-> _]. lia.
  - destruct H as [-> _]. lia.
  - destruct H as [-> _]. lia.
  - destruct H as (x & _ & ->). cbn [rest]. lia.
Qed.

(** A pattern matches no text shorter than its shortest match. *)
Lemma re_test_short fl r s : length s < min_len r -> re_test fl r s = false.
Proof.
  intro H. unfold re_test, re_match.
  destruct (search fl r None 0 s) as [m|] eqn:E; [|reflexivity].
  apply search_good in E as (_ & Es & st0 & st' & D & _ & R0 & _ & _ & _ & Am).
  apply min_len_sound in D. rewrite R0, <- Am, length_app in D.
  rewrite Es, !length_app in H. lia.
Qed.

Lemma length_trim_le s : length (trim s) <= length s.
Proof.
  unfold trim, trimEnd, trimStart. rewrite length_rev.
  pose proof (length_drop_while_le is_space (rev (drop_while is_space s))).
  pose proof (length_drop_while_le is_space s). rewrite length_rev in *. lia.
Qed.

(** The clean-up leaves the trimmed text when none of its labels is there. *)
Lemma cleanup_none text :
  re_test flag_i re_clean_bold text = false ->
  plain_answer (trim text) = true ->
  cleanup text = trim text.
Proof.
  intros H1 H2. unfold cleanup.
  rewrite (replace_first_none flag_i re_clean_bold _ text H1).
  unfold plain_answer in H2.
  repeat (apply andb_true_iff in H2 as [H2 ?]).
  repeat match goal with K : negb _ = true |- _ => apply negb_true_iff in K end.
  rewrite (replace_first_none flag_i re_clean_dash) by assumption. rewrite trim_idem.
  rewrite (replace_first_none flag_im re_clean_header) by assumption. rewrite trim_idem.
  rewrite (replace_first_none flag_i re_clean_plain) by assumption. now rewrite trim_idem.
Qed.

Lemma final_validation_plain text :
  final_validation text (None, trim text) = (None, trimmed_or_raw text).
Proof.
  unfold final_validation, trimmed_or_raw. cbn [truthy andb].
  destruct (trim text) as [|c t] eqn:E; [reflexivity|].
  cbn [nonempty negb orb]. now destruct (length (c :: t) <? 5).
Qed.

Lemma parse_no_match text :
  no_reasoning_markers text = true ->
  re_test flag_i re_clean_bold text = false ->
  plain_answer (trim text) = true ->
  parseMessageContent text
  = {| reasoning := None; mainContent := trimmed_or_raw text; rabbitRankPromo := None |}.
Proof.
  intros H1 H2 H3. unfold parseMessageContent, parseMessageContent_with.
  rewrite (extract_reasoning_none text H1), (cleanup_none text H2 H3).
  assert (Hq : forallb (fun p => negb (re_test flag_i p (trim text))) promoPatterns = true).
  { unfold plain_answer in H3. now apply andb_true_iff in H3 as [_ ?]. }
  rewrite (step_promo_none promoPatterns (trim text) Hq).
  now rewrite final_validation_plain.
Qed.

Lemma short_unmarked s : length s < 7 -> unmarked s = true.
Proof.
  intro H. unfold unmarked, no_reasoning_markers, plain_answer, promoPatterns,
    promoPatterns_with. cbn [forallb].
  rewrite !re_test_short; [reflexivity|..]; vm_compute min_len; lia.
Qed.

(** X12.  Texts no pattern can match.  For a text that holds none of the
    characters < [ * : - # ? (plain prose, with or without white space
    around it), and for every text shorter than 7 units whatever it holds,
    the extractor finds no reasoning and no promotion and returns the
    trimmed text as mainContent, except that a text with fewer than 5 units
    left after trimming comes back raw, white space included.  The empty
    text gives the empty mainContent. *)
Theorem prose_or_short_text (text : jsstring) :
  (existsb marker_char text = false \/ length text < 7 ->
   parseMessageContent text
   = {| reasoning := None; mainContent := trimmed_or_raw text; rabbitRankPromo := None |})
  /\ parseMessageContent []
     = {| reasoning := None; mainContent := []; rabbitRankPromo := None |}.
Proof.
  assert (P : forall t, existsb marker_char t = false \/ length t < 7 ->
            parseMessageContent t
            = {| reasoning := None; mainContent := trimmed_or_raw t;
                 rabbitRankPromo := None |}).
  { intros t H.
    assert (U : unmarked t = true /\ unmarked (trim t) = true).
    { destruct H as [H|H].
      - split; apply marker_free_unmarked; [exact H|now apply existsb_trim].
      - pose proof (length_trim_le t). split; apply short_unmarked; lia. }
    destruct U as [U1 U2]. unfold unmarked in U1, U2.
    apply andb_true_iff in U1 as [R1 A1]. apply andb_true_iff in U2 as [_ A2].
    apply parse_no_match; [exact R1| |exact A2].
    unfold plain_answer in A1. repeat (apply andb_true_iff in A1 as [A1 ?]).
    now apply negb_true_iff in A1. }
  split; [apply P|]. apply (P []). right. cbn. lia.
Qed.

Lemma prose_or_short_text_witness :
  parseMessageContent (str " ok ")
  = {| reasoning := None; mainContent := str " ok "; rabbitRankPromo := None |}.
Proof.
  apply (proj1 (prose_or_short_text (str " ok "))). right. cbn. lia.
Defined.

(* --------------------------------------------------------------------- *)
(** *** One thinking block *)
(* --------------------------------------------------------------------- *)

Lemma skipn_head_free (X : char -> bool) (P s : jsstring) i :
  existsb X P = false -> i < length P ->
  match skipn i (P ++ s) with c :: _ => X c = false | [] => True end.
Proof.
  intros HP Hi. rewrite skipn_app. replace (i - length P) with 0 by lia. cbn [skipn].
  rewrite <- (firstn_skipn i P), existsb_app in HP.
  apply orb_false_iff in HP as [_ HP].
  destruct (skipn i P) as [|c tl] eqn:Ei.
  - apply (f_equal (@length _)) in Ei. rewrite length_skipn in Ei.
    cbn [length] in Ei. lia.
  - cbn [app]. cbn [existsb] in HP. now apply orb_false_iff in HP as [? _].
Qed.

Lemma search_none_needs X fl r :
  needs X (ignoreCase fl) r = true ->
  forall s pv idx, existsb X s = false -> search fl r pv idx s = None.
Proof.
  intros Hn s pv idx Hs.
  destruct (search fl r pv idx s) as [m|] eqn:E; [|reflexivity].
  apply search_good in E as (_ & Es & st0 & st' & D & _ & R0 & _ & _ & _ & Am).
  destruct (needs_sound X fl r st0 st' Hn D) as (t & Rt & Ht).
  rewrite R0, Am in Rt. apply app_inv_tail in Rt.
  rewrite Es, !existsb_app, Rt, Ht in Hs. rewrite orb_true_r in Hs. discriminate.
Qed.

(** A lazy [\s\S]*? followed by the closing tag runs to the first closing
    tag, over a stretch without <. *)
Lemma lazy_until_close (g : mstate -> mstate) (s : mstate) T post :
  (forall st, rest (g st) = rest st) ->
  rest s = T ++ thinking_close ++ post ->
  existsb (is_char "<") T = false ->
  exists x,
    star_loop (exec flag_i (Chr CAny)) false
      (fun st' => exec flag_i (Cat [lit "</thinking>"]) Some (g st'))
      (S (length (rest s))) s = Some x
    /\ rest x = post
    /\ caps x = caps (g (adv (length T) s)).
Proof.
  intros Hg Hr HT.
  assert (Radv : rest (g (adv (length T) s)) = thinking_close ++ post)
    by (rewrite Hg, rest_adv, Hr; apply skipn_length_app).
  destruct (exec_Lit_step flag_i thinking_close thinking_close post
              (exec flag_i (Cat []) Some) (g (adv (length T) s)) Radv eq_refl eq_refl)
    as (x & E & Rx & Cx).
  exists x. split; [|split; [exact Rx|exact Cx]].
  apply (star_lazy_scan flag_i _ _ _ s (length T)).
  - lia.
  - rewrite Hr, length_app. lia.
  - intros i Hi. apply matches_prefix_none; [reflexivity|].
    rewrite Hg, rest_adv, Hr.
    apply (matches_prefix_starts (is_char "<")); [reflexivity|].
    now apply skipn_head_free.
  - rewrite exec_Cat_cons. unfold lit. fold thinking_close. rewrite E.
    now rewrite exec_Cat_nil.
Qed.

Lemma exec_thinking_at (st : mstate) T post :
  rest st = thinking_open ++ T ++ thinking_close ++ post ->
  existsb (is_char "<") T = false ->
  exists x, exec flag_i re_thinking Some st = Some x /\ rest x = post.
Proof.
  intros Hr HT. unfold re_thinking. rewrite exec_Cat_cons.
  unfold lit at 1. fold thinking_open.
  destruct (exec_Lit_step flag_i thinking_open thinking_open _
              (exec flag_i (Cat [Group 1 any_lazy; lit "</thinking>"]) Some)
              st Hr eq_refl eq_refl) as (s & E & Rs & Cs).
  rewrite E. rewrite exec_Cat_cons, exec_Group. unfold any_lazy. rewrite exec_Star.
  destruct (lazy_until_close
              (fun st' => set_cap 1 (firstn (length (rest s) - length (rest st')) (rest s)) st')
              s T post (fun _ => eq_refl) Rs HT) as (x & Hx & Rx & _).
  exists x. split; [exact Hx|exact Rx].
Qed.

Lemma exec_thinking_block_at (st : mstate) T post :
  rest st = thinking_open ++ T ++ thinking_close ++ post ->
  existsb (is_char "<") T = false ->
  exists x, exec flag_i re_thinking_block Some st = Some x /\ rest x = post.
Proof.
  intros Hr HT. unfold re_thinking_block. rewrite exec_Cat_cons.
  unfold lit at 1. fold thinking_open.
  destruct (exec_Lit_step flag_i thinking_open thinking_open _
              (exec flag_i (Cat [any_lazy; lit "</thinking>"]) Some)
              st Hr eq_refl eq_refl) as (s & E & Rs & Cs).
  rewrite E. rewrite exec_Cat_cons. unfold any_lazy. rewrite exec_Star.
  destruct (lazy_until_close (fun st' => st') s T post (fun _ => eq_refl) Rs HT)
    as (x & Hx & Rx & _).
  exists x. split; [exact Hx|exact Rx].
Qed.

(** The pieces of a text with one thinking block, for a pattern that reads
    the block where it stands and needs a < to match. *)
Lemma pieces_one_block r pre T post :
  prev_free r = true ->
  starts_in (is_char "<") true r = true ->
  needs (is_char "<") true r = true ->
  (forall st, rest st = thinking_open ++ T ++ thinking_close ++ post ->
     exists x, exec flag_i r Some st = Some x /\ rest x = post) ->
  existsb (is_char "<") pre = false ->
  existsb (is_char "<") post = false ->
  exists m,
    all_pieces flag_i r (thinking_text pre T post) = [Text pre; Match m; Text post]
    /\ m_text m = thinking_open ++ T ++ thinking_close.
Proof.
  intros Hp Hs Hn Hexec Hpre Hpost. unfold all_pieces, thinking_text.
  set (blk := thinking_open ++ T ++ thinking_close ++ post).
  assert (S0 : search flag_i r None 0 (pre ++ blk)
               = search flag_i r (last_char None pre) (0 + length pre) blk).
  { apply search_skip; [exact Hp|]. intros i Hi.
    apply (matches_prefix_starts (is_char "<")); [exact Hs|].
    now apply skipn_head_free. }
  destruct (Hexec {| prev := last_char None pre; rest := blk; caps := [] |} eq_refl)
    as (x & Ex & Rx).
  assert (S1 : search flag_i r (last_char None pre) (0 + length pre) blk
               = Some {| m_index := 0 + length pre;
                         m_text := firstn (length blk - length (rest x)) blk;
                         m_caps := caps x; m_after := rest x |}).
  { unfold blk at 1. unfold thinking_open at 1.
    change (str "<thinking>" ++ T ++ thinking_close ++ post)
      with (ch "<" :: (str "thinking>" ++ T ++ thinking_close ++ post)).
    cbn [search]. fold blk.
    change (ch "<" :: (str "thinking>" ++ T ++ thinking_close ++ post)) with blk.
    now rewrite Ex. }
  assert (Mt : firstn (length blk - length (rest x)) blk
               = thinking_open ++ T ++ thinking_close).
  { rewrite Rx. unfold blk.
    replace (thinking_open ++ T ++ thinking_close ++ post)
      with ((thinking_open ++ T ++ thinking_close) ++ post)
      by (now rewrite <- !app_assoc).
    apply firstn_app_sub. }
  rewrite Mt, Rx in S1.
  exists {| m_index := 0 + length pre; m_text := thinking_open ++ T ++ thinking_close;
            m_caps := caps x; m_after := post |}.
  split; [|reflexivity].
  cbn [pieces]. rewrite S0, S1. cbv zeta. cbn [m_text m_index m_after Nat.add].
  rewrite firstn_length_app.
  assert (P : forall fuel pv, pieces flag_i r fuel pv post = [Text post]).
  { intros [|fuel] pv; [reflexivity|]. cbn [pieces].
    now rewrite (search_none_needs (is_char "<") flag_i r Hn post pv 0 Hpost). }
  rewrite P. reflexivity.
Qed.

Lemma search_here fl r pv idx s x :
  exec fl r Some {| prev := pv; rest := s; caps := [] |} = Some x ->
  search fl r pv idx s
  = Some {| m_index := idx; m_text := firstn (length s - length (rest x)) s;
            m_caps := caps x; m_after := rest x |}.
Proof. intro H. destruct s; cbn [search]; now rewrite H. Qed.

(** The tag pattern on an opening tag and on a closing tag. *)
Lemma exec_tag_open (st : mstate) tail :
  rest st = thinking_open ++ tail ->
  exists x, exec flag_i re_thinking_tag Some st = Some x /\ rest x = tail.
Proof.
  intro Hr. unfold re_thinking_tag. rewrite exec_Cat_cons. unfold lit at 1.
  destruct (exec_Lit_step flag_i (str "<") (str "<") (str "thinking>" ++ tail)
              (exec flag_i (Cat [Opt (lit "/"); lit "thinking>"]) Some) st Hr
              eq_refl eq_refl) as (s1 & E1 & R1 & _).
  rewrite E1, exec_Cat_cons. unfold Opt. rewrite exec_Alt.
  rewrite (matches_prefix_none flag_i (lit "/")
             (exec flag_i (Cat [lit "thinking>"]) Some) s1 eq_refl).
  2:{ rewrite R1. apply (matches_prefix_starts (is_char "/")); reflexivity. }
  cbn [exec]. change (Cat [lit "thinking>"]) with (Seq (lit "thinking>") Eps).
  unfold lit.
  destruct (exec_Lit_step flag_i (str "thinking>") (str "thinking>") tail
              (exec flag_i Eps Some) s1 R1 eq_refl eq_refl) as (x & E2 & R2 & _).
  exists x. split; [|exact R2].
  change (exec flag_i (Seq (Lit (str "thinking>")) Eps) Some s1)
    with (exec flag_i (Lit (str "thinking>")) (exec flag_i Eps Some) s1).
  now rewrite E2.
Qed.

Lemma exec_tag_close (st : mstate) tail :
  rest st = thinking_close ++ tail ->
  exists x, exec flag_i re_thinking_tag Some st = Some x /\ rest x = tail.
Proof.
  intro Hr. unfold re_thinking_tag. rewrite exec_Cat_cons. unfold lit at 1.
  destruct (exec_Lit_step flag_i (str "<") (str "<") (str "/thinking>" ++ tail)
              (exec flag_i (Cat [Opt (lit "/"); lit "thinking>"]) Some) st Hr
              eq_refl eq_refl) as (s1 & E1 & R1 & _).
  rewrite E1, exec_Cat_cons. unfold Opt. rewrite exec_Alt. unfold lit at 1.
  destruct (exec_Lit_step flag_i (str "/") (str "/") (str "thinking>" ++ tail)
              (exec flag_i (Cat [lit "thinking>"]) Some) s1 R1 eq_refl eq_refl)
    as (s2 & E2 & R2 & _).
  rewrite E2. rewrite exec_Cat_cons. unfold lit.
  destruct (exec_Lit_step flag_i (str "thinking>") (str "thinking>") tail
              (exec flag_i (Cat []) Some) s2 R2 eq_refl eq_refl) as (x & E3 & R3 & _).
  rewrite E3, exec_Cat_nil. exists x. split; [reflexivity|exact R3].
Qed.

(** m.replace(/<\/?thinking>/gi, '') on a matched block leaves what stands
    between the two tags. *)
Lemma strip_tags T :
  existsb (is_char "<") T = false ->
  replace_all flag_i re_thinking_tag delete (thinking_open ++ T ++ thinking_close) = T.
Proof.
  intro HT. unfold replace_all, all_pieces.
  set (s := thinking_open ++ T ++ thinking_close).
  destruct (exec_tag_open {| prev := None; rest := s; caps := [] |}
              (T ++ thinking_close) eq_refl) as (x1 & E1 & R1).
  pose proof (search_here flag_i re_thinking_tag None 0 s x1 E1) as S1.
  rewrite R1 in S1.
  assert (M1 : firstn (length s - length (T ++ thinking_close)) s = thinking_open)
    by apply firstn_app_sub.
  rewrite M1 in S1.
  cbn [pieces]. rewrite S1. cbv zeta. cbn [m_text m_index m_after firstn].
  change thinking_open with (ch "<" :: str "thinking>") at 1. cbv iota.
  rewrite (pieces_fuel flag_i re_thinking_tag (length s) (S (length (T ++ thinking_close))))
    by (unfold s; rewrite !length_app; cbn [length]; change (length thinking_open) with 10; lia).
  set (pv := last_char None ([] ++ thinking_open)).
  assert (S2 : search flag_i re_thinking_tag pv 0 (T ++ thinking_close)
               = search flag_i re_thinking_tag (last_char pv T) (0 + length T)
                   thinking_close).
  { apply search_skip; [reflexivity|]. intros i Hi.
    apply (matches_prefix_starts (is_char "<")); [reflexivity|].
    now apply skipn_head_free. }
  destruct (exec_tag_close {| prev := last_char pv T; rest := thinking_close; caps := [] |}
              [] eq_refl) as (x2 & E2 & R2).
  pose proof (search_here flag_i re_thinking_tag (last_char pv T) (0 + length T)
                thinking_close x2 E2) as S3.
  rewrite R2 in S3.
  change (firstn (length thinking_close - length (@nil char)) thinking_close)
    with thinking_close in S3.
  cbn [pieces]. rewrite S2, S3. cbv zeta. cbn [m_text m_index m_after Nat.add].
  rewrite firstn_length_app.
  assert (P : forall fuel pv', pieces flag_i re_thinking_tag fuel pv' [] = [Text []]).
  { intros [|fuel] pv'; reflexivity. }
  rewrite P.
  change thinking_close with (ch "<" :: str "/thinking>"). cbv iota.
  cbn [map render delete concat app]. apply app_nil_r.
Qed.

Lemma step_thinking_block r0 pre T post :
  existsb (is_char "<") pre = false ->
  existsb (is_char "<") T = false ->
  existsb (is_char "<") post = false ->
  step_thinking (r0, thinking_text pre T post)
  = (if nonempty (trim T) then Some (trim T) else r0, trim (pre ++ post)).
Proof.
  intros Hpre HT Hpost. unfold step_thinking, match_all, replace_all.
  destruct (pieces_one_block re_thinking pre T post eq_refl eq_refl eq_refl
              (fun st H => exec_thinking_at st T post H HT) Hpre Hpost) as (m & P & M).
  destruct (pieces_one_block re_thinking_block pre T post eq_refl eq_refl eq_refl
              (fun st H => exec_thinking_block_at st T post H HT) Hpre Hpost)
    as (m' & P' & M').
  rewrite P, P'. cbn [matched_texts flat_map app map]. rewrite M.
  fold (replace_all flag_i re_thinking_tag delete (thinking_open ++ T ++ thinking_close)).
  rewrite (strip_tags T HT).
  cbn [filter map render delete concat app]. rewrite app_nil_r.
  destruct (trim T) as [|c t]; reflexivity.
Qed.

Lemma step_split_none fl r rs m : re_test fl r m = false -> step_split fl r (rs, m) = (rs, m).
Proof.
  intro H. unfold step_split. rewrite (re_test_false fl r m H).
  now destruct (negb (truthy rs)).
Qed.

(** After the thinking blocks, the later patterns of the cascade leave a
    text alone in which none of them matches. *)
Lemma cascade_rest_none rs m :
  no_reasoning_markers m = true ->
  step_header (step_dash (step_thinking_answer (step_plain
    (step_bold (step_bracket (rs, m)))))) = (rs, m).
Proof.
  unfold no_reasoning_markers. intro H.
  repeat (apply andb_true_iff in H as [H ?]).
  repeat match goal with K : negb _ = true |- _ => apply negb_true_iff in K end.
  assert (E2 : step_bracket (rs, m) = (rs, m)).
  { unfold step_bracket. now rewrite re_test_false. }
  assert (E3 : step_bold (rs, m) = (rs, m)).
  { unfold step_bold. now rewrite re_test_false. }
  assert (E7 : step_header (rs, m) = (rs, m)).
  { unfold step_header. rewrite (re_test_false flag_im re_header m) by assumption.
    now destruct (negb (truthy rs)). }
  rewrite E2, E3. unfold step_plain, step_thinking_answer, step_dash.
  rewrite !step_split_none by assumption. exact E7.
Qed.

(** X13.  One thinking block.  For a text pre <thinking> T </thinking> post
    in which pre and post hold none of the characters < [ * : - # ? and T
    holds no <, the extractor returns the trimmed T as reasoning (none when
    T is blank), the text around the block, joined and trimmed, as
    mainContent, and no promotion.  The one exception is the final
    validation: when fewer than 5 units are left around the block and the
    trimmed T has 20 units or fewer, the raw text comes back, tags
    included, with no reasoning. *)
Theorem thinking_block_extracted (pre T post : jsstring) :
  existsb marker_char pre = false ->
  existsb (is_char "<") T = false ->
  existsb marker_char post = false ->
  parseMessageContent (thinking_text pre T post)
  = if (length (trim (pre ++ post)) <? 5) && negb (20 <? length (trim T))
    then {| reasoning := None; mainContent := thinking_text pre T post;
            rabbitRankPromo := None |}
    else {| reasoning := if nonempty (trim T) then Some (trim T) else None;
            mainContent := trim (pre ++ post); rabbitRankPromo := None |}.
Proof.
  intros Hpre HT Hpost.
  assert (Lt : forall c, is_char "<" c = true -> marker_char c = true).
  { intros c H. unfold marker_char. now rewrite H. }
  assert (Hmain : existsb marker_char (trim (pre ++ post)) = false).
  { apply existsb_trim. rewrite existsb_app, Hpre, Hpost. reflexivity. }
  pose proof (marker_free_unmarked _ Hmain) as U. unfold unmarked in U.
  apply andb_true_iff in U as [U1 U2].
  unfold parseMessageContent, parseMessageContent_with, extract_reasoning.
  rewrite (step_thinking_block None pre T post
             (existsb_weaken (is_char "<") marker_char pre Lt Hpre) HT
             (existsb_weaken (is_char "<") marker_char post Lt Hpost)).
  rewrite (cascade_rest_none _ _ U1).
  rewrite (cleanup_plain (pre ++ post)) by (now apply plain_answer_free, existsb_weaken with (Y := marker_char);
    [intros c Hc; unfold marker_char; rewrite Hc; now rewrite !orb_true_r|]).
  assert (Hq : forallb (fun p => negb (re_test flag_i p (trim (pre ++ post)))) promoPatterns
               = true).
  { unfold plain_answer in U2. now apply andb_true_iff in U2 as [_ ?]. }
  rewrite (step_promo_none promoPatterns _ Hq).
  unfold final_validation.
  replace (negb (nonempty (trim (pre ++ post))) || (length (trim (pre ++ post)) <? 5))
    with (length (trim (pre ++ post)) <? 5)
    by (destruct (trim (pre ++ post)); reflexivity).
  destruct (length (trim (pre ++ post)) <? 5); cbn [andb]; [|reflexivity].
  destruct (trim T) as [|c t] eqn:ET; [reflexivity|].
  cbn [nonempty truthy andb]. now destruct (20 <? length (c :: t)).
Qed.

Lemma thinking_block_extracted_witness :
  parseMessageContent (thinking_text thinking_pre thinking_T thinking_post)
  = {| reasoning := Some (str "The user wants a checklist.");
       mainContent := str "Sure.  Start with a crawl."; rabbitRankPromo := None |}.
Proof.
  rewrite (thinking_block_extracted thinking_pre thinking_T thinking_post);
    reflexivity.
Defined.

(* --------------------------------------------------------------------- *)
(** ** The print export on prose, and the escape pass *)
(* --------------------------------------------------------------------- *)

Lemma cs_within_sound X ic cs c :
  cs_within X ic cs = true -> cs_match ic cs c = true -> X c = true.
Proof.
  destruct cs; try discriminate; cbn [cs_within cs_match]; intros H M.
  - apply andb_true_iff in H as [H1 H2].
    now rewrite (caseless_eq_char ic c0 c H1 M).
  - unfold is_digit in M. apply andb_true_iff in M as [M1 M2].
    apply N.leb_le in M1, M2. cbn [forallb] in H.
    repeat (apply andb_true_iff in H as [? H]).
    assert (K : In c [48; 49; 50; 51; 52; 53; 54; 55; 56; 57]%N).
    { assert (E : (c = 48 \/ c = 49 \/ c = 50 \/ c = 51 \/ c = 52 \/ c = 53 \/ c = 54
                   \/ c = 55 \/ c = 56 \/ c = 57)%N) by lia.
      cbn [In]. intuition congruence. }
    cbn [In] in K.
    repeat (destruct K as [<- | K]; [assumption|]). contradiction.
  - apply existsb_exists in M as (a & Ha & M). rewrite forallb_forall in H.
    apply H in Ha. apply andb_true_iff in Ha as [H1 H2].
    now rewrite (caseless_eq_char ic a c H1 M).
Qed.

Lemma requires_sound X fl r :
  forall st st', requires X (ignoreCase fl) r = true -> den fl r st st' ->
    exists t, rest st = t ++ rest st' /\ existsb X t = true.
Proof.
  induction r as [|cs|a IHa b IHb|a IHa b IHb|g a IHa|i a IHa| | | |a IHa];
    intros st st' Hn H; cbn [requires den] in *; try discriminate.
  - destruct H as (x & tl & E & M & ->). exists [x]. split; [exact E|].
    cbn [existsb]. now rewrite (cs_within_sound X _ cs x Hn M).
  - destruct H as (mid & Ha & Hb).
    destruct (den_consumes fl a _ _ Ha) as (ta & Ea).
    destruct (den_consumes fl b _ _ Hb) as (tb & Eb).
    apply orb_true_iff in Hn as [Hn|Hn].
    + destruct (IHa _ _ Hn Ha) as (t & E & Ht). exists (t ++ tb).
      split; [now rewrite E, Eb, app_assoc|]. rewrite existsb_app, Ht. reflexivity.
    + destruct (IHb _ _ Hn Hb) as (t & E & Ht). exists (ta ++ t).
      split; [now rewrite Ea, E, app_assoc|]. rewrite existsb_app, Ht.
      apply orb_true_r.
  - apply andb_true_iff in Hn as [Hn1 Hn2].
    destruct H as [H|H]; [now apply IHa|now apply IHb].
  - destruct H as (mid & Ha & ->).
    destruct (IHa _ _ Hn Ha) as (t & E & Ht). exists t. split; [exact E|exact Ht].
Qed.

Lemma re_test_requires X fl r s :
  requires X (ignoreCase fl) r = true -> existsb X s = false -> re_test fl r s = false.
Proof.
  intros Hn Hs. unfold re_test, re_match.
  destruct (search fl r None 0 s) as [m|] eqn:E; [|reflexivity].
  apply search_good in E as (_ & Es & st0 & st' & D & _ & R0 & _ & _ & _ & Am).
  destruct (requires_sound X fl r st0 st' Hn D) as (t & Rt & Ht).
  rewrite R0, Am in Rt. apply app_inv_tail in Rt.
  rewrite Es, !existsb_app, Rt, Ht in Hs. rewrite orb_true_r in Hs. discriminate.
Qed.

(** A replacement with a pattern that does not match changes nothing. *)
Lemma replace_all_none fl r f s : re_test fl r s = false -> replace_all fl r f s = s.
Proof.
  intro H. apply re_test_false in H. unfold re_match in H.
  unfold replace_all, all_pieces. cbn [pieces]. rewrite H. cbn. apply app_nil_r.
Qed.

Lemma replace_all_prose fl r f s :
  requires markdown_char (ignoreCase fl) r = true ->
  existsb markdown_char s = false -> replace_all fl r f s = s.
Proof.
  intros H1 H2. apply replace_all_none. now apply (re_test_requires markdown_char).
Qed.

Lemma search_Chr_Lit fl cs :
  forall s pv idx,
    search fl (Chr cs) pv idx s = search fl (Seq (Chr cs) Eps) pv idx s.
Proof.
  induction s as [|x tl IH]; intros pv idx; cbn [search exec rest]; [reflexivity|].
  destruct (cs_match (ignoreCase fl) cs x); [reflexivity|]. apply IH.
Qed.

Lemma pieces_Chr_Lit fl cs :
  forall fuel pv s,
    pieces fl (Chr cs) fuel pv s = pieces fl (Seq (Chr cs) Eps) fuel pv s.
Proof.
  induction fuel as [|fuel IH]; intros pv s; [reflexivity|]. cbn [pieces].
  rewrite search_Chr_Lit.
  destruct (search fl (Seq (Chr cs) Eps) pv 0 s) as [m|]; [|reflexivity].
  destruct (m_text m); [destruct (m_after m)|]; now rewrite ?IH.
Qed.

(** Inside a paragraph every line feed becomes a line break. *)
Lemma replace_nl_spec block :
  replace_all no_flags re_nl (fun _ => str "<br>") block = flat_map br_of block.
Proof.
  unfold replace_all, all_pieces, re_nl. rewrite pieces_Chr_Lit.
  change (Seq (Chr (CLit nl)) Eps) with (Lit [nl]).
  rewrite pieces_char by lia. reflexivity.
Qed.

Lemma starts_with_head p c s x t :
  p = c :: s -> starts_with p (x :: t) = true -> x = c.
Proof.
  intros -> H. cbn [starts_with] in H. apply andb_true_iff in H as [H _].
  apply N.eqb_eq in H. now subst.
Qed.

Lemma wrap_block_prose block :
  existsb markdown_char block = false -> wrap_block block = paragraph block.
Proof.
  intro H. unfold wrap_block, paragraph.
  destruct (nonempty (trim block)); [|reflexivity]. cbn [andb].
  assert (K : forallb (fun t => negb (starts_with (str t) block)) block_level = true).
  { destruct block as [|x t]; [reflexivity|].
    cbn [existsb] in H. apply orb_false_iff in H as [Hx _].
    assert (Lt : x <> ch "<").
    { intros ->. discriminate Hx. }
    unfold block_level. cbn [forallb].
    repeat match goal with
    | |- context [starts_with (str ?t) (x :: ?l)] =>
        let E := fresh "E" in
        destruct (starts_with (str t) (x :: l)) eqn:E;
        [exfalso; apply Lt; exact (starts_with_head (str t) (ch "<") _ x l eq_refl E)|]
    end.
    reflexivity. }
  rewrite K. now rewrite replace_nl_spec.
Qed.

Lemma existsb_push_head (X : char -> bool) c l :
  existsb (existsb X) (push_head c l) = X c || existsb (existsb X) l.
Proof.
  destruct l as [|cur more]; cbn [push_head existsb]; [now rewrite !orb_false_r|].
  now rewrite orb_assoc.
Qed.

Lemma split_nlnl_chars (X : char -> bool) :
  forall n s, length s <= n -> existsb X s = false ->
    existsb (existsb X) (split_nlnl s) = false.
Proof.
  induction n as [|n IH]; intros s Hl H.
  - destruct s; [reflexivity|cbn [length] in Hl; lia].
  - destruct s as [|x [|y s]]; [reflexivity| |].
    + cbn [split_nlnl existsb] in *. now rewrite H.
    + rewrite split_nlnl_cons2. cbn [existsb] in H.
      apply orb_false_iff in H as [Hx H].
      destruct ((x =? nl) && (y =? nl))%N.
      * cbn [existsb]. apply IH; [cbn [length] in *; lia|].
        cbn [existsb] in H. now apply orb_false_iff in H as [_ ?].
      * rewrite existsb_push_head, Hx. apply IH; [cbn [length] in *; lia|exact H].
Qed.

(** X15.  The print export of prose.  For a text that holds none of the
    characters & # * _ ` [ - > | < no digit and none of the three units of
    the bullet class, every pass before the last leaves the text as it is,
    and the result is its blocks (the pieces between blank lines) joined by
    a line feed, each block that is not blank wrapped in one paragraph
    element with its line feeds turned into line breaks, and blank blocks
    kept as they are. *)
Theorem markdownToHTML_prose (markdown : jsstring) :
  existsb markdown_char markdown = false ->
  markdownToHTML markdown = join [nl] (map paragraph (split_nlnl markdown)).
Proof.
  intro H. unfold markdownToHTML, md_escape, md_headers, md_emphasis, md_code,
    md_links, md_rules, md_lists, md_quotes, md_tables, md_paragraphs.
  cbv zeta.
  repeat (rewrite (replace_all_prose _ _ _ markdown); [|reflexivity|exact H]).
  f_equal. apply map_ext_in. intros block Hb. apply wrap_block_prose.
  pose proof (split_nlnl_chars markdown_char (length markdown) markdown
                (Nat.le_refl _) H) as K.
  destruct (existsb markdown_char block) eqn:E; [|reflexivity].
  assert (existsb (existsb markdown_char) (split_nlnl markdown) = true)
    by (apply existsb_exists; exists block; now split).
  congruence.
Qed.

Lemma markdownToHTML_prose_witness :
  markdownToHTML prose_example
  = p_open ++ str "Use schema markup.<br>Keep titles short.</p>" ++ [nl]
    ++ p_open ++ str "Thanks!</p>".
Proof.
  rewrite (markdownToHTML_prose prose_example); reflexivity.
Defined.

Lemma escape_cons c s : flat_map escape_amp (c :: s) = escape_amp c ++ flat_map escape_amp s.
Proof. reflexivity. Qed.

Lemma unescape_escape :
  forall fuel s, length (flat_map escape_amp s) <= fuel ->
    unescape_amp fuel (flat_map escape_amp s) = s.
Proof.
  induction fuel as [|fuel IH]; intros s Hf.
  - destruct s as [|c s]; [reflexivity|]. rewrite escape_cons, length_app in Hf.
    unfold escape_amp in Hf at 1. destruct (c =? ch "&")%N; cbn in Hf; lia.
  - destruct s as [|c s]; [reflexivity|]. rewrite escape_cons in *.
    unfold escape_amp at 1. unfold escape_amp in Hf at 1.
    destruct (N.eqb_spec c (ch "&")) as [->|Hc].
    + change (str "&amp;" ++ flat_map escape_amp s)
        with (ch "&" :: str "amp;" ++ flat_map escape_amp s) in *.
      cbn [unescape_amp]. rewrite N.eqb_refl.
      replace (starts_with (str "amp;") (str "amp;" ++ flat_map escape_amp s)) with true
        by reflexivity.
      cbn [andb]. change (skipn 4 (str "amp;" ++ flat_map escape_amp s))
        with (flat_map escape_amp s).
      rewrite IH; [reflexivity|]. cbn [length] in Hf. rewrite length_app in Hf. lia.
    + cbn [app unescape_amp]. apply N.eqb_neq in Hc. rewrite Hc. cbn [andb].
      rewrite IH; [reflexivity|]. cbn [app length] in Hf. lia.
Qed.

Lemma escape_amp_followed s :
  forall pre post,
    flat_map escape_amp s = pre ++ ch "&" :: post -> starts_with (str "amp;") post = true.
Proof.
  induction s as [|c s IH]; intros pre post H.
  - destruct pre; discriminate H.
  - rewrite escape_cons in H. unfold escape_amp in H at 1.
    destruct (N.eqb_spec c (ch "&")) as [->|Hc].
    + change (str "&amp;" ++ flat_map escape_amp s)
        with (ch "&" :: ch "a" :: ch "m" :: ch "p" :: ch ";" :: flat_map escape_amp s) in H.
      destruct pre as [|x0 pre].
      { cbn [app] in H. injection H as <-. reflexivity. }
      cbn [app] in H. injection H as _ H.
      destruct pre as [|x1 pre]; [discriminate H|]. cbn [app] in H. injection H as _ H.
      destruct pre as [|x2 pre]; [discriminate H|]. cbn [app] in H. injection H as _ H.
      destruct pre as [|x3 pre]; [discriminate H|]. cbn [app] in H. injection H as _ H.
      destruct pre as [|x4 pre]; [discriminate H|]. cbn [app] in H. injection H as _ H.
      now apply (IH pre post).
    + destruct pre as [|x pre]; cbn [app] in H.
      * injection H as E _. exfalso. apply Hc. exact E.
      * injection H as _ H. now apply (IH pre post).
Qed.

Lemma escape_length s :
  length (flat_map escape_amp s) = length s + 4 * count (ch "&") s.
Proof.
  induction s as [|c s IH]; [reflexivity|]. rewrite escape_cons, length_app, IH.
  cbn [count length]. unfold escape_amp.
  destruct (c =? ch "&")%N; [change (length (str "&amp;")) with 5|cbn [length]]; lia.
Qed.

(** X14.  The escape pass loses nothing.  Turning every &amp; of its output
    back into & gives the input again, so two different texts never escape
    to the same text; every & of the output is followed by amp; ; and the
    output is longer than the input by four units for each & of the
    input. *)
Theorem md_escape_lossless (s : jsstring) :
  unescape_amp (length (md_escape s)) (md_escape s) = s
  /\ (forall t, md_escape s = md_escape t -> s = t)
  /\ (forall pre post, md_escape s = pre ++ ch "&" :: post ->
        starts_with (str "amp;") post = true)
  /\ length (md_escape s) = length s + 4 * count (ch "&") s.
Proof.
  assert (R : forall x, unescape_amp (length (md_escape x)) (md_escape x) = x).
  { intro x. rewrite md_escape_spec. now apply unescape_escape. }
  split; [apply R|]. split; [|split].
  - intros t E. rewrite <- (R s), <- (R t). now rewrite E.
  - intros pre post. rewrite md_escape_spec. apply escape_amp_followed.
  - rewrite md_escape_spec. apply escape_length.
Qed.

Lemma md_escape_lossless_witness :
  starts_with (str "amp;") (str "amp;amp; B") = true
  /\ md_escape (str "A &amp; B") = str "A &amp;amp; B".
Proof.
  split; [|reflexivity].
  refine (proj1 (proj2 (proj2 (md_escape_lossless (str "A &amp; B"))))
            (str "A ") (str "amp;amp; B") _).
  reflexivity.
Defined.

(* --------------------------------------------------------------------- *)
(** ** The print export of a table *)
(* --------------------------------------------------------------------- *)

Lemma star_den_rest (D : mstate -> mstate -> Prop) st st' :
  (forall a b, D a b -> rest a = rest st -> rest b = rest a) ->
  star_den D st st' -> rest st' = rest st.
Proof.
  intros H S. induction S as [st|st mid st' H1 S IH]; [reflexivity|].
  assert (E : rest mid = rest st) by (apply H; [exact H1|reflexivity]).
  rewrite <- E. apply IH. intros a b Dab Ea. apply H; [exact Dab|congruence].
Qed.

Lemma avoids_sound p fl r :
  forall st st' tl, avoids p (ignoreCase fl) r = true -> den fl r st st' ->
    rest st = p :: tl -> rest st' = rest st.
Proof.
  induction r as [|cs|a IHa b IHb|a IHa b IHb|g a IHa|i a IHa| | | |a IHa];
    intros st st' tl Ha H E; cbn [avoids den] in *.
  - now subst.
  - destruct H as (c & tl' & E' & M & ->). rewrite E in E'. injection E' as <- <-.
    rewrite M in Ha. discriminate.
  - destruct H as (mid & H1 & H2). apply andb_true_iff in Ha as [A1 A2].
    pose proof (IHa _ _ _ A1 H1 E) as Em.
    apply orb_true_iff in A2 as [A2|A2].
    + apply Nat.ltb_lt in A2. apply min_len_sound in H1. rewrite Em in H1. lia.
    + rewrite <- Em. apply (IHb _ _ tl A2 H2). congruence.
  - apply andb_true_iff in Ha as [A1 A2].
    destruct H as [H|H]; [now apply (IHa _ _ tl)|now apply (IHb _ _ tl)].
  - apply star_den_rest with (D := den fl a); [|exact H].
    intros x y Dxy Ex. apply (IHa _ _ tl Ha Dxy). congruence.
  - destruct H as (mid & H1 & ->). cbn [set_cap rest]. now apply (IHa _ _ tl).
  - now destruct H as [-> _].
  - now destruct H as [-> _].
  - now destruct H as [-> _].
  - destruct H as (x & _ & ->). reflexivity.
Qed.

(** A pattern anchored at the start of a line, whose matches read at least
    one unit and cannot start with [p], matches nowhere in a text all of
    whose lines start with [p]. *)
Lemma search_bol_none p fl r :
  avoids p (ignoreCase fl) r = true -> 0 < min_len r ->
  forall s pv idx, lines_lead p pv s = true -> search fl (Seq Bol r) pv idx s = None.
Proof.
  intros Ha Hm. induction s as [|c tl IH]; intros pv idx Hl.
  - cbn [search]. destruct (exec fl (Seq Bol r) Some _) as [x|] eqn:E; [|reflexivity].
    apply exec_sound in E as (st' & D & _). cbn [den] in D.
    destruct D as (mid & (-> & _) & D). apply min_len_sound in D. cbn [rest length] in D. lia.
  - cbn [search]. cbn [lines_lead] in Hl. apply andb_true_iff in Hl as [H1 H2].
    destruct (exec fl (Seq Bol r) Some _) as [x|] eqn:E; [|now apply IH].
    exfalso. apply exec_sound in E as (st' & D & _). cbn [den] in D.
    destruct D as (mid & (-> & B) & D).
    assert (L : line_start pv = true).
    { unfold at_bol in B. cbn [prev] in B. destruct pv as [q|]; [|reflexivity].
      apply andb_true_iff in B as [_ B]. exact B. }
    rewrite L in H1. cbn [negb orb] in H1. apply N.eqb_eq in H1. subst c.
    pose proof (avoids_sound p fl r _ _ tl Ha D eq_refl) as Er.
    apply min_len_sound in D. rewrite Er in D. lia.
Qed.

Lemma replace_all_bol p fl r f s :
  avoids p (ignoreCase fl) r = true -> 0 < min_len r ->
  lines_lead p None s = true -> replace_all fl (Seq Bol r) f s = s.
Proof.
  intros Ha Hm Hl. apply replace_all_none. unfold re_test, re_match.
  now rewrite (search_bol_none p fl r Ha Hm s None 0 Hl).
Qed.

Lemma star_greedy_none fl cs k :
  forall n st L,
    length (rest st) < n ->
    forallb (cs_match (ignoreCase fl) cs) (firstn L (rest st)) = true ->
    L <= length (rest st) ->
    match rest (adv L st) with
    | c :: _ => cs_match (ignoreCase fl) cs c = false
    | [] => True
    end ->
    (forall i, i <= L -> k (adv i st) = None) ->
    star_loop (exec fl (Chr cs)) true k n st = None.
Proof.
  induction n as [|n IH]; intros st L Hn Hall HL Hstop Hnone; [lia|].
  cbn [star_loop]. rewrite exec_Chr. destruct L as [|L].
  - simpl in Hstop. pose proof (Hnone 0 (Nat.le_refl 0)) as K0. simpl in K0.
    destruct (rest st) as [|c tl] eqn:E; [exact K0|].
    rewrite Hstop. exact K0.
  - destruct (rest st) as [|c tl] eqn:E; [simpl in HL; lia|].
    simpl in Hall. apply andb_true_iff in Hall as [Hc Hall]. rewrite Hc.
    cbn [rest]. replace (length tl <? length (c :: tl)) with true
      by (symmetry; apply Nat.ltb_lt; simpl; lia).
    set (st1 := {| prev := Some c; rest := tl; caps := caps st |}).
    assert (A : forall i, adv (S i) st = adv i st1)
      by (intro i; apply adv_S; exact E).
    rewrite (IH st1 L).
    + apply (Hnone 0). lia.
    + simpl in *. lia.
    + exact Hall.
    + simpl in *. lia.
    + rewrite <- A. exact Hstop.
    + intros i Hi. rewrite <- A. apply Hnone. lia.
Qed.

(** The greedy repetition of a class gives back units until the
    continuation succeeds. *)
Lemma star_greedy_back fl cs k x :
  forall n st L j,
    length (rest st) < n ->
    forallb (cs_match (ignoreCase fl) cs) (firstn L (rest st)) = true ->
    L <= length (rest st) ->
    match rest (adv L st) with
    | c :: _ => cs_match (ignoreCase fl) cs c = false
    | [] => True
    end ->
    j <= L ->
    (forall i, j < i <= L -> k (adv i st) = None) ->
    k (adv j st) = Some x ->
    star_loop (exec fl (Chr cs)) true k n st = Some x.
Proof.
  induction n as [|n IH]; intros st L j Hn Hall HL Hstop Hj Hnone Hk; [lia|].
  cbn [star_loop]. rewrite exec_Chr. destruct L as [|L].
  - assert (j = 0) by lia. subst j. simpl in Hstop, Hk.
    destruct (rest st) as [|c tl] eqn:E; [exact Hk|].
    rewrite Hstop. exact Hk.
  - destruct (rest st) as [|c tl] eqn:E; [simpl in HL; lia|].
    simpl in Hall. apply andb_true_iff in Hall as [Hc Hall]. rewrite Hc.
    cbn [rest]. replace (length tl <? length (c :: tl)) with true
      by (symmetry; apply Nat.ltb_lt; simpl; lia).
    set (st1 := {| prev := Some c; rest := tl; caps := caps st |}).
    assert (A : forall i, adv (S i) st = adv i st1)
      by (intro i; apply adv_S; exact E).
    destruct j as [|j].
    + rewrite (star_greedy_none fl cs k n st1 L).
      * exact Hk.
      * simpl in *. lia.
      * exact Hall.
      * simpl in *. lia.
      * rewrite <- A. exact Hstop.
      * intros i Hi. rewrite <- A. apply Hnone. lia.
    + rewrite (IH st1 L j); try assumption; try reflexivity.
      * simpl in *. lia.
      * simpl in *. lia.
      * rewrite <- A. exact Hstop.
      * lia.
      * intros i Hi. rewrite <- A. apply Hnone. lia.
      * rewrite <- A. exact Hk.
Qed.

Lemma not_nl_class c :
  cs_match (ignoreCase no_flags) (CNoneOf [nl]) c = negb (c =? nl)%N.
Proof.
  cbn [cs_match ignoreCase no_flags existsb eq_char]. rewrite orb_false_r.
  now rewrite N.eqb_sym.
Qed.

Lemma forallb_not_nl body :
  forallb (cs_match (ignoreCase no_flags) (CNoneOf [nl])) body
  = forallb (fun c => negb (c =? nl)%N) body.
Proof.
  induction body as [|c body IH]; [reflexivity|].
  cbn [forallb]. now rewrite not_nl_class, IH.
Qed.

Lemma cell_char_not_nl c : cell_char c = true -> negb (c =? nl)%N = true.
Proof.
  unfold cell_char, is_line_terminator. intro H. apply andb_true_iff in H as [H _].
  apply negb_true_iff in H. apply negb_true_iff.
  destruct (N.eqb_spec c nl) as [->|]; [discriminate H|reflexivity].
Qed.

Lemma exec_row_end k st tail :
  rest st = ch "|" :: nl :: tail ->
  exec no_flags row_end k st = k {| prev := Some nl; rest := tail; caps := caps st |}.
Proof.
  intro E. unfold row_end, lit, Lit. cbn [str map list_ascii_of_string Cat fold_right exec].
  rewrite E. cbn. reflexivity.
Qed.

Lemma exec_row_end_nl k st tail :
  rest st = nl :: tail -> exec no_flags row_end k st = None.
Proof.
  intro E. unfold row_end, lit, Lit. cbn [str map list_ascii_of_string Cat fold_right exec].
  rewrite E. reflexivity.
Qed.

Lemma exec_Seq fl a b k st : exec fl (Seq a b) k st = exec fl a (exec fl b k) st.
Proof. reflexivity. Qed.

Lemma exec_Eps fl k st : exec fl Eps k st = k st.
Proof. reflexivity. Qed.

Lemma table_row_eq :
  table_row
  = Seq (Seq (Chr (CLit (ch "|"))) Eps)
      (Seq (Seq (Chr (CNoneOf [nl])) (Star true (Chr (CNoneOf [nl])))) row_end).
Proof. reflexivity. Qed.

(** The row pattern reads a row and its line feed. *)
Lemma exec_table_row k x st body tail :
  body <> [] -> forallb (fun c => negb (c =? nl)%N) body = true ->
  rest st = row_of body ++ nl :: tail ->
  k {| prev := Some nl; rest := tail; caps := caps st |} = Some x ->
  exec no_flags table_row k st = Some x.
Proof.
  intros Hne Hb E Hk. destruct body as [|b0 body]; [congruence|].
  cbn [forallb] in Hb. apply andb_true_iff in Hb as [Hb0 Hb].
  destruct st as [pv rs cp]. cbn [rest caps] in *. subst rs.
  rewrite table_row_eq. unfold row_of. cbn [app].
  rewrite !exec_Seq, exec_Chr. cbn [rest caps].
  replace (cs_match (ignoreCase no_flags) (CLit (ch "|")) (ch "|")) with true by reflexivity.
  rewrite exec_Eps, !exec_Seq, exec_Chr. cbn [rest caps].
  rewrite not_nl_class, Hb0, exec_Star. cbn [rest].
  match goal with
  | |- star_loop _ _ _ _ ?s = _ => set (st2 := s)
  end.
  assert (R2 : rest st2 = (body ++ [ch "|"]) ++ nl :: tail)
    by reflexivity.
  apply (star_greedy_back no_flags (CNoneOf [nl]) _ x _ st2
           (length (body ++ [ch "|"])) (length body)).
  - unfold st2. cbn [rest]. lia.
  - rewrite R2, firstn_length_app, forallb_app.
    rewrite forallb_not_nl, Hb. cbn [forallb]. rewrite not_nl_class. reflexivity.
  - rewrite R2, !length_app. lia.
  - rewrite rest_adv, R2, skipn_length_app. rewrite not_nl_class. reflexivity.
  - rewrite length_app. lia.
  - intros i Hi. rewrite length_app in Hi. cbn [length] in Hi.
    assert (i = length (body ++ [ch "|"])) by (rewrite length_app; cbn [length]; lia).
    subst i. apply (exec_row_end_nl _ _ tail).
    now rewrite rest_adv, R2, skipn_length_app.
  - rewrite (exec_row_end _ _ tail).
    + rewrite caps_adv. exact Hk.
    + rewrite rest_adv, R2, <- app_assoc, skipn_length_app. reflexivity.
Qed.

(** The greedy repetition of the row pattern reads every row. *)
Lemma exec_table_rows k x :
  forall bodies n st,
    Forall body_ok bodies ->
    rest st = concat (map with_nl (map row_of bodies)) ->
    length (rest st) < n ->
    k {| prev := match bodies with [] => prev st | _ => Some nl end;
         rest := []; caps := caps st |} = Some x ->
    star_loop (exec no_flags table_row) true k n st = Some x.
Proof.
  induction bodies as [|b bs IH]; intros n st F E Hn Hk;
    (destruct n as [|n]; [lia|]); cbn [star_loop].
  - cbn [map concat] in E. destruct st as [pv rs cp]. cbn [rest prev caps] in *. subst rs.
    rewrite table_row_eq, !exec_Seq, exec_Chr. cbn [rest]. exact Hk.
  - inversion F as [|? ? [Hb1 Hb2] F']; subst.
    cbn [map concat] in E. unfold with_nl at 1 in E. rewrite <- app_assoc in E.
    cbn [app] in E.
    rewrite (exec_table_row _ x st b (concat (map with_nl (map row_of bs))) Hb1 Hb2 E);
      [reflexivity|].
    cbn [rest]. replace (_ <? _) with true.
    + apply IH; [exact F'|reflexivity| |].
      * cbn [rest]. rewrite E, length_app in Hn. cbn [length] in Hn. lia.
      * cbn [prev caps]. destruct bs; exact Hk.
    + symmetry. apply Nat.ltb_lt. rewrite E, length_app. cbn [length]. lia.
Qed.

Lemma exec_Bol fl k st : exec fl Bol k st = if at_bol fl st then k st else None.
Proof. reflexivity. Qed.

Lemma exec_Eol fl k st : exec fl Eol k st = if at_eol fl st then k st else None.
Proof. reflexivity. Qed.

Lemma re_table_eq :
  re_table
  = Seq (Alt Bol (Chr (CLit nl)))
      (Seq (Group 1 (Seq table_row (Star true table_row))) Eps).
Proof. reflexivity. Qed.

Lemma table_text_length b bs :
  0 < length (concat (map with_nl (map row_of (b :: bs)))).
Proof. cbn [map concat]. unfold with_nl at 1, row_of at 1. cbn [app length]. lia. Qed.

(** The table pattern, tried at the start of a text made of rows, reads
    all of it. *)
Lemma search_table b bs s :
  Forall body_ok (b :: bs) ->
  s = concat (map with_nl (map row_of (b :: bs))) ->
  search no_flags re_table None 0 s = Some (whole_match s).
Proof.
  intros F Es.
  assert (E : exec no_flags re_table Some {| prev := None; rest := s; caps := [] |}
              = Some (set_cap 1 s {| prev := Some nl; rest := []; caps := [] |})).
  { rewrite re_table_eq, exec_Seq, exec_Alt, exec_Bol.
    replace (at_bol no_flags _) with true by reflexivity.
    assert (G : exec no_flags (Seq (Group 1 (Seq table_row (Star true table_row))) Eps) Some
                  {| prev := None; rest := s; caps := [] |}
                = Some (set_cap 1 s {| prev := Some nl; rest := []; caps := [] |})).
    { rewrite exec_Seq, exec_Group, exec_Seq.
      apply Forall_cons_iff in F as [[Hb1 Hb2] F'].
      apply (exec_table_row _ _ _ b (concat (map with_nl (map row_of bs))) Hb1 Hb2).
      - cbn [rest]. rewrite Es. cbn [map concat]. unfold with_nl at 1.
        rewrite <- app_assoc. reflexivity.
      - rewrite exec_Star.
        apply (exec_table_rows _ _ bs); [exact F'|reflexivity|cbn [rest]; lia|].
        cbn [rest caps prev length]. rewrite exec_Eps. rewrite Nat.sub_0_r, firstn_all.
        destruct bs; reflexivity. }
    now rewrite G. }
  destruct s as [|c tl].
  - pose proof (table_text_length b bs) as L. rewrite <- Es in L. cbn [length] in L. lia.
  - cbn [search]. rewrite E. cbn [rest set_cap caps length]. rewrite Nat.sub_0_r.
    change (S (length tl)) with (length (c :: tl)). now rewrite firstn_all.
Qed.

Lemma search_table_nil pv idx : search no_flags re_table pv idx [] = None.
Proof. destruct pv; reflexivity. Qed.

Lemma replace_table b bs f s :
  Forall body_ok (b :: bs) ->
  s = concat (map with_nl (map row_of (b :: bs))) ->
  replace_all no_flags re_table f s = f (whole_match s).
Proof.
  intros F Es. unfold replace_all, all_pieces. cbn [pieces].
  rewrite (search_table b bs s F Es).
  cbn [whole_match m_text m_index m_after firstn].
  pose proof (table_text_length b bs) as L. rewrite <- Es in L.
  destruct s as [|c tl]; [cbn [length] in L; lia|].
  cbn [length pieces]. rewrite search_table_nil. cbn [map concat render app].
  now rewrite app_nil_r.
Qed.

Lemma separator_class c :
  cs_match (ignoreCase no_flags) (CUnion CSpace (COneOf [ch "-"; ch ":"; ch "|"])) c
  = separator_char c.
Proof. reflexivity. Qed.

Lemma separator_eq :
  separatorPattern
  = Seq Bol (Seq (Seq (Chr (CLit (ch "|"))) Eps)
      (Seq (Seq (Chr (CUnion CSpace (COneOf [ch "-"; ch ":"; ch "|"])))
              (Star true (Chr (CUnion CSpace (COneOf [ch "-"; ch ":"; ch "|"])))))
         (Seq (Seq (Chr (CLit (ch "|"))) Eps) (Seq Eol Eps)))).
Proof. reflexivity. Qed.

(** A row of separator units passes the separator test. *)
Lemma separator_test sb :
  sb <> [] -> forallb separator_char sb = true ->
  re_test no_flags separatorPattern (row_of sb) = true.
Proof.
  intros Hne Hs. destruct sb as [|b0 body]; [congruence|].
  cbn [forallb] in Hs. apply andb_true_iff in Hs as [H0 Hs].
  unfold re_test, re_match, row_of. cbn [app search].
  set (fin := {| prev := Some (ch "|"); rest := @nil char; caps := [] |}).
  assert (E : exec no_flags separatorPattern Some
                {| prev := None; rest := ch "|" :: b0 :: body ++ [ch "|"]; caps := [] |}
              = Some fin); [|now rewrite E].
  rewrite separator_eq, exec_Seq, exec_Bol.
  replace (at_bol no_flags _) with true by reflexivity.
  rewrite !exec_Seq, exec_Chr. cbn [rest caps].
  replace (cs_match (ignoreCase no_flags) (CLit (ch "|")) (ch "|")) with true by reflexivity.
  rewrite exec_Eps, !exec_Seq, exec_Chr. cbn [rest caps].
  rewrite separator_class, H0, exec_Star. cbn [rest].
  match goal with
  | |- star_loop _ _ ?K _ ?s = _ => set (st2 := s); set (k := K)
  end.
  assert (R2 : rest st2 = (body ++ [ch "|"]) ++ []) by (cbn [st2 rest]; now rewrite app_nil_r).
  apply (star_greedy_back no_flags _ _ fin _ st2 (length (body ++ [ch "|"])) (length body)).
  - unfold st2. cbn [rest]. lia.
  - rewrite R2, firstn_length_app, forallb_app.
    change (forallb (cs_match (ignoreCase no_flags) _) body) with (forallb separator_char body).
    rewrite Hs. reflexivity.
  - rewrite R2, !length_app. lia.
  - rewrite rest_adv, R2, skipn_length_app. exact I.
  - rewrite length_app. lia.
  - intros i Hi. rewrite length_app in Hi. cbn [length] in Hi.
    assert (i = length (body ++ [ch "|"])) by (rewrite length_app; cbn [length]; lia).
    subst i. unfold k. rewrite !exec_Seq, exec_Chr.
    now rewrite rest_adv, R2, skipn_length_app.
  - unfold k. rewrite !exec_Seq, exec_Chr.
    rewrite rest_adv, R2, <- app_assoc, skipn_length_app. cbn [app].
    replace (cs_match (ignoreCase no_flags) (CLit (ch "|")) (ch "|")) with true by reflexivity.
    rewrite exec_Eps, exec_Seq, exec_Eol. cbn [at_eol rest]. rewrite exec_Eps, caps_adv.
    reflexivity.
Qed.

Lemma replace_all_lines p fl r f s :
  line_pattern p (ignoreCase fl) r = true -> lines_lead p None s = true ->
  replace_all fl r f s = s.
Proof.
  destruct r as [| |a r| | | | | | |]; try discriminate.
  destruct a; try discriminate. cbn [line_pattern]. intros H Hl.
  apply andb_true_iff in H as [Ha Hm]. apply Nat.ltb_lt in Hm.
  now apply (replace_all_bol p).
Qed.

Lemma replace_all_inline fl r f s :
  requires inline_char (ignoreCase fl) r = true ->
  existsb inline_char s = false -> replace_all fl r f s = s.
Proof.
  intros H1 H2. apply replace_all_none. now apply (re_test_requires inline_char).
Qed.

Lemma lines_lead_free p c s :
  forall a pv, line_start pv = false ->
    forallb (fun x => negb (is_line_terminator x)) a = true ->
    lines_lead p pv (a ++ c :: s) = lines_lead p (Some c) s.
Proof.
  induction a as [|x a IH]; intros pv Hp Ha; cbn [app lines_lead].
  - now rewrite Hp.
  - rewrite Hp. cbn [forallb] in Ha. apply andb_true_iff in Ha as [Hx Ha].
    cbn [negb orb andb]. apply IH; [|exact Ha]. cbn [line_start].
    now apply negb_true_iff in Hx.
Qed.

Lemma table_body_parts b :
  table_body b = true ->
  b <> [] /\ forallb (fun x => negb (is_line_terminator x)) b = true
  /\ existsb inline_char b = false.
Proof.
  unfold table_body. intro H. apply andb_true_iff in H as [H1 H2]. split; [|split].
  - now destruct b.
  - induction b as [|x b IH]; [reflexivity|]. cbn [forallb] in *.
    apply andb_true_iff in H2 as [Hx H2]. unfold cell_char in Hx.
    apply andb_true_iff in Hx as [Hx _]. rewrite Hx. cbn [andb].
    destruct b; [reflexivity|]. now apply IH.
  - clear H1. induction b as [|x b IH]; [reflexivity|]. cbn [forallb existsb] in *.
    apply andb_true_iff in H2 as [Hx H2]. unfold cell_char in Hx.
    apply andb_true_iff in Hx as [_ Hx]. apply negb_true_iff in Hx. rewrite Hx.
    now apply IH.
Qed.

Lemma not_terminator_not_nl b :
  forallb (fun x => negb (is_line_terminator x)) b = true ->
  forallb (fun c => negb (c =? nl)%N) b = true.
Proof.
  induction b as [|x b IH]; [reflexivity|]. cbn [forallb]. intro H.
  apply andb_true_iff in H as [Hx H]. rewrite (IH H), andb_true_r.
  destruct (N.eqb_spec x nl) as [->|]; [discriminate Hx|reflexivity].
Qed.

Lemma table_body_ok b : table_body b = true -> body_ok b.
Proof.
  intro H. destruct (table_body_parts b H) as (H1 & H2 & _).
  split; [exact H1|now apply not_terminator_not_nl].
Qed.

Lemma table_bodies_ok bodies : forallb table_body bodies = true -> Forall body_ok bodies.
Proof.
  intro H. apply Forall_forall. intros b Hb. apply table_body_ok.
  rewrite forallb_forall in H. now apply H.
Qed.

Lemma body_ok_is_row b : body_ok b -> is_row (row_of b).
Proof.
  intros [_ H]. exists b. split; [reflexivity|]. intro K.
  rewrite forallb_forall in H. apply H in K. now rewrite N.eqb_refl in K.
Qed.

(** A text made of table rows: it holds no inline marker, and each of its
    lines starts with a pipe. *)
Lemma table_text_plain bodies :
  forallb table_body bodies = true ->
  existsb inline_char (concat (map with_nl (map row_of bodies))) = false
  /\ forall pv, lines_lead (ch "|") pv (concat (map with_nl (map row_of bodies))) = true.
Proof.
  induction bodies as [|b bs IH]; intro H; [now split|].
  cbn [forallb] in H. apply andb_true_iff in H as [Hb H].
  destruct (IH H) as [I1 I2]. destruct (table_body_parts b Hb) as (_ & B1 & B2).
  cbn [map concat]. unfold with_nl at 1 3, row_of at 1 3. split.
  - rewrite !existsb_app. cbn [existsb app]. rewrite existsb_app, B2, I1. reflexivity.
  - intro pv. cbn [app lines_lead]. rewrite N.eqb_refl, orb_true_r. cbn [andb].
    rewrite <- app_assoc. cbn [app].
    rewrite <- app_assoc. cbn [app].
    change (b ++ ch "|" :: nl :: concat (map with_nl (map row_of bs)))
      with (b ++ [ch "|"] ++ nl :: concat (map with_nl (map row_of bs))).
    rewrite app_assoc. rewrite lines_lead_free; [apply I2|reflexivity|].
    rewrite forallb_app, B1. reflexivity.
Qed.

Lemma table_callback_rows hb sb bbs s :
  Forall body_ok (hb :: sb :: bbs) -> forallb separator_char sb = true ->
  s = table_text hb sb bbs ->
  table_callback (whole_match s) = table_html (cells_of hb) (map cells_of bbs).
Proof.
  intros F Hs Es. unfold table_callback, whole_match.
  cbn [group_text group m_caps lookup_cap Nat.eqb m_text]. cbv zeta.
  assert (R : Forall is_row (row_of hb :: map row_of (sb :: bbs))).
  { change (row_of hb :: map row_of (sb :: bbs)) with (map row_of (hb :: sb :: bbs)).
    apply Forall_forall. intros r Hr. apply in_map_iff in Hr as (b & <- & Hb).
    apply body_ok_is_row. rewrite Forall_forall in F. now apply F. }
  rewrite Es. unfold table_text. cbn [map] in R.
  change (map row_of (hb :: sb :: bbs)) with (row_of hb :: row_of sb :: map row_of bbs).
  rewrite (table_lines (row_of hb) (row_of sb :: map row_of bbs) R).
  cbn [length Nat.ltb Nat.leb].
  apply Forall_cons_iff in F as [_ F]. apply Forall_cons_iff in F as [[Hne _] _].
  rewrite (separator_test sb Hne Hs). cbn [negb].
  unfold row_of at 1. rewrite row_cells_row. fold (cells_of hb). f_equal.
  rewrite map_map. apply map_ext. intro b. unfold row_of. now rewrite row_cells_row.
Qed.

Lemma no_blank_app a :
  forall p b, no_blank_from p (a ++ b) = no_blank_from p a && no_blank_from (ends_nl p a) b.
Proof.
  induction a as [|c a IH]; intros p b; [reflexivity|].
  cbn [app no_blank_from]. rewrite IH. unfold ends_nl. cbn [fold_left].
  now rewrite andb_assoc.
Qed.

Lemma nl_free_blank a :
  existsb is_nl a = false ->
  (forall p, no_blank_from p a = true) /\ ends_nl false a = false.
Proof.
  induction a as [|c a IH]; intro H; [now split|].
  cbn [existsb] in H. apply orb_false_iff in H as [Hc H]. destruct (IH H) as [I1 I2].
  split.
  - intro p. cbn [no_blank_from]. rewrite Hc, andb_false_r. cbn [negb andb]. apply I1.
  - unfold ends_nl in *. cbn [fold_left]. now rewrite Hc.
Qed.

Lemma no_blank_tail x y s :
  no_blank_from false (x :: y :: s) = true ->
  (is_nl x && is_nl y = false) /\ no_blank_from false (y :: s) = true.
Proof.
  cbn [no_blank_from andb negb]. intro H. apply andb_true_iff in H as [H1 H2].
  apply negb_true_iff in H1. split; [exact H1|exact H2].
Qed.

Lemma split_nlnl_one s : no_blank_from false s = true -> split_nlnl s = [s].
Proof.
  induction s as [|x s IH]; intro H; [reflexivity|].
  destruct s as [|y s]; [reflexivity|].
  rewrite split_nlnl_cons2. destruct (no_blank_tail x y s H) as [H1 H2].
  unfold is_nl in H1. rewrite H1. now rewrite (IH H2).
Qed.

Lemma existsb_split_char (X : char -> bool) sep s :
  existsb X s = false -> existsb (existsb X) (split_char sep s) = false.
Proof.
  induction s as [|c s IH]; intro H; [reflexivity|]. cbn [split_char].
  cbn [existsb] in H. apply orb_false_iff in H as [Hc H].
  destruct (c =? sep)%N.
  - cbn [existsb]. now apply IH.
  - rewrite existsb_push_head, Hc. now apply IH.
Qed.

Lemma existsb_map_trim (X : char -> bool) l :
  existsb (existsb X) l = false -> existsb (existsb X) (map trim l) = false.
Proof.
  induction l as [|x l IH]; intro H; [reflexivity|]. cbn [map existsb] in *.
  apply orb_false_iff in H as [Hx H]. now rewrite (existsb_trim X x Hx), IH.
Qed.

Lemma existsb_cells (X : char -> bool) b :
  existsb X b = false -> existsb (existsb X) (cells_of b) = false.
Proof. intro H. unfold cells_of. now apply existsb_map_trim, existsb_split_char. Qed.

Lemma existsb_join_map {A} (X : char -> bool) (f : A -> jsstring) l :
  (forall a, In a l -> existsb X (f a) = false) ->
  existsb X (join [] (map f l)) = false.
Proof.
  induction l as [|a l IH]; intro H; [reflexivity|].
  assert (Ha : existsb X (f a) = false) by (apply H; now left).
  assert (Hl : existsb X (join [] (map f l)) = false)
    by (apply IH; intros b Hb; apply H; now right).
  destruct l as [|b l]; [exact Ha|].
  change (join [] (map f (a :: b :: l))) with (f a ++ [] ++ join [] (map f (b :: l))).
  now rewrite !existsb_app, Ha, Hl.
Qed.

Lemma existsb_In (X : char -> bool) (l : list jsstring) x :
  existsb (existsb X) l = false -> In x l -> existsb X x = false.
Proof.
  intros H Hx. destruct (existsb X x) eqn:E; [|reflexivity].
  assert (existsb (existsb X) l = true) by (apply existsb_exists; now exists x).
  congruence.
Qed.

Lemma headerHTML_lines headerCells :
  existsb (existsb is_nl) headerCells = false -> existsb is_nl (headerHTML headerCells) = false.
Proof.
  intro H. unfold headerHTML. apply existsb_join_map. intros cell Hc.
  rewrite !existsb_app, (existsb_In is_nl headerCells cell H Hc). reflexivity.
Qed.

Lemma bodyHTML_lines bodyRows :
  (forall r, In r bodyRows -> existsb (existsb is_nl) r = false) ->
  existsb is_nl (bodyHTML bodyRows) = false.
Proof.
  intro H. unfold bodyHTML. apply existsb_join_map. intros r Hr.
  rewrite !existsb_app. rewrite (existsb_join_map is_nl).
  - reflexivity.
  - intros cell Hc. rewrite !existsb_app, (existsb_In is_nl r cell (H r Hr) Hc). reflexivity.
Qed.

(** The table element holds no blank line. *)
Lemma table_html_one_block headerCells bodyRows :
  existsb is_nl (headerHTML headerCells) = false ->
  existsb is_nl (bodyHTML bodyRows) = false ->
  split_nlnl (table_html headerCells bodyRows) = [table_html headerCells bodyRows].
Proof.
  intros H B. apply split_nlnl_one. unfold table_html.
  destruct (nl_free_blank _ H) as [H1 H2]. destruct (nl_free_blank _ B) as [B1 B2].
  rewrite no_blank_app.
  replace (no_blank_from false table_open) with true by (vm_compute; reflexivity).
  replace (ends_nl false table_open) with false by (vm_compute; reflexivity).
  rewrite no_blank_app, H1, H2, no_blank_app.
  replace (no_blank_from false table_mid) with true by (vm_compute; reflexivity).
  replace (ends_nl false table_mid) with false by (vm_compute; reflexivity).
  rewrite no_blank_app, B1, B2.
  vm_compute. reflexivity.
Qed.

Lemma trim_nl s : trim (nl :: s) = trim s.
Proof. reflexivity. Qed.

(** The table element starts with a line feed, so the paragraph pass wraps
    it like a block of text. *)
Lemma wrap_table headerCells bodyRows :
  wrap_block (table_html headerCells bodyRows)
  = p_open ++ flat_map br_of (table_html headerCells bodyRows) ++ str "</p>".
Proof.
  unfold wrap_block. rewrite replace_nl_spec.
  assert (E : exists R, table_html headerCells bodyRows = nl :: [ch "<"] ++ R).
  { exists (skipn 2 table_open ++ headerHTML headerCells ++ table_mid
              ++ bodyHTML bodyRows ++ table_close).
    unfold table_html. reflexivity. }
  destruct E as (R & E). rewrite E.
  rewrite trim_nl, trim_head_nonspace by reflexivity.
  reflexivity.
Qed.

(** X16.  The print export of a table.  For a header row, a separator row
    and any number of body rows, each a pipe, a body that is not empty, a
    pipe and a line feed, where no body holds a line terminator or one of
    & * _ ` [ < and the separator body holds only white space, dashes,
    colons and pipes: every pass before the table pass leaves the text as
    it is, the table pass reads all rows as one table, and the result is
    the table element with one header cell for each piece between the
    pipes of the header body, trimmed and in order, and one body row for
    each body row with its cells likewise.  The element starts with a line
    feed, so the paragraph pass wraps it in a paragraph element and turns
    its line feeds into line breaks. *)
Theorem table_rendered (hb sb : jsstring) (bbs : list jsstring) :
  forallb table_body (hb :: sb :: bbs) = true ->
  forallb separator_char sb = true ->
  markdownToHTML (table_text hb sb bbs)
  = p_open ++ flat_map br_of (table_html (cells_of hb) (map cells_of bbs)) ++ str "</p>".
Proof.
  intros Hb Hs.
  destruct (table_text_plain _ Hb) as [I L]. specialize (L None).
  pose proof (table_bodies_ok _ Hb) as F.
  fold (table_text hb sb bbs) in I, L.
  remember (table_text hb sb bbs) as s eqn:Es.
  unfold markdownToHTML, md_escape, md_headers, md_emphasis, md_code,
    md_links, md_rules, md_lists, md_quotes, md_tables, md_paragraphs.
  cbv zeta.
  repeat first
    [ rewrite (replace_all_inline _ _ _ s) by (first [reflexivity|exact I])
    | rewrite (replace_all_lines (ch "|") _ _ _ s) by (first [reflexivity|exact L]) ].
  rewrite (replace_table hb (sb :: bbs) table_callback s F Es).
  rewrite (table_callback_rows hb sb bbs s F Hs Es).
  assert (N : forall b, In b (hb :: sb :: bbs) -> existsb is_nl b = false).
  { intros b Hin. rewrite Forall_forall in F. destruct (F b Hin) as [_ K].
    clear -K. induction b as [|x b IH]; [reflexivity|]. cbn [forallb] in K.
    cbn [existsb]. apply andb_true_iff in K as [Kx K]. apply negb_true_iff in Kx.
    unfold is_nl at 1. rewrite Kx. cbn [orb]. now apply IH. }
  rewrite table_html_one_block.
  - cbn [map join]. apply wrap_table.
  - apply headerHTML_lines, existsb_cells, N. now left.
  - apply bodyHTML_lines. intros r Hr. apply in_map_iff in Hr as (b & <- & Hin).
    apply existsb_cells, N. now right; right.
Qed.

Lemma table_rendered_witness :
  markdownToHTML
    (table_text table_header_example table_separator_example table_bodies_example)
  = p_open
    ++ flat_map br_of
         (table_html [str "Keyword"; str "Volume"]
            [[str "on-page seo"; str "1200"]; [str "#1 > #2"; str "90"]])
    ++ str "</p>".
Proof.
  rewrite (table_rendered table_header_example table_separator_example
             table_bodies_example); reflexivity.
Defined.

(* --------------------------------------------------------------------- *)
(** ** markdownToHTML and the angle brackets *)
(* --------------------------------------------------------------------- *)

Lemma only_spaces_sound fl r :
  forall st st', only_spaces r = true -> den fl r st st' ->
    exists w, rest st = w ++ rest st' /\ forallb is_space w = true.
Proof.
  induction r as [|cs|a IHa b IHb|a IHa b IHb|g a IHa|i a IHa| | | |a IHa];
    intros st st' Ho H; cbn [only_spaces den] in *; try discriminate.
  - subst. now exists [].
  - destruct cs; try discriminate.
    destruct H as (c & tl & E & M & ->). exists [c]. cbn [rest app forallb].
    cbn [cs_match] in M. now rewrite M.
  - apply andb_true_iff in Ho as [Ha Hb]. destruct H as (mid & H1 & H2).
    destruct (IHa _ _ Ha H1) as (w1 & E1 & F1).
    destruct (IHb _ _ Hb H2) as (w2 & E2 & F2).
    exists (w1 ++ w2). rewrite E1, E2, app_assoc. split; [reflexivity|].
    rewrite forallb_app. now rewrite F1, F2.
  - induction H as [st|st mid st' H1 S IH]; [now exists []|].
    destruct (IHa _ _ Ho H1) as (w1 & E1 & F1). destruct IH as (w2 & E2 & F2).
    exists (w1 ++ w2). rewrite E1, E2, app_assoc. split; [reflexivity|].
    rewrite forallb_app. now rewrite F1, F2.
  - destruct H as (mid & H1 & ->). cbn [set_cap rest]. now apply IHa.
Qed.

Lemma leads_with_sound X fl r :
  forall st st', leads_with X (ignoreCase fl) r = true -> den fl r st st' ->
    exists w c tl, rest st = w ++ c :: tl /\ forallb is_space w = true /\ X c = true.
Proof.
  induction r as [|cs|a IHa b IHb|a IHa b IHb|g a IHa|i a IHa| | | |a IHa];
    intros st st' Hl H; cbn [leads_with den] in *; try discriminate.
  - destruct H as (c & tl & E & M & ->). exists [], c, tl.
    split; [exact E|]. split; [reflexivity|].
    now apply (cs_within_sound X _ cs c Hl M).
  - destruct H as (mid & H1 & H2). apply orb_true_iff in Hl as [Hl|Hl].
    + now apply (IHa _ _ Hl H1).
    + apply andb_true_iff in Hl as [Ho Hb].
      destruct (only_spaces_sound fl a _ _ Ho H1) as (w1 & E1 & F1).
      destruct (IHb _ _ Hb H2) as (w2 & c & tl & E2 & F2 & Xc).
      exists (w1 ++ w2), c, tl. rewrite E1, E2, app_assoc.
      split; [reflexivity|]. rewrite forallb_app. now rewrite F1, F2.
  - apply andb_true_iff in Hl as [Ha Hb].
    destruct H as [H|H]; [now apply (IHa _ _ Ha H)|now apply (IHb _ _ Hb H)].
  - destruct H as (mid & H1 & _). now apply (IHa _ _ Hl H1).
Qed.

Lemma first_after_spaces_app (X : char -> bool) w c tl :
  forallb is_space w = true -> X c = true -> is_space c = false ->
  first_after_spaces X (w ++ c :: tl) = true.
Proof.
  intros F Xc Sc. unfold first_after_spaces.
  induction w as [|x w IH]; cbn [app drop_while].
  - now rewrite Sc.
  - cbn [forallb] in F. apply andb_true_iff in F as [Fx F]. rewrite Fx. now apply IH.
Qed.

(** A pattern anchored at the start of a line that then reads white space
    and a unit of [X] matches nowhere in a text none of whose lines starts,
    after white space, with a unit of [X]. *)
Lemma search_line_rule (X : char -> bool) fl r :
  (forall c, X c = true -> is_space c = false) ->
  leads_with X (ignoreCase fl) r = true ->
  forall s pv idx, led_line X pv s = false -> search fl (Seq Bol r) pv idx s = None.
Proof.
  intros HX Hl.
  assert (here : forall s pv x,
            led_line X pv s = false ->
            exec fl (Seq Bol r) Some {| prev := pv; rest := s; caps := [] |} = Some x ->
            False).
  { intros s pv x Hs E. apply exec_sound in E as (st' & D & _). cbn [den] in D.
    destruct D as (mid & (-> & B) & D).
    assert (L : line_start pv = true).
    { unfold at_bol in B. cbn [prev] in B. destruct pv as [q|]; [|reflexivity].
      apply andb_true_iff in B as [_ B]. exact B. }
    destruct (leads_with_sound X fl r _ _ Hl D) as (w & c & tl & E & F & Xc).
    cbn [rest] in E. subst s.
    assert (K : first_after_spaces X (w ++ c :: tl) = true)
      by (apply first_after_spaces_app; auto).
    destruct w; cbn [app led_line] in Hs; rewrite L in Hs; cbn [app] in K;
      rewrite K in Hs; discriminate. }
  induction s as [|c tl IH]; intros pv idx Hs; cbn [search].
  - destruct (exec fl (Seq Bol r) Some _) as [x|] eqn:E; [|reflexivity].
    exfalso. exact (here _ _ _ Hs E).
  - destruct (exec fl (Seq Bol r) Some _) as [x|] eqn:E.
    + exfalso. exact (here _ _ _ Hs E).
    + apply IH. cbn [led_line] in Hs. now apply orb_false_iff in Hs as [_ Hs].
Qed.

Lemma replace_all_line_rule (X : char -> bool) fl r f s :
  (forall c, X c = true -> is_space c = false) ->
  line_rule X (ignoreCase fl) r = true -> led_line X None s = false ->
  replace_all fl r f s = s.
Proof.
  intro HX. destruct r as [| |a r| | | | | | |]; try discriminate.
  destruct a; try discriminate. cbn [line_rule]. intros Hl Hs.
  apply replace_all_none. unfold re_test, re_match.
  now rewrite (search_line_rule X fl r HX Hl s None 0 Hs).
Qed.

(** A pattern whose matches start with the string [w] matches nowhere in a
    text that does not hold [w]. *)
Lemma search_starts fl r w :
  (forall st st', den fl r st st' -> starts_with w (rest st) = true) ->
  forall s pv idx, indexOf w s = None -> search fl r pv idx s = None.
Proof.
  intro H.
  assert (here : forall s pv x,
            indexOf w s = None ->
            exec fl r Some {| prev := pv; rest := s; caps := [] |} = Some x -> False).
  { intros s pv x Hs E. apply exec_sound in E as (st' & D & _).
    apply H in D. cbn [rest] in D. destruct s; cbn [indexOf] in Hs; rewrite D in Hs;
      discriminate. }
  induction s as [|c tl IH]; intros pv idx Hs; cbn [search].
  - destruct (exec fl r Some _) as [x|] eqn:E; [|reflexivity].
    exfalso. exact (here _ _ _ Hs E).
  - destruct (exec fl r Some _) as [x|] eqn:E.
    + exfalso. exact (here _ _ _ Hs E).
    + apply IH. cbn [indexOf] in Hs.
      destruct (starts_with w (c :: tl)); [discriminate|].
      now destruct (indexOf w tl).
Qed.

Lemma den_li_run st st' :
  den no_flags re_li_run st st' -> starts_with (str "<li") (rest st) = true.
Proof.
  intro D. unfold re_li_run, Plus in D. cbn [den] in D.
  destruct D as (mid & (m1 & D & _) & _).
  unfold Cat in D. cbn [fold_right den] in D.
  destruct D as (m2 & D & _).
  unfold lit, Lit, Cat in D. cbn [str list_ascii_of_string map fold_right den] in D.
  destruct D as (a1 & (c1 & t1 & E1 & M1 & ->) & a2 & (c2 & t2 & E2 & M2 & ->)
                 & a3 & (c3 & t3 & E3 & M3 & ->) & _).
  cbn [rest] in E2, E3. subst t1 t2. rewrite E1.
  cbn [cs_match ignoreCase no_flags eq_char] in M1, M2, M3.
  cbn [str list_ascii_of_string map starts_with].
  now rewrite M1, M2, M3.
Qed.

Lemma replace_all_li_run f s :
  occurs (str "<li") s = false -> replace_all no_flags re_li_run f s = s.
Proof.
  intro H. apply replace_all_none. unfold re_test, re_match.
  rewrite (search_starts no_flags re_li_run (str "<li") den_li_run); [reflexivity|].
  unfold occurs in H. now destruct (indexOf (str "<li") s).
Qed.

Lemma leading_not_space c : leading_syntax_char c = true -> is_space c = false.
Proof.
  unfold leading_syntax_char. intro H. apply existsb_exists in H as (x & Hx & E).
  apply N.eqb_eq in E. subst x.
  cbn [app bullet_units In] in Hx.
  repeat (destruct Hx as [<-|Hx]; [reflexivity|]). destruct Hx.
Qed.

Lemma replace_all_inline_syntax fl r f s :
  requires inline_syntax_char (ignoreCase fl) r = true ->
  existsb inline_syntax_char s = false -> replace_all fl r f s = s.
Proof.
  intros H1 H2. apply replace_all_none. now apply (re_test_requires inline_syntax_char).
Qed.

Lemma flat_map_br_free s : existsb is_nl s = false -> flat_map br_of s = s.
Proof.
  induction s as [|x s IH]; intro H; [reflexivity|].
  cbn [existsb] in H. apply orb_false_iff in H as [Hx H].
  cbn [flat_map]. unfold br_of at 1. unfold is_nl in Hx. rewrite Hx.
  cbn [app]. now rewrite IH.
Qed.

Lemma md_paragraphs_line s : existsb is_nl s = false -> md_paragraphs s = emitted s.
Proof.
  intro H. unfold md_paragraphs.
  rewrite split_nlnl_one by (apply nl_free_blank; exact H).
  cbn [map join]. unfold wrap_block, emitted.
  destruct (nonempty (trim s) && _); [|reflexivity].
  now rewrite replace_nl_spec, flat_map_br_free.
Qed.

(** Every pass before the paragraphs leaves a text without markdown syntax
    as it is. *)
Lemma syntax_free_passes s :
  syntax_free s = true -> markdownToHTML s = md_paragraphs s.
Proof.
  unfold syntax_free. intro H.
  apply andb_true_iff in H as [H H3]. apply andb_true_iff in H as [H1 H2].
  apply negb_true_iff in H1, H2, H3.
  unfold markdownToHTML, md_escape, md_headers, md_emphasis, md_code,
    md_links, md_rules, md_lists, md_quotes, md_tables.
  cbv zeta.
  repeat first
    [ rewrite (replace_all_inline_syntax _ _ _ s); [|reflexivity|exact H1]
    | rewrite (replace_all_line_rule leading_syntax_char _ _ _ s leading_not_space);
      [|reflexivity|exact H2]
    | rewrite (replace_all_li_run _ s H3) ].
  reflexivity.
Qed.

(** C10 fails as stated.  The > of a quotation line is taken by the
    blockquote pass: the export of the line is the blockquote element around
    what followed the mark, and the line itself is not in it.  Markup that
    holds markdown syntax is rewritten: the underscores of a file name in an
    attribute become an em element. *)
Lemma markdownToHTML_keeps_angle_brackets_counterexample :
  markdownToHTML quote_example = quote_open ++ str "hi" ++ str "</blockquote>"
  /\ occurs quote_example (markdownToHTML quote_example) = false
  /\ markdownToHTML image_example
     = p_open ++ str "<img src=my<em>file</em>name.png>" ++ str "</p>"
  /\ occurs image_example (markdownToHTML image_example) = false.
Proof. repeat split; vm_compute; reflexivity. Qed.

(** C10, amended.  The escape pass rewrites every & to &amp; and touches
    nothing else.  For every input and for each of the two angle brackets
    the document holds at least as many occurrences of the bracket as the
    input.  A text without markdown syntax (none of & * _ ` [ and the
    pipe; no line that starts, after white space, with # - > * a digit or a
    bullet unit; no <li) goes through every pass before the paragraphs as it
    is, so its markup is emitted unchanged: when it has no line feed the
    document is the text itself, inside one paragraph element unless the
    text is blank or starts with a block-level tag. *)
Theorem markdownToHTML_keeps_angle_brackets :
  (forall markdown : jsstring, md_escape markdown = flat_map escape_amp markdown)
  /\ (forall (markdown : jsstring) (c : char),
        c = lt_char \/ c = gt_char ->
        count c markdown <= count c (markdownToHTML markdown))
  /\ (forall markup : jsstring,
        syntax_free markup = true ->
        markdownToHTML markup = md_paragraphs markup
        /\ (existsb is_nl markup = false -> markdownToHTML markup = emitted markup))
  /\ markdownToHTML markup_text
     = p_open ++ str "<script>alert(1)</script> &amp; more" ++ str "</p>".
Proof.
  split; [exact md_escape_spec|].
  split; [|split; [|vm_compute; reflexivity]].
  - intros markdown c angle. unfold markdownToHTML. cbv zeta.
    eapply Nat.le_trans; [|apply (md_paragraphs_count c angle)].
    eapply Nat.le_trans; [|apply (md_tables_count c angle)].
    eapply Nat.le_trans; [|apply (md_quotes_count c angle)].
    eapply Nat.le_trans; [|apply (md_lists_count c angle)].
    eapply Nat.le_trans; [|apply (md_rules_count c angle)].
    eapply Nat.le_trans; [|apply (md_links_count c angle)].
    eapply Nat.le_trans; [|apply (md_code_count c angle)].
    eapply Nat.le_trans; [|apply (md_emphasis_count c angle)].
    eapply Nat.le_trans; [|apply (md_headers_count c angle)].
    apply (md_escape_count c angle).
  - intros markup H. split; [now apply syntax_free_passes|].
    intro Hn. rewrite (syntax_free_passes markup H). now apply md_paragraphs_line.
Qed.

Lemma markdownToHTML_keeps_angle_brackets_witness :
  count lt_char markup_text = 2
  /\ count lt_char markup_text <= count lt_char (markdownToHTML markup_text)
  /\ syntax_free markup_example = true
  /\ markdownToHTML markup_example = p_open ++ markup_example ++ str "</p>".
Proof.
  split; [reflexivity|].
  split; [exact (proj1 (proj2 markdownToHTML_keeps_angle_brackets) markup_text lt_char
                   (or_introl eq_refl))|].
  split; [vm_compute; reflexivity|].
  exact (proj2 (proj1 (proj2 (proj2 markdownToHTML_keeps_angle_brackets))
                  markup_example eq_refl) eq_refl).
Defined.

(* --------------------------------------------------------------------- *)
(** ** The clean-up of answer labels *)
(* --------------------------------------------------------------------- *)




























































